(** * EmailBot: the incremental mail fetcher, the extraction engine and the
    sent-message ledger, embedded from the Python sources

    The program:
    - [src/telegram_bot.py]  ->  [Module Telegram]
    - [src/email_client.py]  ->  [Module EmailClient]
    - [src/parser.py]        ->  [Module Parser], [Module Notice]
    - [src/main.py]          ->  [Module Bot]
    - the rest of the mail client and of the notifier: [Module Mailbox],
      [Module Notify], over the dates of [Module Calendar]

    What it stands on:
    - [Py], [Codec]: [str] as a list of code points, [bytes] as a list of
      [byte], exceptions, UTF-8 and cp1251;
    - [Eff]: method bodies as functions from the state before to a result
      and the state after, where a raised exception keeps the state;
    - [Sys], [Lib]: what the clock, the file system, [imaplib], [email]
      and the Unicode database answer, as type classes: the program is
      embedded once, for every outside;
    - [Re]: the regular expressions of the parser, read from the pattern
      text and matched as a backtracking matcher does;
    - [Tables], [Sim]: a character table and a simulated outside, for
      worked examples.

    Calls to [self.logger] are left out: they neither change the state the
    program reads nor its control flow.

    The properties follow the embedding: [TelegramFacts],
    [EmailClientFacts], [BodyFacts], [ReFacts], [ReplyMark],
    [ParserFacts]; then [LedgerFacts], [MailboxFacts], [EngineFacts],
    [ExtractionFacts], [NoticeFacts], [NotifyFacts], [BotFacts]. *)

From Stdlib Require Import String Ascii.
From Stdlib.Strings Require Import Byte.
From Stdlib Require Import List ZArith NArith Bool Lia Arith.
Import ListNotations.

Set Implicit Arguments.

(* ===================================================================== *)
(** * Python values: [str], [bytes], exceptions *)
(* ===================================================================== *)

Module Py.

(** A code point. *)
Definition char := N.
(** [str]: a sequence of code points. *)
Definition str := list char.
(** [bytes]. *)
Definition bytes := list byte.

Definition str_eqb (a b : str) : bool :=
  if list_eq_dec N.eq_dec a b then true else false.

(** [prefix in s] at position 0: [s.startswith(prefix)]. *)
Fixpoint startswith (s prefix : str) : bool :=
  match prefix, s with
  | [], _ => true
  | _ :: _, [] => false
  | p :: prefix', c :: s' => (N.eqb p c) && startswith s' prefix'
  end.

(** [sub in s] for strings: [sub] occurs at some position of [s]. *)
Fixpoint contains (s sub : str) : bool :=
  startswith s sub ||
  match s with
  | [] => false
  | _ :: s' => contains s' sub
  end.

(** [any(x in s for x in subs)]. *)
Definition contains_any (s : str) (subs : list str) : bool :=
  existsb (contains s) subs.

(** [str.isspace] on one code point: the characters Python treats as
    whitespace, which are also the ones [\s] matches in a [str] pattern. *)
Definition isspace (c : char) : bool :=
  ((9 <=? c) && (c <=? 13) || (28 <=? c) && (c <=? 32) ||
   (c =? 133) || (c =? 160) || (c =? 5760) ||
   (8192 <=? c) && (c <=? 8202) || (c =? 8232) || (c =? 8233) ||
   (c =? 8239) || (c =? 8287) || (c =? 12288))%N.

(** [s.lstrip()], [s.rstrip()], [s.strip()]. *)
Fixpoint lstrip (s : str) : str :=
  match s with
  | c :: s' => if isspace c then lstrip s' else s
  | [] => []
  end.

Definition rstrip (s : str) : str := rev (lstrip (rev s)).

Definition strip (s : str) : str := rstrip (lstrip s).

(** [s.split(sep)] for a one-character separator: always at least one
    piece. *)
Fixpoint split_on (sep : char) (s : str) : list str :=
  match s with
  | [] => [[]]
  | c :: s' =>
      if (c =? sep)%N then [] :: split_on sep s'
      else match split_on sep s' with
           | piece :: pieces => (c :: piece) :: pieces
           | [] => [[c]]
           end
  end.

(** [s[:n]] and [s[n:]] for [n >= 0]; [s[-n:]] for [n > 0]. *)
Definition slice_to {A} (n : nat) (s : list A) : list A := firstn n s.
Definition slice_from {A} (n : nat) (s : list A) : list A := skipn n s.
Definition slice_last {A} (n : nat) (s : list A) : list A :=
  skipn (length s - n) s.

(** An exception, with what [str(e)] gives. *)
Record exn := Exception { description : str }.

(** What a call produces: a value, or a raised exception. *)
Inductive result (A : Type) :=
| Ok (a : A)
| Raise (e : exn).
Arguments Ok {A} a.
Arguments Raise {A} e.

(** Truthiness of an [Optional[str]]: [None] and [''] are false. *)
Definition truthy (o : option str) : bool :=
  match o with
  | Some (_ :: _) => true
  | _ => false
  end.

End Py.
Export Py.

(* ===================================================================== *)
(** * Codecs: UTF-8 and cp1251 *)
(* ===================================================================== *)

Module Codec.

(** The [errors=] argument of [bytes.decode]. *)
Inductive errors := Strict | Ignore | Replace.

Definition is_continuation (b : N) : bool := ((128 <=? b) && (b <? 192))%N.

(** A decoded character followed by the decoding of the rest. *)
Definition emit (c : char) (rest : option str) : option str :=
  option_map (cons c) rest.

(** An undecodable range followed by the decoding of what comes after it:
    [strict] raises [UnicodeDecodeError], [ignore] drops the range,
    [replace] puts one U+FFFD in its place. *)
Definition on_error (h : errors) (rest : option str) : option str :=
  match h with
  | Strict => None
  | Ignore => rest
  | Replace => option_map (cons 65533%N) rest
  end.

Definition cp2 (b0 b1 : N) : N := ((b0 - 192) * 64 + (b1 - 128))%N.
Definition cp3 (b0 b1 b2 : N) : N :=
  ((b0 - 224) * 4096 + (b1 - 128) * 64 + (b2 - 128))%N.
Definition cp4 (b0 b1 b2 b3 : N) : N :=
  ((b0 - 240) * 262144 + (b1 - 128) * 4096 + (b2 - 128) * 64 + (b3 - 128))%N.

(** Is [b1] a valid second byte after the lead byte [b0] of a three-byte
    (resp. four-byte) sequence: a continuation byte that gives neither an
    overlong form, a surrogate, nor a code point above U+10FFFF. *)
Definition second_ok3 (b0 b1 : N) : bool :=
  (is_continuation b1 &&
   negb ((b0 =? 224) && (b1 <? 160)) && negb ((b0 =? 237) && (160 <=? b1)))%N.
Definition second_ok4 (b0 b1 : N) : bool :=
  (is_continuation b1 &&
   negb ((b0 =? 240) && (b1 <? 144)) && negb ((b0 =? 244) && (144 <=? b1)))%N.

(** [bs.decode('utf-8', errors=h)]; [None] is [UnicodeDecodeError]. An
    undecodable range is the lead byte with the continuation bytes that are
    valid after it; decoding resumes at the first byte that is not. *)
Fixpoint decode_utf8 (h : errors) (bs : bytes) : option str :=
  match bs with
  | [] => Some []
  | x0 :: t0 =>
      let b0 := Byte.to_N x0 in
      if (b0 <? 128)%N then emit b0 (decode_utf8 h t0)
      else if (b0 <? 194)%N then on_error h (decode_utf8 h t0)
      else if (b0 <? 224)%N then
        match t0 with
        | [] => on_error h (Some [])
        | x1 :: t1 =>
            let b1 := Byte.to_N x1 in
            if is_continuation b1 then emit (cp2 b0 b1) (decode_utf8 h t1)
            else on_error h (decode_utf8 h t0)
        end
      else if (b0 <? 240)%N then
        match t0 with
        | [] => on_error h (Some [])
        | x1 :: t1 =>
            let b1 := Byte.to_N x1 in
            if second_ok3 b0 b1 then
              match t1 with
              | [] => on_error h (Some [])
              | x2 :: t2 =>
                  let b2 := Byte.to_N x2 in
                  if is_continuation b2
                  then emit (cp3 b0 b1 b2) (decode_utf8 h t2)
                  else on_error h (decode_utf8 h t1)
              end
            else on_error h (decode_utf8 h t0)
        end
      else if (b0 <? 245)%N then
        match t0 with
        | [] => on_error h (Some [])
        | x1 :: t1 =>
            let b1 := Byte.to_N x1 in
            if second_ok4 b0 b1 then
              match t1 with
              | [] => on_error h (Some [])
              | x2 :: t2 =>
                  let b2 := Byte.to_N x2 in
                  if is_continuation b2 then
                    match t2 with
                    | [] => on_error h (Some [])
                    | x3 :: t3 =>
                        let b3 := Byte.to_N x3 in
                        if is_continuation b3
                        then emit (cp4 b0 b1 b2 b3) (decode_utf8 h t3)
                        else on_error h (decode_utf8 h t2)
                    end
                  else on_error h (decode_utf8 h t1)
              end
            else on_error h (decode_utf8 h t0)
        end
      else on_error h (decode_utf8 h t0)
  end.

(** The code points of bytes 0x80..0xBF in cp1251; byte 0x98 is
    undefined. *)
Definition cp1251_high : list (option N) :=
  map (fun c => if (c =? 0)%N then None else Some c)
    [ 1026; 1027; 8218; 1107; 8222; 8230; 8224; 8225;
      8364; 8240; 1033; 8249; 1034; 1036; 1035; 1039;
      1106; 8216; 8217; 8220; 8221; 8226; 8211; 8212;
      0;    8482; 1113; 8250; 1114; 1116; 1115; 1119;
      160;  1038; 1118; 1032; 164;  1168; 166;  167;
      1025; 169;  1028; 171;  172;  173;  174;  1031;
      176;  177;  1030; 1110; 1169; 181;  182;  183;
      1105; 8470; 1108; 187;  1112; 1029; 1109; 1111 ]%N.

Definition cp1251_char (b : N) : option char :=
  if (b <? 128)%N then Some b
  else if (b <? 192)%N then nth (N.to_nat (b - 128)) cp1251_high None
  else Some (b + 848)%N.

(** [bs.decode('cp1251')]; [None] is [UnicodeDecodeError]. *)
Fixpoint decode_cp1251 (bs : bytes) : option str :=
  match bs with
  | [] => Some []
  | x :: t =>
      match cp1251_char (Byte.to_N x), decode_cp1251 t with
      | Some c, Some s => Some (c :: s)
      | _, _ => None
      end
  end.

Definition byte_of (n : N) : byte :=
  match Byte.of_N n with Some b => b | None => x00 end.

(** [s.encode('utf-8')]; [None] is [UnicodeEncodeError] (a surrogate). *)
Fixpoint encode_utf8 (s : str) : option bytes :=
  match s with
  | [] => Some []
  | c :: s' =>
      let enc :=
        if (c <? 128)%N then Some [byte_of c]
        else if (c <? 2048)%N then
          Some [byte_of (192 + c / 64); byte_of (128 + c mod 64)]
        else if (55296 <=? c)%N && (c <? 57344)%N then None
        else if (c <? 65536)%N then
          Some [byte_of (224 + c / 4096); byte_of (128 + (c / 64) mod 64);
                byte_of (128 + c mod 64)]
        else if (c <? 1114112)%N then
          Some [byte_of (240 + c / 262144); byte_of (128 + (c / 4096) mod 64);
                byte_of (128 + (c / 64) mod 64); byte_of (128 + c mod 64)]
        else None in
      match enc, encode_utf8 s' with
      | Some b, Some bs => Some (b ++ bs)
      | _, _ => None
      end
  end.

(** A string literal of this file, read as UTF-8 text. *)
Definition u (s : string) : str :=
  match decode_utf8 Ignore (list_byte_of_string s) with
  | Some t => t
  | None => []
  end.

End Codec.
Export Codec.

(* ===================================================================== *)
(** * Effects: state that survives a raised exception *)
(* ===================================================================== *)

Module Eff.

Section Monad.
Variable W : Type.

(** A method body: from the state before to what it produces and the
    state after. A raised exception keeps the state changes made so far,
    as in Python. *)
Definition M (A : Type) : Type := W -> result A * W.

Definition ret {A} (a : A) : M A := fun w => (Ok a, w).

Definition raise {A} (e : exn) : M A := fun w => (Raise e, w).

Definition bind {A B} (m : M A) (k : A -> M B) : M B :=
  fun w =>
    match m w with
    | (Ok a, w') => k a w'
    | (Raise e, w') => (Raise e, w')
    end.

(** [try: m except Exception as e: handler e]. *)
Definition try_except {A} (m : M A) (handler : exn -> M A) : M A :=
  fun w =>
    match m w with
    | (Ok a, w') => (Ok a, w')
    | (Raise e, w') => handler e w'
    end.

(** [try: m finally: cleanup]. *)
Definition try_finally {A} (m : M A) (cleanup : M unit) : M A :=
  fun w =>
    match m w with
    | (r, w') =>
        match cleanup w' with
        | (Ok _, w'') => (r, w'')
        | (Raise e, w'') => (Raise e, w'')
        end
    end.

Definition gets {A} (f : W -> A) : M A := fun w => (Ok (f w), w).

Definition modify (f : W -> W) : M unit := fun w => (Ok tt, f w).

(** A value that may be an exception, lifted. *)
Definition lift {A} (r : result A) : M A := fun w => (r, w).
End Monad.

Arguments ret {W A} a.
Arguments raise {W A} e.
Arguments bind {W A B} m k.
Arguments try_except {W A} m handler.
Arguments try_finally {W A} m cleanup.
Arguments gets {W A} f.
Arguments modify {W} f.
Arguments lift {W A} r.

Declare Scope eff_scope.
Delimit Scope eff_scope with eff.
Notation "x <- m ;; k" := (bind m (fun x => k))
  (at level 100, m at next level, right associativity) : eff_scope.
Notation "m ;; k" := (bind m (fun _ => k))
  (at level 100, right associativity) : eff_scope.

End Eff.
Export Eff.
Local Open Scope eff_scope.

(* ===================================================================== *)
(** * The operating system: clock, sleep, files *)
(* ===================================================================== *)

Module Sys.

(** A [datetime]: the wall-clock reading in microseconds, and the UTC
    offset when the value is timezone-aware ([tzinfo is not None]). *)
Record datetime := { wall : Z; tzinfo : option Z }.

Definition naive (t : Z) : datetime := {| wall := t; tzinfo := None |}.

(** [d.replace(tzinfo=None)]: the same wall-clock reading, no offset. *)
Definition replace_tzinfo_none (d : datetime) : datetime := naive (wall d).

(** [a > b]: between two naive values the readings are compared, between
    two aware ones the instants; mixing them raises [TypeError]. *)
Definition datetime_gt (a b : datetime) : result bool :=
  match tzinfo a, tzinfo b with
  | None, None => Ok (wall b <? wall a)%Z
  | Some oa, Some ob => Ok (wall b - ob <? wall a - oa)%Z
  | _, _ =>
      Raise (Exception (u "can't compare offset-naive and offset-aware datetimes"))
  end.

(** [d - timedelta(hours=h)]. *)
Definition minus_hours (d : datetime) (h : Z) : datetime :=
  {| wall := wall d - h * 3600000000; tzinfo := tzinfo d |}.

(** The calendar day of a value, as [strftime("%d-%b-%Y")] prints it: the
    number of whole days in the wall-clock reading. *)
Definition day_of (d : datetime) : Z := (wall d / 86400000000)%Z.

(** What the process asks of the operating system. [E] is the state of
    everything outside the process. *)
Class OS (E : Type) := {
  (** [datetime.now()]: the local wall-clock reading, in microseconds *)
  clock_read : E -> Z * E;
  (** [time.sleep(seconds)] *)
  time_sleep : Z -> E -> E;
  (** [open(path, 'w')]: may raise [OSError] *)
  open_w : str -> E -> result unit * E
}.

End Sys.
Export Sys.

(* ===================================================================== *)
(** * telegram_bot.py: class TelegramNotifier *)
(* ===================================================================== *)

Module Telegram.

(** A value under the [messages] key that is no list of strings: [null],
    or anything else (a number, a string, a list of numbers, ...). *)
Inductive foreign := JsonNull | JsonOther.

(** What [sent_messages.json] holds: an object with the [messages] key,
    when present, holding a list of strings, and [updated_at]; an object
    whose [messages] key holds something else; or something the [try]
    block of [_load_sent_messages] rejects (no JSON, or no object). *)
Inductive ledger_json :=
| LedgerJson (messages : option (list str)) (updated_at : datetime)
| LedgerForeign (messages : foreign)
| LedgerInvalid.


(** The Bot API and [hashlib]. *)
Class Api (E : Type) := {
  (** [await self.bot.send_message(chat_id, text, parse_mode,
      disable_notification)]: the id of the sent message, or a raised
      [TelegramError] or other exception *)
  bot_send_message : str -> str -> bool -> E -> result N * E;
  (** [hashlib.md5(data).hexdigest()] *)
  md5_hexdigest : bytes -> str
}.

Inductive event :=
| EvSendMessage (text : str) (disable_notification : bool).

Section Notifier.
Context {E : Type} {os : OS E} {api : Api E}.

(** A [TelegramNotifier] with the file it keeps. *)
Record notifier := {
  env : E;
  (** [self.sent_messages] *)
  sent_messages : list str;
  (** the content of [self.sent_messages_file]; [None]: no such file *)
  sent_messages_file : option ledger_json;
  (** the calls made to the Bot API, latest first *)
  calls : list event
}.

Definition set_env (e : E) (w : notifier) : notifier :=
  {| env := e; sent_messages := sent_messages w;
     sent_messages_file := sent_messages_file w; calls := calls w |}.
Definition set_sent_messages (l : list str) (w : notifier) : notifier :=
  {| env := env w; sent_messages := l;
     sent_messages_file := sent_messages_file w; calls := calls w |}.
Definition set_file (f : option ledger_json) (w : notifier) : notifier :=
  {| env := env w; sent_messages := sent_messages w;
     sent_messages_file := f; calls := calls w |}.
Definition log_call (ev : event) (w : notifier) : notifier :=
  {| env := env w; sent_messages := sent_messages w;
     sent_messages_file := sent_messages_file w; calls := ev :: calls w |}.

(** [datetime.now()] *)
Definition datetime_now : M notifier datetime :=
  fun w => let (t, e) := clock_read (env w) in (Ok (naive t), set_env e w).

(** [with open(path, 'w') as f: json.dump(data, f)] *)
Definition write_json (path : str) (data : ledger_json) : M notifier unit :=
  fun w =>
    match open_w path (env w) with
    | (Ok _, e) => (Ok tt, set_file (Some data) (set_env e w))
    | (Raise x, e) => (Raise x, set_env e w)
    end.

Definition send_api (text parse_mode : str) (silent : bool) : M notifier N :=
  fun w =>
    let (r, e) := bot_send_message text parse_mode silent (env w) in
    (r, log_call (EvSendMessage text silent) (set_env e w)).

Definition sent_messages_path : str := u "sent_messages.json".


(** [_save_sent_messages] *)
Definition _save_sent_messages : M notifier unit :=
  try_except
    (sent <- gets sent_messages ;;
     (if 100 <? length sent
      then modify (set_sent_messages (slice_last 100 sent))
      else ret tt) ;;
     sent' <- gets sent_messages ;;
     now <- datetime_now ;;
     write_json sent_messages_path (LedgerJson (Some sent') now))
    (fun _ => ret tt).

(** [_create_message_hash] *)
Definition _create_message_hash (message : str) : result str :=
  match encode_utf8 message with
  | Some data => Ok (slice_to 16 (md5_hexdigest data))
  | None => Raise (Exception (u "UnicodeEncodeError"))
  end.

(** [send_message]. The two handlers, [except TelegramError] and
    [except Exception], differ in what they log; both return [False]. *)
Definition send_message (message parse_mode : str)
    (disable_notification : bool) : M notifier bool :=
  try_except
    (message_hash <- lift (_create_message_hash message) ;;
     sent <- gets sent_messages ;;
     if existsb (str_eqb message_hash) sent then ret true
     else
       (_ <- send_api message parse_mode disable_notification ;;
        modify (fun w => set_sent_messages (sent_messages w ++ [message_hash]) w) ;;
        _save_sent_messages ;;
        ret true))
    (fun _ => ret false).

(** A caller sending one message after another, each with the default
    [parse_mode] and with sound. *)
Fixpoint send_all (messages : list str) : M notifier (list bool) :=
  match messages with
  | [] => ret []
  | m :: rest =>
      b <- send_message m (u "Markdown") false ;;
      bs <- send_all rest ;;
      ret (b :: bs)
  end.

End Notifier.

Arguments notifier E : clear implicits.

End Telegram.

(* ===================================================================== *)
(** * Library interfaces used by email_client.py and parser.py *)
(* ===================================================================== *)

Module Lib.

(** The Unicode character database behind [str.lower], [\w], [\d] and
    case-insensitive matching. *)
Class Unicode := {
  (** [s.lower()] *)
  str_lower : str -> str;
  (** [c.isalnum()]: with ['_'], what [\w] matches *)
  isalnum : char -> bool;
  (** the decimal digits, what [\d] matches *)
  isdecimal : char -> bool;
  (** do two characters match each other under [re.IGNORECASE] *)
  same_letter : char -> char -> bool
}.

(** A parsed message ([email.message.Message]): the headers the program
    reads, the content type as [get_content_type] gives it, and either the
    payload with its transfer encoding undone, or the sub-parts. *)
Record headers := {
  h_subject : option str;
  h_from : option str;
  h_date : option str;
  h_content_disposition : option str
}.

Inductive message :=
| Leaf (h : headers) (content_type : str) (payload : bytes)
| Multipart (h : headers) (content_type : str) (parts : list message).

(** One piece of a header as [decode_header] returns it. *)
Inductive fragment := FragBytes (b : bytes) | FragStr (s : str).

(** The [email] package and the codec registry. *)
Class Email := {
  (** [email.utils.parsedate_to_datetime] *)
  parsedate_to_datetime : str -> result datetime;
  (** [email.message_from_bytes] *)
  message_from_bytes : bytes -> message;
  (** [email.header.decode_header] *)
  decode_header : str -> result (list (fragment * option str));
  (** [data.decode(encoding)] for a charset named in a header *)
  codec_decode : str -> bytes -> result str
}.

(** What an IMAP [SEARCH] is asked: [(FROM "<sender>" SINCE <dd-Mon-yyyy>)].
    The date is kept as the day it names. *)
Record search_criteria := { crit_from : str; crit_since : Z }.

(** [imaplib]: one connection object is a number. Every call may raise;
    a call that returns gives the response type (['OK'], ['NO'], ...) and,
    where the program reads it, the first data item. *)
Class Imap (E : Type) := {
  (** [imaplib.IMAP4_SSL(server, port, ssl_context=context)] *)
  imap_open : str -> N -> E -> result N * E;
  (** [conn.login(login, password)] *)
  imap_login : N -> str -> str -> E -> result str * E;
  (** [conn.select(mailbox)] *)
  imap_select : N -> str -> E -> result str * E;
  (** [conn.noop()] *)
  imap_noop : N -> E -> result str * E;
  (** [conn.search(None, criteria)]: the message numbers of
      [message_ids[0]], already split and read as integers *)
  imap_search : N -> search_criteria -> E -> result (str * list N) * E;
  (** [conn.fetch(str(id), '(BODY[HEADER.FIELDS (DATE)])')]: the bytes
      [msg_data[0][1]], or [None] when [msg_data[0]] is empty *)
  imap_fetch_date : N -> N -> E -> result (str * option bytes) * E;
  (** [conn.fetch(str(id), '(RFC822)')]: the bytes [message_data[0][1]] *)
  imap_fetch_rfc822 : N -> N -> E -> result (str * option bytes) * E;
  (** [conn.close()] *)
  imap_close : N -> E -> result unit * E;
  (** [conn.logout()] *)
  imap_logout : N -> E -> result unit * E
}.

End Lib.
Export Lib.

(* ===================================================================== *)
(** * email_client.py: class EmailClient *)
(* ===================================================================== *)

Module EmailClient.

(** What the state file holds: [last_check_time] when the key is there
    with an ISO datetime ([None]: absent, empty, or not one), and
    [updated_at]; or something [json.load] rejects. *)
Inductive state_json :=
| StateJson (last_check_time : option datetime) (updated_at : datetime)
| StateInvalid.

(** The dictionary [get_email_content] builds and [parse_email] reads; a
    missing key is [None]. *)
Record email_data := {
  ed_id : option N;
  ed_subject : option str;
  ed_from : option str;
  ed_date : option str;
  ed_body : option str
}.

(** A call that leaves the process. *)
Inductive event :=
| EvOpen
| EvLogin (conn : N)
| EvSelect (conn : N) (mailbox : str)
| EvNoop (conn : N)
| EvSearch (conn : N) (criteria : search_criteria)
| EvFetchDate (conn : N) (email_id : N)
| EvFetchFull (conn : N) (email_id : N)
| EvClose (conn : N)
| EvLogout (conn : N)
| EvSleep (seconds : Z)
| EvWriteState.

(** The value of a local variable that is [""], [bytes] or [None]. *)
Inductive pyval := VStr (s : str) | VBytes (b : bytes) | VNone.

Definition OK : str := u "OK".

Section Client.
Context {E : Type} {os : OS E} {imap : Imap E} {uni : Unicode} {lib : Email}.

(** An [EmailClient] with the file it keeps. *)
Record client := {
  env : E;
  server : str;
  port : N;
  login : str;
  password : str;
  (** the path [self.state_file] *)
  state_file : str;
  (** [self.connection] *)
  connection : option N;
  (** the content of the state file; [None]: no such file *)
  state_file_content : option state_json;
  (** the calls that left the process, latest first *)
  calls : list event
}.

Definition set_env (e : E) (w : client) : client :=
  {| env := e; server := server w; port := port w; login := login w;
     password := password w; state_file := state_file w;
     connection := connection w;
     state_file_content := state_file_content w; calls := calls w |}.
Definition set_connection (c : option N) (w : client) : client :=
  {| env := env w; server := server w; port := port w; login := login w;
     password := password w; state_file := state_file w;
     connection := c;
     state_file_content := state_file_content w; calls := calls w |}.
Definition set_state_file_content (f : option state_json) (w : client)
    : client :=
  {| env := env w; server := server w; port := port w; login := login w;
     password := password w; state_file := state_file w;
     connection := connection w;
     state_file_content := f; calls := calls w |}.
Definition log_call (ev : event) (w : client) : client :=
  {| env := env w; server := server w; port := port w; login := login w;
     password := password w; state_file := state_file w;
     connection := connection w;
     state_file_content := state_file_content w; calls := ev :: calls w |}.

(** A call to the outside, recorded. *)
Definition call {A} (ev : event) (op : E -> result A * E) : M client A :=
  fun w => let (r, e) := op (env w) in (r, log_call ev (set_env e w)).

(** A method call on [self.connection]: [AttributeError] when it is
    [None]. *)
Definition on_connection {A} (f : N -> M client A) : M client A :=
  c <- gets connection ;;
  match c with
  | Some c => f c
  | None => raise (Exception (u "'NoneType' object has no attribute"))
  end.

(** [datetime.now()] *)
Definition datetime_now : M client datetime :=
  fun w => let (t, e) := clock_read (env w) in (Ok (naive t), set_env e w).

(** [time.sleep(seconds)] *)
Definition sleep (seconds : Z) : M client unit :=
  fun w => (Ok tt, log_call (EvSleep seconds) (set_env (time_sleep seconds (env w)) w)).

(** [with open(self.state_file, 'w') as f: json.dump(state_data, f)] *)
Definition write_state (data : state_json) : M client unit :=
  fun w =>
    match open_w (state_file w) (env w) with
    | (Ok _, e) =>
        (Ok tt, log_call EvWriteState
                  (set_state_file_content (Some data) (set_env e w)))
    | (Raise x, e) => (Raise x, set_env e w)
    end.

(** [connect] *)
Definition connect : M client bool :=
  try_except
    (w <- gets (fun w => w) ;;
     c <- call EvOpen (imap_open (server w) (port w)) ;;
     modify (set_connection (Some c)) ;;
     result <- call (EvLogin c) (imap_login c (login w) (password w)) ;;
     if str_eqb result OK then ret true else ret false)
    (fun _ => ret false).

(** [load_last_check_time] *)
Definition load_last_check_time : M client (option datetime) :=
  try_except
    (f <- gets state_file_content ;;
     match f with
     | Some (StateJson (Some last_check) _) => ret (Some last_check)
     | Some (StateJson None _) => ret None
     | Some StateInvalid => raise (Exception (u "JSONDecodeError"))
     | None => ret None
     end)
    (fun _ => ret None).

(** [save_last_check_time] *)
Definition save_last_check_time (check_time : option datetime)
    : M client unit :=
  try_except
    (check_time <- match check_time with
                   | None => datetime_now
                   | Some t => ret t
                   end ;;
     updated_at <- datetime_now ;;
     write_state (StateJson (Some check_time) updated_at))
    (fun _ => ret tt).

(** [select_mailbox] *)
Definition select_mailbox (mailbox : str) : M client bool :=
  try_except
    (result <- on_connection (fun c =>
                 call (EvSelect c mailbox) (imap_select c mailbox)) ;;
     if str_eqb result OK then ret true else ret false)
    (fun _ => ret false).

(** The loop over [header.split('\n')] in [_get_email_date]: the first
    line that starts with [date:] decides. *)
Fixpoint date_of_header_lines (lines : list str) : option datetime :=
  match lines with
  | [] => None
  | line :: rest =>
      if startswith (str_lower line) (u "date:") then
        let date_str := strip (slice_from 5 line) in
        match parsedate_to_datetime date_str with
        | Ok email_date => Some (replace_tzinfo_none email_date)
        | Raise _ => None
        end
      else date_of_header_lines rest
  end.

(** [_get_email_date] *)
Definition _get_email_date (email_id : N) : M client (option datetime) :=
  try_except
    (r <- on_connection (fun c =>
            call (EvFetchDate c email_id) (imap_fetch_date c email_id)) ;;
     match r with
     | (result, Some data) =>
         if negb (str_eqb result OK) then ret None
         else
           match decode_utf8 Ignore data with
           | Some header => ret (date_of_header_lines (split_on 10%N header))
           | None => ret None
           end
     | (_, None) => ret None
     end)
    (fun _ => ret None).

(** The loop [for email_id in all_ids] of [search_new_emails_from_sender]. *)
Fixpoint keep_newer (last_check : datetime) (all_ids : list N)
    : M client (list N) :=
  match all_ids with
  | [] => ret []
  | email_id :: rest =>
      email_date <- _get_email_date email_id ;;
      keep <- match email_date with
              | Some d => lift (datetime_gt d last_check)
              | None => ret false
              end ;;
      new_ids <- keep_newer last_check rest ;;
      ret (if keep then email_id :: new_ids else new_ids)
  end.

(** [search_new_emails_from_sender] *)
Definition search_new_emails_from_sender (sender_email : str)
    : M client (list N) :=
  try_except
    (last_check <- load_last_check_time ;;
     since_date <- match last_check with
                   | None =>
                       now <- datetime_now ;;
                       ret (day_of (minus_hours now 24))
                   | Some t => ret (day_of t)
                   end ;;
     let search_criteria :=
       {| crit_from := sender_email; crit_since := since_date |} in
     r <- on_connection (fun c =>
            call (EvSearch c search_criteria) (imap_search c search_criteria)) ;;
     let (result, all_ids) := r in
     if negb (str_eqb result OK) then ret []
     else
       match all_ids with
       | [] => ret []
       | _ :: _ =>
           match last_check with
           | Some t => keep_newer t all_ids
           | None => ret all_ids
           end
       end)
    (fun _ => ret []).

(** [_decode_mime_words] *)
Fixpoint decode_fragments (fragments : list (fragment * option str))
    : result str :=
  match fragments with
  | [] => Ok []
  | (frag, encoding) :: rest =>
      let piece :=
        match frag, encoding with
        | FragBytes b, Some enc => codec_decode enc b
        | FragBytes b, None =>
            match decode_utf8 Strict b with
            | Some s => Ok s
            | None => Raise (Exception (u "UnicodeDecodeError"))
            end
        | FragStr s, _ => Ok s
        end in
      match piece with
      | Ok s =>
          match decode_fragments rest with
          | Ok t => Ok (s ++ t)
          | Raise e => Raise e
          end
      | Raise e => Raise e
      end
  end.

Definition _decode_mime_words (text : str) : str :=
  match decode_header text with
  | Ok decoded_fragments =>
      match decode_fragments decoded_fragments with
      | Ok decoded_text => decoded_text
      | Raise _ => text
      end
  | Raise _ => text
  end.

Definition msg_headers (m : message) : headers :=
  match m with Leaf h _ _ => h | Multipart h _ _ => h end.

(** [part.get_content_type()] *)
Definition get_content_type (m : message) : str :=
  match m with Leaf _ t _ => t | Multipart _ t _ => t end.

(** [part.get_payload(decode=True)]: [None] for a multipart. *)
Definition get_payload_decoded (m : message) : pyval :=
  match m with Leaf _ _ b => VBytes b | Multipart _ _ _ => VNone end.

(** [str(part.get("Content-Disposition"))] *)
Definition content_disposition (m : message) : str :=
  match h_content_disposition (msg_headers m) with
  | Some v => v
  | None => u "None"
  end.

(** [email_message.walk()]: the message, then its parts, depth first. *)
Fixpoint walk (m : message) : list message :=
  match m with
  | Leaf _ _ _ => [m]
  | Multipart _ _ parts => m :: flat_map walk parts
  end.

(** [not body] *)
Definition is_empty (v : pyval) : bool :=
  match v with
  | VStr [] | VBytes [] | VNone => true
  | _ => false
  end.

(** The loop [for part in email_message.walk()] of [_extract_body]. *)
Fixpoint scan_parts (parts : list message) (body : pyval) : pyval :=
  match parts with
  | [] => body
  | part :: rest =>
      let content_type := get_content_type part in
      let disposition := content_disposition part in
      if str_eqb content_type (u "text/plain")
         && negb (contains disposition (u "attachment"))
      then get_payload_decoded part
      else if str_eqb content_type (u "text/html")
              && negb (contains disposition (u "attachment"))
              && is_empty body
      then scan_parts rest (get_payload_decoded part)
      else scan_parts rest body
  end.

(** The three decoding attempts of [_extract_body]. *)
Definition decode_body (body : bytes) : str :=
  match decode_utf8 Strict body with
  | Some s => s
  | None =>
      match decode_cp1251 body with
      | Some s => s
      | None =>
          match decode_utf8 Ignore body with
          | Some s => s
          | None => []
          end
      end
  end.

(** [_extract_body] *)
Definition _extract_body (email_message : message) : str :=
  let body :=
    match email_message with
    | Multipart _ _ _ => scan_parts (walk email_message) (VStr [])
    | Leaf _ _ _ => get_payload_decoded email_message
    end in
  match body with
  | VBytes b => strip (decode_body b)
  | VStr s => strip s
  | VNone => []
  end.

Definition header_or_empty (h : option str) : str :=
  match h with Some v => v | None => [] end.

(** [get_email_content] *)
Definition get_email_content (email_id : N) : M client (option email_data) :=
  try_except
    (r <- on_connection (fun c =>
            call (EvFetchFull c email_id) (imap_fetch_rfc822 c email_id)) ;;
     let (result, data) := r in
     if negb (str_eqb result OK) then ret None
     else
       match data with
       | None => raise (Exception (u "'NoneType' object is not subscriptable"))
       | Some raw_email =>
           let email_message := message_from_bytes raw_email in
           let h := msg_headers email_message in
           ret (Some
             {| ed_id := Some email_id;
                ed_subject := Some (_decode_mime_words (header_or_empty (h_subject h)));
                ed_from := Some (_decode_mime_words (header_or_empty (h_from h)));
                ed_date := Some (header_or_empty (h_date h));
                ed_body := Some (_extract_body email_message) |})
       end)
    (fun _ => ret None).

(** [_disconnect_internal] *)
Definition _disconnect_internal : M client unit :=
  c <- gets connection ;;
  match c with
  | Some c =>
      try_finally
        (try_except
           (call (EvClose c) (imap_close c) ;;
            call (EvLogout c) (imap_logout c))
           (fun _ => ret tt))
        (modify (set_connection None))
  | None => ret tt
  end.

(** [self.connect() and self.select_mailbox()] *)
Definition connect_and_select : M client bool :=
  connected <- connect ;;
  if connected then select_mailbox (u "INBOX") else ret false.

(** [_ensure_connection] *)
Definition _ensure_connection : M client bool :=
  try_except
    (c <- gets connection ;;
     match c with
     | None => connect_and_select
     | Some c =>
         alive <- try_except
                    (result <- call (EvNoop c) (imap_noop c) ;;
                     ret (str_eqb result OK))
                    (fun _ => ret false) ;;
         if alive then ret true
         else (_disconnect_internal ;; connect_and_select)
     end)
    (fun _ => ret false).

(** The loop [for email_id in new_email_ids] of
    [get_new_emails_from_sender]. *)
Fixpoint fetch_contents (get_content : N -> M client (option email_data))
    (new_email_ids : list N) : M client (list email_data) :=
  match new_email_ids with
  | [] => ret []
  | email_id :: rest =>
      email_data <- get_content email_id ;;
      emails <- fetch_contents get_content rest ;;
      ret (match email_data with
           | Some d => d :: emails
           | None => emails
           end)
  end.

(** How one pass through the [for attempt in range(retry_count)] loop of
    [get_new_emails_from_sender] ends. *)
Inductive step :=
| Return (emails : list email_data)
| Continue
| Break.

(** Which [return] of [get_new_emails_from_sender] gave the list: one of
    the two inside the [try], or the last line. *)
Inductive fetched :=
| FromTry (emails : list email_data)
| AfterLoop.

Definition returned (r : fetched) : list email_data :=
  match r with FromTry emails => emails | AfterLoop => [] end.

(** The signatures of a connection error. *)
Definition connection_signatures : list str :=
  [u "broken pipe"; u "connection"; u "socket"; u "timeout"].

(** [any(err in error_msg for err in [...])] on [str(e).lower()]. *)
Definition is_connection_error (e : exn) : bool :=
  contains_any (str_lower (description e)) connection_signatures.

Section Retry.
(** The methods of [self] the [try] block calls. *)
Variable ensure_connection : M client bool.
Variable search_new : str -> M client (list N).
Variable get_content : N -> M client (option email_data).
Variable save_state : M client unit.

(** The body of the [try] block; [None] is [continue]. *)
Definition try_block (sender_email : str) (update_state : bool)
    : M client (option (list email_data)) :=
  connected <- ensure_connection ;;
  if negb connected then ret None
  else
    new_email_ids <- search_new sender_email ;;
    match new_email_ids with
    | [] =>
        (if update_state then save_state else ret tt) ;;
        ret (Some [])
    | _ :: _ =>
        emails <- fetch_contents get_content new_email_ids ;;
        (if update_state then save_state else ret tt) ;;
        ret (Some emails)
    end.

(** The [except Exception as e] block. *)
Definition except_block (retry_count : Z) (attempt : Z) (e : exn)
    : M client step :=
  if is_connection_error e then
    _disconnect_internal ;;
    (if (attempt <? retry_count - 1)%Z then sleep 5 else ret tt) ;;
    ret Continue
  else ret Break.

(** One pass of the loop. *)
Definition attempt_once (sender_email : str) (update_state : bool)
    (retry_count attempt : Z) : M client step :=
  try_except
    (r <- try_block sender_email update_state ;;
     ret (match r with Some emails => Return emails | None => Continue end))
    (except_block retry_count attempt).

(** [for attempt in range(retry_count)], from [attempt] on, with
    [remaining] passes left; then the last line. *)
Fixpoint attempts (sender_email : str) (update_state : bool)
    (retry_count : Z) (remaining : nat) (attempt : Z) : M client fetched :=
  match remaining with
  | O => ret AfterLoop
  | S remaining' =>
      s <- attempt_once sender_email update_state retry_count attempt ;;
      match s with
      | Return emails => ret (FromTry emails)
      | Continue =>
          attempts sender_email update_state retry_count remaining'
            (attempt + 1)
      | Break => ret AfterLoop
      end
  end.

Definition retry_loop (sender_email : str) (update_state : bool)
    (retry_count : Z) : M client fetched :=
  attempts sender_email update_state retry_count (Z.to_nat retry_count) 0.
End Retry.

(** [get_new_emails_from_sender], with the [return] taken. *)
Definition get_new_emails (sender_email : str) (update_state : bool)
    (retry_count : Z) : M client fetched :=
  retry_loop _ensure_connection search_new_emails_from_sender
    get_email_content (save_last_check_time None)
    sender_email update_state retry_count.

(** [get_new_emails_from_sender] *)
Definition get_new_emails_from_sender (sender_email : str)
    (update_state : bool) (retry_count : Z) : M client (list email_data) :=
  r <- get_new_emails sender_email update_state retry_count ;;
  ret (returned r).

End Client.

Arguments client E : clear implicits.

End EmailClient.

(* ===================================================================== *)
(** * The regular expressions of parser.py *)
(* ===================================================================== *)

Module Re.

(** An element of a bracketed set. *)
Inductive item :=
| IChar (c : char)
| IRange (lo hi : char)
| ISpace
| IWord
| IDigit.

(** The patterns the parser is written with. *)
Inductive regex :=
| Empty
| Char (c : char)
| Any
| Class (negated : bool) (items : list item)
| Seq (r1 r2 : regex)
| Alt (r1 r2 : regex)
| Repeat (r : regex) (min : nat) (max : option nat) (greedy : bool)
| Group (n : nat) (r : regex)
| Bol
| Eol
| Never.

(** ** Reading a pattern *)

(** The code point of an ASCII character. *)
Definition ch (a : ascii) : char := N_of_ascii a.

Definition is_ch (a : ascii) (c : char) : bool := (c =? ch a)%N.

Definition digit_value (c : char) : option nat :=
  if ((48 <=? c) && (c <=? 57))%N then Some (N.to_nat (c - 48)) else None.

Fixpoint read_number (s : str) (acc : nat) : nat * str :=
  match s with
  | c :: s' =>
      match digit_value c with
      | Some d => read_number s' (10 * acc + d)
      | None => (acc, s)
      end
  | [] => (acc, s)
  end.

(** [\s], [\w], [\d]; any other escaped character stands for itself. *)
Definition escape_item (c : char) : item :=
  if is_ch "s" c then ISpace
  else if is_ch "w" c then IWord
  else if is_ch "d" c then IDigit
  else IChar c.

Definition add_item (it : item) (r : option (list item * str))
    : option (list item * str) :=
  match r with
  | Some (items, rest) => Some (it :: items, rest)
  | None => None
  end.

(** The inside of [[...]], up to the closing bracket. *)
Fixpoint read_items (s : str) : option (list item * str) :=
  match s with
  | [] => None
  | c :: s1 =>
      if is_ch "]" c then Some ([], s1)
      else if is_ch "\" c then
        match s1 with
        | x :: s2 => add_item (escape_item x) (read_items s2)
        | [] => None
        end
      else
        match s1 with
        | d :: s2 =>
            if is_ch "-" d then
              match s2 with
              | hi :: s3 =>
                  if is_ch "]" hi then add_item (IChar c) (read_items s1)
                  else add_item (IRange c hi) (read_items s3)
              | [] => None
              end
            else add_item (IChar c) (read_items s1)
        | [] => None
        end
  end.

(** A quantifier after an atom: [*], [+], [?], [{m}], [{m,n}], each lazy
    when a [?] follows. *)
Definition read_lazy (a : regex) (min : nat) (max : option nat) (s : str)
    : regex * str :=
  match s with
  | c :: s' =>
      if is_ch "?" c then (Repeat a min max false, s')
      else (Repeat a min max true, s)
  | [] => (Repeat a min max true, s)
  end.

Definition read_quantifier (a : regex) (s : str) : regex * str :=
  match s with
  | c :: s1 =>
      if is_ch "*" c then read_lazy a 0 None s1
      else if is_ch "+" c then read_lazy a 1 None s1
      else if is_ch "?" c then read_lazy a 0 (Some 1) s1
      else if is_ch "{" c then
        let (m, s2) := read_number s1 0 in
        match s2 with
        | d :: s3 =>
            if is_ch "}" d then read_lazy a m (Some m) s3
            else if is_ch "," d then
              let (n, s4) := read_number s3 0 in
              match s4 with
              | e :: s5 =>
                  if is_ch "}" e then read_lazy a m (Some n) s5 else (a, s)
              | [] => (a, s)
              end
            else (a, s)
        | [] => (a, s)
        end
      else (a, s)
  | [] => (a, s)
  end.

(** [r)], the end of a group. *)
Definition close_group (wrap : regex -> regex)
    (r : option (regex * str * nat)) : option (regex * str * nat) :=
  match r with
  | Some (body, c :: s, n) =>
      if is_ch ")" c then Some (wrap body, s, n) else None
  | _ => None
  end.

(** Alternatives, sequences and atoms; [n] numbers the capturing groups in
    the order they open. *)
Fixpoint read_alt (fuel : nat) (s : str) (n : nat)
    : option (regex * str * nat) :=
  match fuel with
  | O => None
  | S fuel' =>
      match read_seq fuel' s n with
      | Some (r1, c :: s1, n1) =>
          if is_ch "|" c then
            match read_alt fuel' s1 n1 with
            | Some (r2, s2, n2) => Some (Alt r1 r2, s2, n2)
            | None => None
            end
          else Some (r1, c :: s1, n1)
      | other => other
      end
  end
with read_seq (fuel : nat) (s : str) (n : nat)
    : option (regex * str * nat) :=
  match fuel with
  | O => None
  | S fuel' =>
      match s with
      | [] => Some (Empty, s, n)
      | c :: _ =>
          if is_ch ")" c || is_ch "|" c then Some (Empty, s, n)
          else
            match read_atom fuel' s n with
            | Some (a, s1, n1) =>
                let (q, s2) := read_quantifier a s1 in
                match read_seq fuel' s2 n1 with
                | Some (Empty, s3, n3) => Some (q, s3, n3)
                | Some (r, s3, n3) => Some (Seq q r, s3, n3)
                | None => None
                end
            | None => None
            end
      end
  end
with read_atom (fuel : nat) (s : str) (n : nat)
    : option (regex * str * nat) :=
  match fuel with
  | O => None
  | S fuel' =>
      match s with
      | [] => None
      | c :: s1 =>
          if is_ch "(" c then
            match s1 with
            | q :: colon :: s2 =>
                if is_ch "?" q && is_ch ":" colon
                then close_group (fun r => r) (read_alt fuel' s2 n)
                else close_group (Group (S n)) (read_alt fuel' s1 (S n))
            | _ => close_group (Group (S n)) (read_alt fuel' s1 (S n))
            end
          else if is_ch "[" c then
            match s1 with
            | neg :: s2 =>
                if is_ch "^" neg then
                  match read_items s2 with
                  | Some (items, s3) => Some (Class true items, s3, n)
                  | None => None
                  end
                else
                  match read_items s1 with
                  | Some (items, s3) => Some (Class false items, s3, n)
                  | None => None
                  end
            | [] => None
            end
          else if is_ch "\" c then
            match s1 with
            | x :: s2 =>
                match escape_item x with
                | IChar x' => Some (Char x', s2, n)
                | it => Some (Class false [it], s2, n)
                end
            | [] => None
            end
          else if is_ch "." c then Some (Any, s1, n)
          else if is_ch "^" c then Some (Bol, s1, n)
          else if is_ch "$" c then Some (Eol, s1, n)
          else Some (Char c, s1, n)
      end
  end.

(** [re.compile(pattern)] for a pattern written as in the source. *)
Definition compile (pattern : string) : regex :=
  let p := u pattern in
  match read_alt (3 * length p + 3) p 0 with
  | Some (r, [], _) => r
  | _ => Never
  end.

(** ** Matching *)

Record flags := { ignorecase : bool; dotall : bool }.

Definition no_flags : flags := {| ignorecase := false; dotall := false |}.
Definition IGNORECASE : flags := {| ignorecase := true; dotall := false |}.
Definition IGNORECASE_DOTALL : flags := {| ignorecase := true; dotall := true |}.

(** Where a match stands: the position, the text from there on, and the
    groups captured so far (latest first). *)
Record state := { pos : nat; rest : str; groups : list (nat * str) }.

Section Engine.
Context {uni : Unicode}.
Variable fl : flags.

Definition item_has (it : item) (c : char) : bool :=
  match it with
  | IChar x => (x =? c)%N
  | IRange lo hi => ((lo <=? c) && (c <=? hi))%N
  | ISpace => isspace c
  | IWord => isalnum c || (c =? 95)%N
  | IDigit => isdecimal c
  end.

(** With [IGNORECASE] a character is in a set when it, or a letter that
    differs from it only in case, is. *)
Definition in_items (items : list item) (c : char) : bool :=
  existsb (fun it =>
    item_has it c ||
    (ignorecase fl &&
     match it with
     | IChar x => same_letter x c
     | IRange lo hi =>
         existsb (fun x => same_letter x c)
           (map (fun k => (lo + N.of_nat k)%N) (seq 0 (N.to_nat (hi + 1 - lo))))
     | _ => false
     end)) items.

Definition char_matches (x c : char) : bool :=
  (x =? c)%N || (ignorecase fl && same_letter x c).

Definition consume (ok : char -> bool) (st : state) : list state :=
  match rest st with
  | c :: s' =>
      if ok c
      then [{| pos := S (pos st); rest := s'; groups := groups st |}]
      else []
  | [] => []
  end.

(** Repetition: each pass must move forward; [greedy] tries one more
    pass before stopping, lazy stops before trying one more. *)
Fixpoint repeat (step : state -> list state) (fuel : nat) (min : nat)
    (max : option nat) (greedy : bool) (st : state) : list state :=
  let stop := if (min =? 0)%nat then [st] else [] in
  match fuel with
  | O => stop
  | S fuel' =>
      let more :=
        match max with
        | Some O => []
        | _ =>
            flat_map (fun st' =>
              if (pos st' =? pos st)%nat then []
              else repeat step fuel' (Nat.pred min) (option_map Nat.pred max)
                     greedy st') (step st)
        end in
      if greedy then more ++ stop else stop ++ more
  end.

(** All the ways [r] matches at [st], the one the backtracking matcher
    finds first at the head. *)
Fixpoint matches (r : regex) (st : state) : list state :=
  match r with
  | Empty => [st]
  | Never => []
  | Char x => consume (char_matches x) st
  | Any => consume (fun c => dotall fl || negb (c =? 10)%N) st
  | Class negated items =>
      consume (fun c => xorb negated (in_items items c)) st
  | Seq r1 r2 => flat_map (matches r2) (matches r1 st)
  | Alt r1 r2 => matches r1 st ++ matches r2 st
  | Repeat r1 min max greedy =>
      repeat (matches r1) (S (length (rest st))) min max greedy st
  | Group n r1 =>
      map (fun st' =>
             {| pos := pos st'; rest := rest st';
                groups := (n, firstn (pos st' - pos st) (rest st)) :: groups st' |})
          (matches r1 st)
  | Bol => if (pos st =? 0)%nat then [st] else []
  | Eol =>
      match rest st with
      | [] => [st]
      | c :: s' =>
          if (c =? 10)%N && (length s' =? 0)%nat then [st] else []
      end
  end.

(** The first match starting at the position of [st] or later. The
    result is the position where it starts, and where it ends. *)
Fixpoint search_from (r : regex) (fuel : nat) (st : state)
    : option (nat * state) :=
  match matches r st with
  | found :: _ => Some (pos st, found)
  | [] =>
      match fuel, rest st with
      | S fuel', _ :: s' =>
          search_from r fuel' {| pos := S (pos st); rest := s'; groups := [] |}
      | _, _ => None
      end
  end.

Definition start_of (text : str) : state :=
  {| pos := 0; rest := text; groups := [] |}.

(** [re.search(pattern, text, flags)] *)
Definition search (r : regex) (text : str) : option (nat * state) :=
  search_from r (length text) (start_of text).

(** [match.group(n)]; [None] when the group took no part. *)
Definition group (n : nat) (m : nat * state) : option str :=
  match find (fun g => (fst g =? n)%nat) (groups (snd m)) with
  | Some g => Some (snd g)
  | None => None
  end.

(** [re.sub(pattern, repl, text, flags)], for patterns that match no
    empty string: every match, left to right, is replaced. *)
Fixpoint sub_from (r : regex) (repl : str) (fuel : nat) (st : state) : str :=
  match fuel with
  | O => rest st
  | S fuel' =>
      match matches r st, rest st with
      | found :: _, c :: s' =>
          if (pos found =? pos st)%nat
          then c :: sub_from r repl fuel'
                      {| pos := S (pos st); rest := s'; groups := [] |}
          else repl ++ sub_from r repl fuel'
                         {| pos := pos found; rest := rest found; groups := [] |}
      | [], c :: s' =>
          c :: sub_from r repl fuel'
                 {| pos := S (pos st); rest := s'; groups := [] |}
      | _, [] => []
      end
  end.

Definition sub (r : regex) (repl text : str) : str :=
  sub_from r repl (S (length text)) (start_of text).
End Engine.

End Re.

(* ===================================================================== *)
(** * parser.py: class EmailParser *)
(* ===================================================================== *)

Module Parser.
Import EmailClient Re.

(** The dictionary [parse_email] returns. *)
Record parsed_data := {
  original_subject : str;
  original_body : str;
  email_date : str;
  email_from : str;
  operator : option str;
  start_time : option str;
  end_time : option str;
  work_type : option str;
  description : str;
  parsed_at : datetime
}.

(** What a loop over patterns comes to: a value returned, nothing found,
    or an exception (a match whose group is [None]). *)
Inductive scan := Found (s : str) | NotFound | Failed.

Section Extraction.
Context {uni : Unicode}.

(** [self.patterns['start_time']] *)
Definition start_time_patterns : list regex :=
  [ compile "[Нн]ачало работ[:\s]*\*?\*?\s*(\d{1,2}\.\d{1,2}\.\d{4}\s+\d{1,2}:\d{2})";
    compile "[Нн]ачало[:\s]*\*?\*?\s*(\d{1,2}\.\d{1,2}\.\d{4}\s+\d{1,2}:\d{2})";
    compile "[Сс]\s*(\d{1,2}\.\d{1,2}\.\d{4}\s+\d{1,2}:\d{2})" ].

(** [self.patterns['end_time']] *)
Definition end_time_patterns : list regex :=
  [ compile "[Оо]кончание работ[:\s]*\*?\*?\s*(\d{1,2}\.\d{1,2}\.\d{4}\s+\d{1,2}:\d{2})";
    compile "[Оо]кончание[:\s]*\*?\*?\s*(\d{1,2}\.\d{1,2}\.\d{4}\s+\d{1,2}:\d{2})";
    compile "[Пп]о\s*(\d{1,2}\.\d{1,2}\.\d{4}\s+\d{1,2}:\d{2})" ].

(** [operator_patterns] of [_extract_operator] *)
Definition operator_patterns : list regex :=
  [ compile "оператор\s+([А-Яа-я\w\s]+?)(?:\s+сообщил|$)";
    compile "оператора\s+([А-Яа-я\w\s]+?)(?:\s|$|\.)";
    compile "стороне оператора\s+([А-Яа-я\w\s]+?)(?:\s|$|\.)";
    compile "платформе\s+(Devino\s+Telecom)";
    compile "платформы\s+(DEVINO)";
    compile "работы на стороне оператора\s+([А-Яа-я\w\s]+?)(?:\s|$)";
    compile "работы на платформе\s+([А-Яа-я\w\s]+?)(?:\s|$)" ].

Definition known_operators : list str :=
  [ u "Билайн"; u "МТС"; u "Мегафон"; u "Теле2"; u "Yota"; u "Мотив";
    u "Devino Telecom" ].

(** The loop [for pattern in operator_patterns]. *)
Fixpoint operator_by_pattern (patterns : list regex) (text : str) : scan :=
  match patterns with
  | [] => NotFound
  | pattern :: rest =>
      match search IGNORECASE pattern text with
      | Some m =>
          match group 1 m with
          | Some g =>
              let operator := strip g in
              let operator := strip (sub no_flags (compile "[^\w\s]") [] operator) in
              match operator with
              | _ :: _ =>
                  if contains (str_lower operator) (u "devino")
                  then Found (u "Devino Telecom")
                  else Found operator
              | [] => operator_by_pattern rest text
              end
          | None => Failed
          end
      | None => operator_by_pattern rest text
      end
  end.

(** [_extract_operator] *)
Definition _extract_operator (text : str) : option str :=
  match operator_by_pattern operator_patterns text with
  | Found operator => Some operator
  | Failed => None
  | NotFound =>
      let text_lower := str_lower text in
      find (fun operator => contains text_lower (str_lower operator))
        known_operators
  end.

(** The loop [for pattern in ...: match = re.search(...); if match:
    return match.group(1).strip()]. *)
Fixpoint first_group (patterns : list regex) (text : str) : scan :=
  match patterns with
  | [] => NotFound
  | pattern :: rest =>
      match search IGNORECASE pattern text with
      | Some m =>
          match group 1 m with
          | Some g => Found (strip g)
          | None => Failed
          end
      | None => first_group rest text
      end
  end.

Definition found (s : scan) : option str :=
  match s with Found v => Some v | _ => None end.

(** [_extract_start_time] *)
Definition _extract_start_time (text : str) : option str :=
  found (first_group start_time_patterns text).

(** [_extract_end_time] *)
Definition _extract_end_time (text : str) : option str :=
  found (first_group end_time_patterns text).

Definition work_indicators : list str :=
  [ u "работы"; u "работ"; u "обслуживание"; u "техническ" ].

(** [specific_patterns] of [_extract_work_type] *)
Definition specific_patterns : list regex :=
  [ compile "([Вв]неплановые\s+работы[^.]*)";
    compile "([Пп]лановые\s+работы[^.]*)";
    compile "([Аа]варийные\s+работы[^.]*)";
    compile "([Пп]рофилактические\s+работы[^.]*)";
    compile "([Тт]ехнические\s+работы[^.]*)" ].

(** [clean_subject] of [_extract_work_type]: the subject without a
    leading [Re:]. *)
Definition clean_subject (current_subject : str) : str :=
  let subject := strip current_subject in
  strip (sub no_flags (compile "^\s*[Rr][Ee]:\s*") [] subject).

(** The search in the text, when the subject does not decide. *)
Definition work_type_from_text (text : str) : option str :=
  match first_group specific_patterns text with
  | Found work_type => Some work_type
  | Failed => None
  | NotFound =>
      let text_lower := str_lower text in
      if contains text_lower (u "внеплановые") then Some (u "Внеплановые работы")
      else if contains text_lower (u "плановые") then Some (u "Плановые работы")
      else if contains text_lower (u "аварийные") then Some (u "Аварийные работы")
      else if contains text_lower (u "профилактические")
      then Some (u "Профилактические работы")
      else if contains text_lower (u "технических работ")
      then Some (u "Технические работы")
      else None
  end.

(** [_extract_work_type]; [current_subject] is [self._current_subject],
    [None] when the attribute is not set. *)
Definition _extract_work_type (current_subject : option str) (text : str)
    : option str :=
  match current_subject with
  | Some (c :: s) =>
      let cleaned := clean_subject (c :: s) in
      if contains_any (str_lower cleaned) work_indicators
      then Some cleaned
      else work_type_from_text text
  | _ => work_type_from_text text
  end.

(** [unwanted_patterns] of [_extract_description] *)
Definition unwanted_patterns : list regex :=
  [ compile "Copyright.*?rights reserved";
    compile "Обратная связь";
    compile "Отписаться от рассылки";
    compile "Открыть в браузере";
    compile "Информационная рассылка";
    compile "\+7\s*\(\d+\)\s*\d+-\d+-\d+";
    compile "Бесплатная линия.*?России" ].

(** [s[:300] + "..."] when [s] is longer than 300. *)
Definition shorten (s : str) : str :=
  if 300 <? length s then slice_to 300 s ++ u "..." else s.

(** [_extract_description] *)
Definition _extract_description (body : str) : str :=
  let clean_body := sub no_flags (compile "<[^>]+>") [] body in
  let clean_body := strip (sub no_flags (compile "\s+") (u " ") clean_body) in
  let clean_body :=
    fold_left (fun text pattern => sub IGNORECASE pattern [] text)
      unwanted_patterns clean_body in
  let clean_body := strip (sub no_flags (compile "\s+") (u " ") clean_body) in
  match search IGNORECASE_DOTALL
          (compile "(Уважаемые клиенты.*?)(?:Техническая поддержка|Copyright|\+7|$)")
          clean_body with
  | Some m =>
      match group 1 m with
      | Some g => shorten (strip g)
      | None => u "Ошибка обработки описания"
      end
  | None =>
      match shorten clean_body with
      | [] => u "Описание недоступно"
      | d => d
      end
  end.

Definition get_or_empty (v : option str) : str :=
  match v with Some s => s | None => [] end.

(** [parse_email]; [now] is what [datetime.now()] reads. *)
Definition parse_email (now : datetime) (email_data : email_data)
    : option parsed_data :=
  let subject := get_or_empty (ed_subject email_data) in
  let body := get_or_empty (ed_body email_data) in
  let current_subject := Some subject in
  let full_text := subject ++ [10%N] ++ body in
  let parsed :=
    {| original_subject := subject;
       original_body := body;
       email_date := get_or_empty (ed_date email_data);
       email_from := get_or_empty (ed_from email_data);
       operator := _extract_operator full_text;
       start_time := _extract_start_time full_text;
       end_time := _extract_end_time full_text;
       work_type := _extract_work_type current_subject full_text;
       description := _extract_description body;
       parsed_at := now |} in
  if truthy (operator parsed) || truthy (start_time parsed)
     || truthy (end_time parsed)
  then Some parsed
  else None.
End Extraction.

End Parser.

(* ===================================================================== *)
(** * A character table for worked examples *)
(* ===================================================================== *)

Module Tables.

(** The lower-case form of a letter of the Basic Latin block or of the
    Cyrillic block U+0400..U+045F; other characters map to themselves. *)
Definition lower_char (c : char) : char :=
  if ((65 <=? c) && (c <=? 90))%N then (c + 32)%N
  else if ((1040 <=? c) && (c <=? 1071))%N then (c + 32)%N
  else if ((1024 <=? c) && (c <=? 1039))%N then (c + 80)%N
  else c.

(** The character database restricted to Basic Latin and Cyrillic text:
    what Python answers on the characters of these two blocks. *)
Definition latin_cyrillic : Unicode :=
  {| str_lower := map lower_char;
     isalnum := fun c =>
       ((48 <=? c) && (c <=? 57) || (65 <=? c) && (c <=? 90) ||
        (97 <=? c) && (c <=? 122) || (1024 <=? c) && (c <=? 1153))%N;
     isdecimal := fun c => ((48 <=? c) && (c <=? 57))%N;
     same_letter := fun x c => (lower_char x =? lower_char c)%N |}.

End Tables.
(* ===================================================================== *)
(** * A simulated outside, for worked examples *)
(* ===================================================================== *)

Module Sim.
Import Re EmailClient.

(** ** Reading an RFC 2822 date *)

Definition number (s : str) : Z := Z.of_nat (fst (read_number s 0)).

Definition month_names : list str :=
  map u ["Jan"; "Feb"; "Mar"; "Apr"; "May"; "Jun";
         "Jul"; "Aug"; "Sep"; "Oct"; "Nov"; "Dec"]%string.

Fixpoint index_of (x : str) (l : list str) (k : Z) : option Z :=
  match l with
  | [] => None
  | y :: l' => if str_eqb x y then Some k else index_of x l' (k + 1)
  end.

Definition is_leap (y : Z) : bool :=
  ((y mod 4 =? 0) && (negb (y mod 100 =? 0) || (y mod 400 =? 0)))%Z.

Definition days_before_year (y : Z) : Z :=
  ((y - 1) * 365 + (y - 1) / 4 - (y - 1) / 100 + (y - 1) / 400)%Z.

Definition days_before_month (y m : Z) : Z :=
  (nth (Z.to_nat (m - 1)) [0; 31; 59; 90; 120; 151; 181; 212; 243; 273; 304; 334] 0
   + (if (2 <? m) && is_leap y then 1 else 0))%Z.

(** The wall-clock reading of a civil date and time: microseconds since
    0001-01-01 00:00. *)
Definition civil (y m d hh mm ss : Z) : Z :=
  (((days_before_year y + days_before_month y m + d - 1) * 86400
    + hh * 3600 + mm * 60 + ss) * 1000000)%Z.

Definition rfc2822 : regex :=
  compile "(\d{1,2}) (\w{3}) (\d{4}) (\d{2}):(\d{2}):(\d{2}) ([+-])(\d{2})(\d{2})".

(** What [parsedate_to_datetime] gives on dates written
    [[Www, ]D Mon YYYY HH:MM:SS +ZZZZ]; anything else raises. *)
Definition sim_parsedate (uni : Unicode) (s : str) : result datetime :=
  let bad := Raise (Exception (u "Invalid date value or format")) in
  match search no_flags rfc2822 s with
  | Some m =>
      match group 1 m, group 2 m, group 3 m, group 4 m, group 5 m,
            group 6 m, group 7 m, group 8 m, group 9 m with
      | Some d, Some mon, Some y, Some hh, Some mm, Some ss,
        Some sign, Some zh, Some zm =>
          match index_of mon month_names 1 with
          | Some mo =>
              let offset := ((number zh * 60 + number zm) * 60000000)%Z in
              Ok {| wall := civil (number y) mo (number d)
                              (number hh) (number mm) (number ss);
                    tzinfo := Some (if str_eqb sign (u "-")
                                    then (- offset)%Z else offset) |}
          | None => bad
          end
      | _, _, _, _, _, _, _, _, _ => bad
      end
  | None => bad
  end.

(** The [email] package, cut down: dates as above; a message is read as
    one [text/plain] part without headers; headers are plain text. *)
Definition sim_email (uni : Unicode) : Email :=
  {| parsedate_to_datetime := sim_parsedate uni;
     message_from_bytes := fun raw =>
       Leaf {| h_subject := None; h_from := None; h_date := None;
               h_content_disposition := None |} (u "text/plain") raw;
     decode_header := fun text => Ok [(FragStr text, None)];
     codec_decode := fun _ b =>
       match decode_utf8 Strict b with
       | Some s => Ok s
       | None => Raise (Exception (u "UnicodeDecodeError"))
       end |}.

(** ** A mailbox behind a server *)

Record letter := {
  l_id : N;
  l_from : str;
  (** the day of the internal date *)
  l_day : Z;
  (** the answer to [BODY[HEADER.FIELDS (DATE)]] *)
  l_date_header : str;
  l_raw : bytes
}.

(** The outside: the clock and the mailbox. *)
Record outside := { o_clock : Z; o_mail : list letter }.

(** Every call takes one microsecond. *)
Definition tick (e : outside) : outside :=
  {| o_clock := o_clock e + 1; o_mail := o_mail e |}.

Definition sim_os : OS outside :=
  {| clock_read := fun e => (o_clock e, tick e);
     time_sleep := fun s e =>
       {| o_clock := o_clock e + Z.max 0 s * 1000000; o_mail := o_mail e |};
     open_w := fun _ e => (Ok tt, tick e) |}.

Definition refused : exn := Exception (u "[Errno 111] Connection refused").

Definition bytes_of (s : str) : bytes :=
  match encode_utf8 s with Some b => b | None => [] end.

Definition letter_with (i : N) (e : outside) : option letter :=
  find (fun l => (l_id l =? i)%N) (o_mail e).

(** How the server fares. *)
Inductive weather :=
| Up            (** every command is answered *)
| Down          (** every call raises: the connection is refused *)
| SearchBroken  (** the connection drops on [SEARCH]; the rest answers *).

Definition dropped : exn := Exception (u "socket error: EOF").

Definition answer {A} (up : bool) (failure : exn) (a : outside -> A)
    (e : outside) : result A * outside :=
  (if up then Ok (a e) else Raise failure, tick e).

Definition is_up (sky : weather) : bool :=
  match sky with Down => false | _ => true end.

(** [SEARCH] gives the letters whose sender contains the [FROM] text and
    whose internal date is on the [SINCE] day or later. *)
Definition sim_imap (sky : weather) : Imap outside :=
  let ask {A} (a : outside -> A) := answer (is_up sky) refused a in
  {| imap_open := fun _ _ => ask (fun _ => 1%N);
     imap_login := fun _ _ _ => ask (fun _ => OK);
     imap_select := fun _ _ => ask (fun _ => OK);
     imap_noop := fun _ => ask (fun _ => OK);
     imap_search := fun _ q =>
       answer (match sky with Up => true | _ => false end)
         (match sky with Down => refused | _ => dropped end)
         (fun e =>
            (OK, map l_id (filter (fun l => contains (l_from l) (crit_from q)
                                            && (crit_since q <=? l_day l)%Z)
                                  (o_mail e))));
     imap_fetch_date := fun _ i => ask (fun e =>
       (OK, option_map (fun l => bytes_of (l_date_header l)) (letter_with i e)));
     imap_fetch_rfc822 := fun _ i => ask (fun e =>
       (OK, option_map l_raw (letter_with i e)));
     imap_close := fun _ => ask (fun _ => tt);
     imap_logout := fun _ => ask (fun _ => tt) |}.

(** A client of [imap.example.org], connected or not. *)
Definition sim_client (e : outside) (conn : option N)
    (file : option state_json) : client outside :=
  {| env := e; server := u "imap.example.org"; port := 993%N;
     login := u "bot"; password := u "secret";
     state_file := u "bot_state.json"; connection := conn;
     state_file_content := file; calls := [] |}.

End Sim.

(* ===================================================================== *)
(** * More of the library: [strftime], [timedelta] *)
(* ===================================================================== *)

Module Calendar.

(** [d.strftime(format)] *)
Class Strftime := { strftime : datetime -> str -> str }.

(** The range of a [datetime], the wall-clock reading being counted from
    0001-01-01 00:00, which is [datetime.min]; [datetime.max] is
    9999-12-31 23:59:59.999999. *)
Definition max_wall : Z := 315537897599999999.

(** [timedelta(days=n)], in microseconds: [OverflowError] beyond
    999999999 days. *)
Definition timedelta_days (n : Z) : result Z :=
  if (Z.abs n <=? 999999999)%Z then Ok (n * 86400000000)%Z
  else Raise (Exception (u "days must have magnitude <= 999999999")).

(** [d - delta]: [OverflowError] outside [datetime.min .. datetime.max]. *)
Definition datetime_minus (d : datetime) (delta : Z) : result datetime :=
  let t := (wall d - delta)%Z in
  if ((0 <=? t) && (t <=? max_wall))%Z
  then Ok {| wall := t; tzinfo := tzinfo d |}
  else Raise (Exception (u "date value out of range")).

End Calendar.
Export Calendar.

(* ===================================================================== *)
(** * email_client.py: the methods kept for compatibility, [disconnect] *)
(* ===================================================================== *)

Module Mailbox.
Import EmailClient.

Section Client.
Context {E : Type} {os : OS E} {imap : Imap E}.

(** [disconnect]: unlike [_disconnect_internal], it leaves
    [self.connection] as it is. *)
Definition disconnect : M (client E) unit :=
  c <- gets (@connection E) ;;
  match c with
  | Some c =>
      try_except
        (call (EvClose c) (imap_close c) ;;
         call (EvLogout c) (imap_logout c))
        (fun _ => ret tt)
  | None => ret tt
  end.

(** [search_emails_from_sender] *)
Definition search_emails_from_sender (sender_email : str) (days_back : Z)
    : M (client E) (list N) :=
  try_except
    (now <- datetime_now ;;
     delta <- lift (timedelta_days days_back) ;;
     since <- lift (datetime_minus now delta) ;;
     let search_criteria :=
       {| crit_from := sender_email; crit_since := day_of since |} in
     r <- on_connection (fun c =>
            call (EvSearch c search_criteria) (imap_search c search_criteria)) ;;
     let (result, email_ids) := r in
     if str_eqb result OK then
       match email_ids with
       | _ :: _ => ret email_ids
       | [] => ret []
       end
     else ret [])
    (fun _ => ret []).

End Client.

End Mailbox.

(* ===================================================================== *)
(** * parser.py: what is a maintenance notice, and how it is reported *)
(* ===================================================================== *)

Module Notice.
Import EmailClient Parser.

(** [sep.join(parts)] *)
Fixpoint join (sep : str) (parts : list str) : str :=
  match parts with
  | [] => []
  | [p] => p
  | p :: rest => p ++ sep ++ join sep rest
  end.

(** [f"{v}"] for an [Optional[str]]. *)
Definition show (v : option str) : str :=
  match v with
  | Some s => s
  | None => u "None"
  end.

(** [d.get(key, default)] on a dictionary with [str] keys. *)
Fixpoint dict_get (d : list (str * str)) (key : str) (default : str) : str :=
  match d with
  | [] => default
  | (k, v) :: d' => if str_eqb k key then v else dict_get d' key default
  end.

(** [emoji_map] of [format_for_telegram] *)
Definition emoji_map : list (str * str) :=
  [ (u "Мотив", u "📱");
    (u "Билайн", u "🟡");
    (u "МТС", u "🔴");
    (u "Мегафон", u "🟢");
    (u "Теле2", u "⚫");
    (u "Yota", u "🟣");
    (u "Devino Telecom", u "💻");
    (u "Devino", u "💻");
    (u "DEVINO", u "💻") ].

(** [keywords] of [is_maintenance_email] *)
Definition keywords : list str :=
  [ u "технических работ";
    u "профилактических работ";
    u "плановые работы";
    u "внеплановые работы";
    u "аварийные работы";
    u "начало работ";
    u "окончание работ";
    u "техническое обслуживание";
    u "затруднения в доставке";
    u "временные неполадки" ].

Section Formatting.
Context {uni : Unicode} {cal : Strftime}.

(** [is_maintenance_email] *)
Definition is_maintenance_email (email_data : email_data) : bool :=
  let subject := str_lower (get_or_empty (ed_subject email_data)) in
  let body := str_lower (get_or_empty (ed_body email_data)) in
  let full_text := subject ++ u " " ++ body in
  contains_any full_text keywords.

(** Is the description worth showing:
    [description and len(description) > 50 and 'ошибка' not in
    description.lower()]. *)
Definition informative (description : str) : bool :=
  match description with
  | [] => false
  | _ :: _ =>
      (50 <? length description)
      && negb (contains (str_lower description) (u "ошибка"))
  end.

(** The lines of the message, before the time of the notification. *)
Definition message_parts (parsed_data : parsed_data) : list str :=
  let operator := operator parsed_data in
  let work_type := work_type parsed_data in
  let emoji :=
    match operator with
    | Some o => dict_get emoji_map o (u "📡")
    | None => u "📡"
    end in
  let message_parts :=
    [ emoji ++ u " *" ++ show operator ++ u "*";
      u "🚧 *" ++ show work_type ++ u "*";
      [] ] in
  let message_parts :=
    match start_time parsed_data with
    | Some (c :: s) => message_parts ++ [u "⏰ *Начало:* " ++ (c :: s)]
    | _ => message_parts
    end in
  let message_parts :=
    match end_time parsed_data with
    | Some (c :: s) => message_parts ++ [u "⏱ *Окончание:* " ++ (c :: s)]
    | _ => message_parts
    end in
  let description := description parsed_data in
  if informative description
  then message_parts ++ [[]; u "📝 *Описание:*"; description]
  else message_parts.

(** [format_for_telegram], on a dictionary that has every key, as the
    ones [parse_email] builds; [now] is what [datetime.now()] reads. With
    such a dictionary nothing in the [try] block raises. *)
Definition format_for_telegram (now : datetime) (parsed_data : parsed_data)
    : str :=
  join [10%N]
    (message_parts parsed_data
     ++ [ [];
          u "📬 _" ++ strftime now (u "%d.%m.%Y %H:%M") ++ u "_" ]).

End Formatting.

End Notice.

(* ===================================================================== *)
(** * telegram_bot.py: the notifications of [TelegramNotifier] *)
(* ===================================================================== *)

Module Notify.
Import Telegram Parser Notice.

Section Notifier.
Context {E : Type} {os : OS E} {api : Api E} {uni : Unicode} {cal : Strftime}.

(** [ParseMode.MARKDOWN] *)
Definition MARKDOWN : str := u "Markdown".

(** [send_maintenance_notification] *)
Definition send_maintenance_notification (parsed_data : parsed_data)
    : M (notifier E) bool :=
  try_except
    (now <- datetime_now ;;
     let formatted_message := format_for_telegram now parsed_data in
     send_message formatted_message MARKDOWN false)
    (fun _ => ret false).

(** [test_message] of [send_test_message] *)
Definition test_message (now : datetime) : str :=
  join [10%N]
    [ u "🤖 *Тест Email-Telegram бота*";
      [];
      u "✅ Подключение к почте: OK";
      u "✅ Парсинг писем: OK";
      u "✅ Подключение к Telegram: OK";
      [];
      u "🕒 Время теста: " ++ strftime now (u "%d.%m.%Y %H:%M:%S");
      [];
      u "_Бот готов к работе!_" ].

(** [send_test_message] *)
Definition send_test_message : M (notifier E) bool :=
  now <- datetime_now ;;
  send_message (test_message now) MARKDOWN false.

(** [error_msg] of [send_error_notification] *)
Definition error_msg (error_message : str) (now : datetime) : str :=
  join [10%N]
    [ u "⚠️ *Ошибка в работе бота*";
      [];
      u "🚨 " ++ error_message;
      [];
      u "🕒 " ++ strftime now (u "%d.%m.%Y %H:%M:%S");
      [];
      u "_Проверьте логи для подробной информации_" ].

(** [send_error_notification] *)
Definition send_error_notification (error_message : str)
    : M (notifier E) bool :=
  now <- datetime_now ;;
  send_message (error_msg error_message now) MARKDOWN true.

End Notifier.

End Notify.

(* ===================================================================== *)
(** * main.py: [EmailTelegramBot._process_new_emails] *)
(* ===================================================================== *)

Module Bot.
Import EmailClient Parser Notice.

(** [self.stats] *)
Record stats := {
  emails_processed : Z;
  notifications_sent : Z;
  errors : Z;
  started_at : datetime
}.

(** The list of [_process_new_emails] (main.py:245). *)
Definition connection_signatures : list str :=
  [u "broken pipe"; u "connection"; u "socket"; u "timeout"].

Section Process.
Context {uni : Unicode}.

(** The mail client, the Telegram bot and everything outside. *)
Variable W : Type.

(** The bot: its counters, the sender it watches, and the rest. *)
Record bot := {
  stats_of : stats;
  (** [self.config['email_sender']] *)
  email_sender : str;
  world : W
}.

(** [self.email_client.get_new_emails_from_sender] *)
Variable get_new_emails_from_sender : str -> bool -> Z -> M W (list email_data).
(** [self.telegram_bot.send_maintenance_notification] *)
Variable send_maintenance_notification : parsed_data -> M W bool.
(** [datetime.now()], which [parse_email] reads *)
Variable datetime_now : M W datetime.

Definition set_stats (s : stats) (b : bot) : bot :=
  {| stats_of := s; email_sender := email_sender b; world := world b |}.

(** A call of one of the components. *)
Definition on_world {A} (m : M W A) : M bot A :=
  fun b =>
    let (r, w) := m (world b) in
    (r, {| stats_of := stats_of b; email_sender := email_sender b; world := w |}).

(** [self.stats['emails_processed'] += 1] *)
Definition count_processed : M bot unit :=
  modify (fun b =>
    let s := stats_of b in
    set_stats {| emails_processed := emails_processed s + 1;
                 notifications_sent := notifications_sent s;
                 errors := errors s; started_at := started_at s |} b).

(** [self.stats['notifications_sent'] += 1] *)
Definition count_sent : M bot unit :=
  modify (fun b =>
    let s := stats_of b in
    set_stats {| emails_processed := emails_processed s;
                 notifications_sent := notifications_sent s + 1;
                 errors := errors s; started_at := started_at s |} b).

(** [self.stats['errors'] += 1] *)
Definition count_error : M bot unit :=
  modify (fun b =>
    let s := stats_of b in
    set_stats {| emails_processed := emails_processed s;
                 notifications_sent := notifications_sent s;
                 errors := errors s + 1; started_at := started_at s |} b).

(** One pass of [for email_data in new_emails]: from [processed_count]
    before to [processed_count] after. [email_data['subject']] raises
    [KeyError] when the key is missing. Nothing raises once
    [processed_count] has changed, so the handler sees the value the pass
    started with. *)
Definition process_one (email_data : email_data) (processed_count : Z)
    : M bot Z :=
  try_except
    (match ed_subject email_data with
     | Some _ => ret tt
     | None => raise (Exception (u "'subject'"))
     end ;;
     if negb (is_maintenance_email email_data) then ret processed_count
     else
       now <- on_world datetime_now ;;
       match parse_email now email_data with
       | None => ret processed_count
       | Some parsed_data =>
           sent <- on_world (send_maintenance_notification parsed_data) ;;
           processed_count <-
             (if sent
              then (count_sent ;; ret (processed_count + 1)%Z)
              else (count_error ;; ret processed_count)) ;;
           count_processed ;;
           ret processed_count
       end)
    (fun _ => count_error ;; ret processed_count).

Fixpoint process_all (new_emails : list email_data) (processed_count : Z)
    : M bot Z :=
  match new_emails with
  | [] => ret processed_count
  | email_data :: rest =>
      processed_count <- process_one email_data processed_count ;;
      process_all rest processed_count
  end.

(** [_process_new_emails] *)
Definition _process_new_emails : M bot Z :=
  try_except
    (sender <- gets email_sender ;;
     new_emails <- on_world (get_new_emails_from_sender sender true 3) ;;
     match new_emails with
     | [] => ret 0%Z
     | _ :: _ => process_all new_emails 0
     end)
    (fun e =>
       (if contains_any (str_lower (Py.description e)) connection_signatures
        then ret tt
        else count_error) ;;
       ret 0%Z).

End Process.

End Bot.

(* ===================================================================== *)
(** * Properties *)
(* ===================================================================== *)

Unset Implicit Arguments.

Module TelegramFacts.
Import Telegram.

Lemma str_eqb_true (a b : str) : str_eqb a b = true <-> a = b.
Proof.
  unfold str_eqb. destruct (list_eq_dec N.eq_dec a b); split; congruence.
Qed.

Lemma existsb_str_eqb (h : str) (l : list str) :
  existsb (str_eqb h) l = true <-> In h l.
Proof.
  rewrite existsb_exists. split.
  - intros [x [Hin Heq]]. apply str_eqb_true in Heq. now subst.
  - intros Hin. exists h. split; [assumption | now apply str_eqb_true].
Qed.

Lemma existsb_str_eqb_false (h : str) (l : list str) :
  ~ In h l -> existsb (str_eqb h) l = false.
Proof.
  intros Hn. destruct (existsb (str_eqb h) l) eqn:Hex; [|reflexivity].
  apply existsb_str_eqb in Hex. contradiction.
Qed.

(** What [_save_sent_messages] leaves in [self.sent_messages]. *)
Definition capped (l : list str) : list str :=
  if 100 <? length l then slice_last 100 l else l.

Lemma capped_length l : length (capped l) <= 100.
Proof.
  unfold capped, slice_last.
  destruct (Nat.ltb_spec 100 (length l)); [rewrite length_skipn|]; lia.
Qed.

Lemma capped_In l x : In x (capped l) -> In x l.
Proof.
  unfold capped, slice_last. destruct (100 <? length l); [|easy].
  intros H. rewrite <- (firstn_skipn (length l - 100) l).
  apply in_or_app. now right.
Qed.

Lemma capped_app l x : capped (capped l ++ x) = capped (l ++ x).
Proof.
  unfold capped at 2. destruct (Nat.ltb_spec 100 (length l)) as [Hl|Hl]; [|reflexivity].
  unfold capped, slice_last.
  rewrite !length_app, length_skipn.
  destruct x as [|a x].
  - rewrite !app_nil_r. simpl.
    replace (length l - (length l - 100) + 0) with 100 by lia.
    replace (length l + 0) with (length l) by lia.
    destruct (Nat.ltb_spec 100 100); [lia|].
    destruct (Nat.ltb_spec 100 (length l)); [|lia]. reflexivity.
  - destruct (Nat.ltb_spec 100 (length l - (length l - 100) + length (a :: x))) as [H1|H1];
      [|simpl in H1; lia].
    destruct (Nat.ltb_spec 100 (length l + length (a :: x))) as [H2|H2]; [|lia].
    rewrite !skipn_app, length_skipn, skipn_skipn.
    f_equal.
    + f_equal. lia.
    + f_equal. lia.
Qed.

(** The ledger after the hashes [hs] were appended one by one, each append
    followed by a save. *)
Definition appended (l hs : list str) : list str :=
  fold_left (fun acc h => capped (acc ++ [h])) hs l.

Lemma appended_capped hs : forall l,
  hs <> [] -> appended l hs = capped (l ++ hs).
Proof.
  induction hs as [|h hs IH]; intros l Hne; [congruence|].
  unfold appended. simpl. fold (appended (capped (l ++ [h])) hs).
  destruct hs as [|h' hs].
  - reflexivity.
  - rewrite IH by discriminate. rewrite capped_app, <- app_assoc. reflexivity.
Qed.

Lemma capped_101 l hs :
  length hs = 101 -> capped (l ++ hs) = skipn 1 hs.
Proof.
  intros Hlen. unfold capped, slice_last. rewrite length_app, Hlen.
  destruct (Nat.ltb_spec 100 (length l + 101)); [|lia].
  rewrite skipn_app.
  replace (length l + 101 - 100) with (length l + 1) by lia.
  rewrite skipn_all2 by lia.
  replace (length l + 1 - length l) with 1 by lia. reflexivity.
Qed.

Section Facts.
Context {E : Type} {os : OS E} {api : Api E}.

(** The Bot API accepts every message. *)
Definition api_accepts : Prop :=
  forall text parse_mode silent e,
    exists id e', bot_send_message text parse_mode silent e = (Ok id, e').

(** The ledger file can always be opened for writing. *)
Definition disk_writable : Prop :=
  forall path e, exists e', open_w path e = (Ok tt, e').

Lemma save_never_raises (w : notifier E) :
  exists w', _save_sent_messages w = (Ok tt, w')
             /\ sent_messages w' = capped (sent_messages w)
             /\ calls w' = calls w
             /\ (sent_messages_file w' = sent_messages_file w
                 \/ exists t, sent_messages_file w'
                              = Some (LedgerJson (Some (sent_messages w')) t)).
Proof.
  unfold _save_sent_messages, try_except, bind, gets, capped.
  destruct (100 <? length (sent_messages w)) eqn:Hlen;
    unfold modify, ret, datetime_now; simpl;
    destruct (clock_read (env w)) as [t e1]; simpl;
    unfold write_json; simpl;
    destruct (open_w sent_messages_path e1) as [[[]|x] e2]; simpl;
    eexists; (split; [reflexivity|]); simpl; rewrite ?Hlen; repeat split; eauto.
Qed.

Lemma save_writes (w : notifier E) :
  disk_writable ->
  exists w' t, _save_sent_messages w = (Ok tt, w')
             /\ sent_messages w' = capped (sent_messages w)
             /\ calls w' = calls w
             /\ sent_messages_file w' = Some (LedgerJson (Some (sent_messages w')) t).
Proof.
  intros Hdisk.
  unfold _save_sent_messages, try_except, bind, gets, capped.
  destruct (100 <? length (sent_messages w)) eqn:Hlen;
    unfold modify, ret, datetime_now; simpl;
    destruct (clock_read (env w)) as [t e1]; simpl;
    unfold write_json; simpl;
    destruct (Hdisk sent_messages_path e1) as [e2 ->]; simpl;
    do 2 eexists; (split; [reflexivity|]); simpl; rewrite ?Hlen; repeat split; eauto.
Qed.

Lemma send_new (w : notifier E) message parse_mode silent h :
  api_accepts -> disk_writable ->
  _create_message_hash message = Ok h ->
  ~ In h (sent_messages w) ->
  exists w' t, send_message message parse_mode silent w = (Ok true, w')
    /\ sent_messages w' = capped (sent_messages w ++ [h])
    /\ calls w' = EvSendMessage message silent :: calls w
    /\ sent_messages_file w' = Some (LedgerJson (Some (sent_messages w')) t).
Proof.
  intros Hapi Hdisk Hh Hnew.
  unfold send_message, try_except, bind at 1, lift. rewrite Hh.
  unfold bind at 1, gets. rewrite (existsb_str_eqb_false _ _ Hnew).
  unfold bind at 1, send_api.
  destruct (Hapi message parse_mode silent (env w)) as [id [e1 ->]].
  unfold bind, modify.
  match goal with |- context [_save_sent_messages ?w1] =>
    destruct (save_writes w1 Hdisk) as [w' [t [Hs [Hl [Hc Hf]]]]] end.
  rewrite Hs. unfold ret.
  exists w', t. repeat split; assumption.
Qed.

Lemma send_all_new (ms hs : list str) : forall (w : notifier E),
  api_accepts -> disk_writable ->
  Forall2 (fun m h => _create_message_hash m = Ok h) ms hs ->
  NoDup hs ->
  (forall h, In h hs -> ~ In h (sent_messages w)) ->
  exists w', send_all ms w = (Ok (map (fun _ => true) ms), w')
    /\ sent_messages w' = appended (sent_messages w) hs
    /\ calls w' = rev (map (fun m => EvSendMessage m false) ms) ++ calls w
    /\ (ms <> [] -> exists t,
          sent_messages_file w' = Some (LedgerJson (Some (sent_messages w')) t)).
Proof.
  intros w Hapi Hdisk Hall. revert w.
  induction Hall as [|m h ms hs Hh Hall IH]; intros w Hnd Hfresh.
  - exists w. repeat split; try reflexivity. congruence.
  - inversion Hnd as [|? ? Hnotin Hnd']; subst.
    destruct (send_new w m (u "Markdown") false h Hapi Hdisk Hh
                (Hfresh h (or_introl eq_refl))) as [w1 [t1 [Hs1 [Hl1 [Hc1 Hf1]]]]].
    destruct (IH w1 Hnd') as [w2 [Hs2 [Hl2 [Hc2 Hf2]]]].
    { intros x Hx Hin. rewrite Hl1 in Hin. apply capped_In in Hin.
      apply in_app_or in Hin. destruct Hin as [Hin|[->|[]]].
      - apply (Hfresh x (or_intror Hx) Hin).
      - contradiction. }
    exists w2. simpl. unfold bind. rewrite Hs1, Hs2. unfold ret.
    repeat split.
    + rewrite Hl2, Hl1. reflexivity.
    + rewrite Hc2, Hc1, <- app_assoc. reflexivity.
    + intros _. destruct ms as [|m' ms'].
      * inversion Hall; subst. simpl in Hs2. unfold ret in Hs2.
        injection Hs2 as <-. eauto.
      * apply Hf2. discriminate.
Qed.

(** C9. After any save the ledger holds at most 100 entries, and the
    ledger file is as before (it could not be written) or holds those
    entries; and after
    101 sends of messages with distinct hashes, none of them in the
    ledger before, all accepted by the Bot API and all saved, the ledger
    in memory and the one on disk hold exactly the hashes of the last
    100 messages sent, in the order they were sent: the oldest is gone. *)
Theorem ledger_cap (w : notifier E) (messages hashes : list str) :
  api_accepts -> disk_writable ->
  map _create_message_hash messages = map Ok hashes ->
  NoDup hashes ->
  (forall h, In h hashes -> ~ In h (sent_messages w)) ->
  length messages = 101 ->
  (forall w0, exists w1, _save_sent_messages w0 = (Ok tt, w1)
                         /\ length (sent_messages w1) <= 100
                         /\ (sent_messages_file w1 = sent_messages_file w0
                             \/ exists t, sent_messages_file w1
                                  = Some (LedgerJson (Some (sent_messages w1)) t)))
  /\ exists w' t,
       send_all messages w = (Ok (map (fun _ => true) messages), w')
       /\ calls w' = rev (map (fun m => EvSendMessage m false) messages) ++ calls w
       /\ sent_messages w' = skipn 1 hashes
       /\ length (sent_messages w') = 100
       /\ sent_messages_file w' = Some (LedgerJson (Some (skipn 1 hashes)) t).
Proof.
  intros Hapi Hdisk Hmap Hnd Hfresh Hlen. split.
  - intros w0. destruct (save_never_raises w0) as [w1 [Hs [Hl [_ Hfile]]]].
    exists w1. split; [assumption|]. split; [|exact Hfile].
    rewrite Hl. apply capped_length.
  - assert (Hall : Forall2 (fun m h => _create_message_hash m = Ok h) messages hashes).
    { clear -Hmap. revert hashes Hmap.
      induction messages as [|m ms IH]; intros [|h hs] Hmap; try discriminate.
      - constructor.
      - injection Hmap as Hm Hrest. constructor; auto. }
    assert (Hlen' : length hashes = 101).
    { rewrite <- Hlen. symmetry. eapply Forall2_length; eassumption. }
    destruct (send_all_new messages hashes w Hapi Hdisk Hall Hnd Hfresh)
      as [w' [Hs [Hl [Hc Hf]]]].
    destruct Hf as [t Hf]; [destruct messages; discriminate|].
    assert (Hfinal : sent_messages w' = skipn 1 hashes).
    { rewrite Hl, appended_capped by (destruct hashes; discriminate).
      apply capped_101. assumption. }
    exists w', t. repeat split; try assumption.
    + rewrite Hfinal, length_skipn. lia.
    + rewrite Hf, Hfinal. reflexivity.
Qed.

(** C10. A message whose hash is already in the ledger is reported as
    sent: [send_message] returns [True] and leaves everything as it was,
    with no call to the Bot API and no change to the ledger in memory or
    on disk. *)
Theorem duplicate_is_reported_sent (w : notifier E)
    (message parse_mode : str) (silent : bool) (h : str) :
  _create_message_hash message = Ok h ->
  In h (sent_messages w) ->
  send_message message parse_mode silent w = (Ok true, w).
Proof.
  intros Hh Hin.
  unfold send_message, try_except, bind, lift, gets. rewrite Hh.
  apply existsb_str_eqb in Hin. rewrite Hin. reflexivity.
Qed.

End Facts.

(** A simulated outside: the state is the clock; every call succeeds and
    takes one tick. The digest of a message is its first bytes. *)
Definition sim_os : OS Z :=
  {| clock_read := fun t => (t, (t + 1)%Z);
     time_sleep := fun s t => (t + s * 1000000)%Z;
     open_w := fun _ t => (Ok tt, (t + 1)%Z) |}.

Definition sim_api : Api Z :=
  {| bot_send_message := fun _ _ _ t => (Ok 1%N, (t + 1)%Z);
     md5_hexdigest := map Byte.to_N |}.

Definition sim_start (ledger : list str) : notifier Z :=
  {| env := 0%Z; sent_messages := ledger; sent_messages_file := None;
     calls := [] |}.

(** 101 one-letter messages. *)
Definition sim_messages : list str :=
  map (fun k => [N.of_nat k]) (seq 0 101).

Lemma ledger_cap_witness :
  exists w' t,
    send_all (os := sim_os) (api := sim_api) sim_messages (sim_start [[200%N]])
      = (Ok (map (fun _ => true) sim_messages), w')
    /\ sent_messages w' = skipn 1 sim_messages
    /\ sent_messages_file w' = Some (LedgerJson (Some (skipn 1 sim_messages)) t).
Proof.
  destruct (@ledger_cap Z sim_os sim_api (sim_start [[200%N]]) sim_messages sim_messages)
    as [_ [w' [t [Hs [_ [Hl [_ Hf]]]]]]].
  - intros text pm s e. do 2 eexists. reflexivity.
  - intros path e. eexists. reflexivity.
  - vm_compute. reflexivity.
  - assert (H : nodup (list_eq_dec N.eq_dec) sim_messages = sim_messages)
      by (vm_compute; reflexivity).
    rewrite <- H. apply NoDup_nodup.
  - intros h Hin [Heq|[]]. subst h. revert Hin. vm_compute. intuition discriminate.
  - reflexivity.
  - exists w', t. repeat split; assumption.
Defined.

Lemma duplicate_is_reported_sent_witness :
  send_message (os := sim_os) (api := sim_api) (u "hello") (u "Markdown") false
    (sim_start [u "other"; u "hello"])
  = (Ok true, sim_start [u "other"; u "hello"]).
Proof.
  apply (@duplicate_is_reported_sent Z sim_os sim_api
           (sim_start [u "other"; u "hello"]) (u "hello") (u "Markdown") false (u "hello")).
  - vm_compute. reflexivity.
  - vm_compute. right. left. reflexivity.
Defined.

End TelegramFacts.

Module EmailClientFacts.
Import EmailClient.

Section Facts.
Context {E : Type} {os : OS E} {imap : Imap E} {uni : Unicode} {lib : Email}.


(** A method that returns whatever state it starts from. *)
Definition total {A} (m : M (client E) A) : Prop :=
  forall w, exists a w', m w = (Ok a, w').

Lemma total_try_except {A} (m : M (client E) A) (a : A) :
  total (try_except m (fun _ => ret a)).
Proof.
  intros w. unfold try_except, ret. destruct (m w) as [[x|e] w']; eauto.
Qed.

Lemma connect_total : total connect.
Proof. apply total_try_except. Qed.
Lemma select_mailbox_total mailbox : total (select_mailbox mailbox).
Proof. apply total_try_except. Qed.
Lemma load_last_check_time_total : total load_last_check_time.
Proof. apply total_try_except. Qed.
Lemma save_last_check_time_total t : total (save_last_check_time t).
Proof. apply total_try_except. Qed.
Lemma _get_email_date_total i : total (_get_email_date i).
Proof. apply total_try_except. Qed.
Lemma search_new_emails_from_sender_total s :
  total (search_new_emails_from_sender s).
Proof. apply total_try_except. Qed.
Lemma get_email_content_total i : total (get_email_content i).
Proof. apply total_try_except. Qed.
Lemma _ensure_connection_total : total _ensure_connection.
Proof. apply total_try_except. Qed.

Lemma total_bind {A B} (m : M (client E) A) (k : A -> M (client E) B) :
  total m -> (forall a, total (k a)) -> total (bind m k).
Proof.
  intros Hm Hk w. unfold bind. destruct (Hm w) as [a [w' ->]]. apply Hk.
Qed.

Lemma total_ret {A} (a : A) : total (ret (W := client E) a).
Proof. intros w. unfold ret. eauto. Qed.

Lemma total_gets {A} (f : client E -> A) : total (gets f).
Proof. intros w. unfold gets. eauto. Qed.

Lemma total_modify (f : client E -> client E) : total (modify f).
Proof. intros w. unfold modify. eauto. Qed.

Lemma total_try_finally {A} (m : M (client E) A) (cleanup : M (client E) unit) :
  total m -> total cleanup -> total (try_finally m cleanup).
Proof.
  intros Hm Hc w. unfold try_finally.
  destruct (Hm w) as [a [w1 ->]]. destruct (Hc w1) as [[] [w2 ->]]. eauto.
Qed.

Lemma _disconnect_internal_total : total _disconnect_internal.
Proof.
  unfold _disconnect_internal.
  apply total_bind; [apply total_gets|]. intros [c|]; [|apply total_ret].
  apply total_try_finally; [apply total_try_except|apply total_modify].
Qed.

Lemma fetch_contents_total ids :
  total (fetch_contents get_email_content ids).
Proof.
  induction ids as [|i ids IH]; simpl.
  - apply total_ret.
  - apply total_bind; [apply get_email_content_total|]. intros d.
    apply total_bind; [apply IH|]. intros l. apply total_ret.
Qed.

(** The [try] block of [get_new_emails_from_sender] raises nothing: each
    method it calls catches what its own calls raise. *)
Lemma try_block_total sender update_state :
  total (try_block _ensure_connection search_new_emails_from_sender
           get_email_content (save_last_check_time None) sender update_state).
Proof.
  unfold try_block.
  apply total_bind; [apply _ensure_connection_total|]. intros [|]; simpl;
    [|apply total_ret].
  apply total_bind; [apply search_new_emails_from_sender_total|].
  intros [|i ids].
  - apply total_bind; [|intros; apply total_ret].
    destruct update_state; [apply save_last_check_time_total|apply total_ret].
  - apply total_bind; [apply fetch_contents_total|]. intros l.
    apply total_bind; [|intros; apply total_ret].
    destruct update_state; [apply save_last_check_time_total|apply total_ret].
Qed.

Lemma sleep_total s : total (sleep s).
Proof. intros w. unfold sleep. eauto. Qed.

Section AnyCallee.
Variable ensure_connection : M (client E) bool.
Variable search_new : str -> M (client E) (list N).
Variable get_content : N -> M (client E) (option email_data).
Variable save_state : M (client E) unit.

Lemma except_block_total rc attempt e : total (except_block rc attempt e).
Proof.
  unfold except_block. destruct (is_connection_error e); [|apply total_ret].
  apply total_bind; [apply _disconnect_internal_total|]. intros _.
  apply total_bind; [|intros; apply total_ret].
  destruct (attempt <? rc - 1)%Z; [apply sleep_total|apply total_ret].
Qed.

Lemma attempt_once_total sender upd rc attempt :
  total (attempt_once ensure_connection search_new get_content save_state
           sender upd rc attempt).
Proof.
  intros w. unfold attempt_once, try_except, bind.
  destruct (try_block _ _ _ _ _ _ w) as [[[l|]|e] w1]; unfold ret; eauto.
  apply except_block_total.
Qed.

(** Whatever the methods called in the [try] block do, the loop
    returns: no exception leaves [get_new_emails_from_sender]. *)
Lemma attempts_total sender upd rc remaining : forall attempt,
  total (attempts ensure_connection search_new get_content save_state
           sender upd rc remaining attempt).
Proof.
  induction remaining as [|n IH]; intros attempt; simpl.
  - apply total_ret.
  - apply total_bind; [apply attempt_once_total|].
    intros [l| |]; [apply total_ret|apply IH|apply total_ret].
Qed.
End AnyCallee.

Lemma get_new_emails_from_sender_total sender upd rc :
  total (get_new_emails_from_sender sender upd rc).
Proof.
  unfold get_new_emails_from_sender, get_new_emails, retry_loop.
  apply total_bind; [apply attempts_total|]. intros; apply total_ret.
Qed.

(** ** What a method leaves alone *)

Create HintDb keeps.

Section Keeps.
Variable R : client E -> client E -> Prop.
Hypothesis R_refl : forall w, R w w.
Hypothesis R_trans : forall a b c, R a b -> R b c -> R a c.

(** Whatever [m] produces, the states before and after are related. *)
Definition keeps {A} (m : M (client E) A) : Prop :=
  forall w r w', m w = (r, w') -> R w w'.

Lemma keeps_ret {A} (a : A) : keeps (ret a).
Proof. intros w r w' H. injection H as _ <-. apply R_refl. Qed.

Lemma keeps_raise {A} e : keeps (raise (A := A) e).
Proof. intros w r w' H. injection H as _ <-. apply R_refl. Qed.

Lemma keeps_lift {A} (x : result A) : keeps (lift x).
Proof. intros w r w' H. injection H as _ <-. apply R_refl. Qed.

Lemma keeps_gets {A} (f : client E -> A) : keeps (gets f).
Proof. intros w r w' H. injection H as _ <-. apply R_refl. Qed.

Lemma keeps_bind {A B} (m : M (client E) A) (k : A -> M (client E) B) :
  keeps m -> (forall a, keeps (k a)) -> keeps (bind m k).
Proof.
  intros Hm Hk w r w' H. unfold bind in H.
  destruct (m w) as [[a|e] w1] eqn:Hmw.
  - eapply R_trans; [eapply Hm; eassumption|eapply Hk; eassumption].
  - injection H as _ <-. eapply Hm; eassumption.
Qed.

Lemma keeps_try_except {A} (m : M (client E) A) h :
  keeps m -> (forall e, keeps (h e)) -> keeps (try_except m h).
Proof.
  intros Hm Hh w r w' H. unfold try_except in H.
  destruct (m w) as [[a|e] w1] eqn:Hmw.
  - injection H as _ <-. eapply Hm; eassumption.
  - eapply R_trans; [eapply Hm; eassumption|eapply Hh; eassumption].
Qed.

Lemma keeps_try_finally {A} (m : M (client E) A) c :
  keeps m -> keeps c -> keeps (try_finally m c).
Proof.
  intros Hm Hc w r w' H. unfold try_finally in H.
  destruct (m w) as [r1 w1] eqn:Hmw.
  destruct (c w1) as [[[]|e] w2] eqn:Hcw; injection H as _ <-;
    (eapply R_trans; [eapply Hm; eassumption|eapply Hc; eassumption]).
Qed.

(** The outside calls and the two fields the methods assign. *)
Hypothesis R_open : forall ev s p, keeps (call ev (imap_open s p)).
Hypothesis R_login : forall ev c l p, keeps (call ev (imap_login c l p)).
Hypothesis R_select : forall ev c m, keeps (call ev (imap_select c m)).
Hypothesis R_noop : forall ev c, keeps (call ev (imap_noop c)).
Hypothesis R_search : forall ev c q, keeps (call ev (imap_search c q)).
Hypothesis R_fetch_date : forall ev c i, keeps (call ev (imap_fetch_date c i)).
Hypothesis R_fetch_rfc822 : forall ev c i,
  keeps (call ev (imap_fetch_rfc822 c i)).
Hypothesis R_close : forall ev c, keeps (call ev (imap_close c)).
Hypothesis R_logout : forall ev c, keeps (call ev (imap_logout c)).
Hypothesis R_now : keeps datetime_now.
Hypothesis R_sleep : forall s, keeps (sleep s).
Hypothesis R_connection : forall c, keeps (modify (set_connection c)).

Lemma keeps_on_connection {A} (f : N -> M (client E) A) :
  (forall c, keeps (f c)) -> keeps (on_connection f).
Proof.
  intros Hf. unfold on_connection. apply keeps_bind; [apply keeps_gets|].
  intros [c|]; [apply Hf|apply keeps_raise].
Qed.

#[local] Hint Resolve keeps_ret keeps_raise keeps_lift keeps_gets keeps_bind
  keeps_try_except keeps_try_finally keeps_on_connection
  R_open R_login R_select R_noop R_search R_fetch_date R_fetch_rfc822
  R_close R_logout R_now R_sleep R_connection : keeps.

Ltac keeps_step :=
  match goal with
  | |- forall _, _ => intro
  | |- keeps (match ?x with _ => _ end) => destruct x
  | |- keeps (if ?x then _ else _) => destruct x
  | |- keeps (let (_, _) := ?x in _) => destruct x
  | |- keeps (bind _ _) => apply keeps_bind
  | |- keeps (try_except _ _) => apply keeps_try_except
  | |- keeps (try_finally _ _) => apply keeps_try_finally
  | |- keeps (on_connection _) => apply keeps_on_connection
  | |- keeps _ => solve [auto with keeps]
  end.
Ltac keeps_auto := repeat keeps_step.

Lemma connect_keeps : keeps connect.
Proof. unfold connect. keeps_auto. Qed.

Lemma select_mailbox_keeps mailbox : keeps (select_mailbox mailbox).
Proof. unfold select_mailbox. keeps_auto. Qed.

Lemma load_last_check_time_keeps : keeps load_last_check_time.
Proof. unfold load_last_check_time. keeps_auto. Qed.

Lemma _get_email_date_keeps i : keeps (_get_email_date i).
Proof. unfold _get_email_date. keeps_auto. Qed.

Lemma keep_newer_keeps t ids : keeps (keep_newer t ids).
Proof.
  induction ids as [|i ids IH]; simpl; [apply keeps_ret|].
  apply keeps_bind; [apply _get_email_date_keeps|]. keeps_auto.
Qed.

Lemma search_new_emails_from_sender_keeps s :
  keeps (search_new_emails_from_sender s).
Proof.
  unfold search_new_emails_from_sender.
  apply keeps_try_except; [|keeps_auto].
  apply keeps_bind; [apply load_last_check_time_keeps|]. intros last.
  apply keeps_bind; [keeps_auto|]. intros since.
  apply keeps_bind; [keeps_auto|]. intros [result ids].
  destruct (negb (str_eqb result OK)); [apply keeps_ret|].
  destruct ids; [apply keeps_ret|].
  destruct last; [apply keep_newer_keeps|apply keeps_ret].
Qed.

Lemma get_email_content_keeps i : keeps (get_email_content i).
Proof. unfold get_email_content. keeps_auto. Qed.

Lemma _disconnect_internal_keeps : keeps _disconnect_internal.
Proof. unfold _disconnect_internal. keeps_auto. Qed.

Lemma connect_and_select_keeps : keeps connect_and_select.
Proof.
  unfold connect_and_select. apply keeps_bind; [apply connect_keeps|].
  intros [|]; [apply select_mailbox_keeps|apply keeps_ret].
Qed.

Lemma _ensure_connection_keeps : keeps _ensure_connection.
Proof.
  unfold _ensure_connection. apply keeps_try_except; [|keeps_auto].
  apply keeps_bind; [apply keeps_gets|]. intros [c|];
    [|apply connect_and_select_keeps].
  apply keeps_bind; [keeps_auto|]. intros [|]; [apply keeps_ret|].
  apply keeps_bind; [apply _disconnect_internal_keeps|].
  intros _. apply connect_and_select_keeps.
Qed.

Lemma fetch_contents_keeps ids :
  keeps (fetch_contents get_email_content ids).
Proof.
  induction ids as [|i ids IH]; simpl; [apply keeps_ret|].
  apply keeps_bind; [apply get_email_content_keeps|]. keeps_auto.
Qed.

Lemma except_block_keeps rc attempt e : keeps (except_block rc attempt e).
Proof.
  unfold except_block. destruct (is_connection_error e); [|apply keeps_ret].
  apply keeps_bind; [apply _disconnect_internal_keeps|]. keeps_auto.
Qed.
End Keeps.

(** ** The checkpoint *)

(** The state file can always be opened for writing. *)
Definition disk_writable : Prop :=
  forall path e, exists e', open_w path e = (Ok tt, e').

(** Time does not run backwards: [time_of] is the time of a state of the
    outside, no call decreases it, and a reading of the clock lies
    between the time before and the time after the reading. *)
Record monotone_time (time_of : E -> Z) : Prop := {
  time_clock_read : forall e,
    (time_of e <= fst (clock_read e) <= time_of (snd (clock_read e)))%Z;
  time_sleep_le : forall s e, (time_of e <= time_of (time_sleep s e))%Z;
  time_open_w : forall p e, (time_of e <= time_of (snd (open_w p e)))%Z;
  time_imap_open : forall s p e, (time_of e <= time_of (snd (imap_open s p e)))%Z;
  time_imap_login : forall c l p e,
    (time_of e <= time_of (snd (imap_login c l p e)))%Z;
  time_imap_select : forall c m e,
    (time_of e <= time_of (snd (imap_select c m e)))%Z;
  time_imap_noop : forall c e, (time_of e <= time_of (snd (imap_noop c e)))%Z;
  time_imap_search : forall c q e,
    (time_of e <= time_of (snd (imap_search c q e)))%Z;
  time_imap_fetch_date : forall c i e,
    (time_of e <= time_of (snd (imap_fetch_date c i e)))%Z;
  time_imap_fetch_rfc822 : forall c i e,
    (time_of e <= time_of (snd (imap_fetch_rfc822 c i e)))%Z;
  time_imap_close : forall c e, (time_of e <= time_of (snd (imap_close c e)))%Z;
  time_imap_logout : forall c e, (time_of e <= time_of (snd (imap_logout c e)))%Z
}.

Section Checkpoint.
Variable time_of : E -> Z.
Hypothesis time_ok : monotone_time time_of.
Hypothesis disk_ok : disk_writable.

(** The state file is as it was, and it is not earlier than before. *)
Definition untouched (w w' : client E) : Prop :=
  state_file_content w' = state_file_content w
  /\ (time_of (env w) <= time_of (env w'))%Z.

Lemma untouched_refl w : untouched w w.
Proof. split; [reflexivity|lia]. Qed.

Lemma untouched_trans a b c : untouched a b -> untouched b c -> untouched a c.
Proof. intros [H1 H2] [H3 H4]. split; [congruence|lia]. Qed.

(** Every call of a method of [imaplib] is one of the calls below. *)
Definition imap_call {A} (op : E -> result A * E) : Prop :=
  forall e, (time_of e <= time_of (snd (op e)))%Z.

Lemma call_untouched {A} ev (op : E -> result A * E) :
  imap_call op -> keeps untouched (call ev op).
Proof.
  intros Hop w r w' H. unfold call in H. specialize (Hop (env w)).
  destruct (op (env w)) as [r1 e1]. injection H as _ <-.
  split; [reflexivity|exact Hop].
Qed.

Lemma now_untouched : keeps untouched datetime_now.
Proof.
  intros w r w' H. unfold datetime_now in H.
  pose proof (time_clock_read time_of time_ok (env w)) as Ht.
  destruct (clock_read (env w)) as [t e1]. injection H as _ <-.
  split; [reflexivity|simpl in *; lia].
Qed.

Lemma sleep_untouched s : keeps untouched (sleep s).
Proof.
  intros w r w' H. unfold sleep in H. injection H as _ <-.
  split; [reflexivity|apply (time_sleep_le time_of time_ok)].
Qed.

Lemma connection_untouched c : keeps untouched (modify (set_connection c)).
Proof.
  intros w r w' H. unfold modify in H. injection H as _ <-.
  split; [reflexivity|simpl; lia].
Qed.

(** Every method but [save_last_check_time] leaves the state file alone. *)
Local Ltac untouched_by lemma :=
  apply (lemma untouched untouched_refl untouched_trans);
  try (intros; apply call_untouched; intros ?; apply time_ok);
  auto using now_untouched, sleep_untouched, connection_untouched.

Lemma _ensure_connection_untouched : keeps untouched _ensure_connection.
Proof. untouched_by _ensure_connection_keeps. Qed.

Lemma search_untouched s : keeps untouched (search_new_emails_from_sender s).
Proof. untouched_by search_new_emails_from_sender_keeps. Qed.

Lemma fetch_contents_untouched ids :
  keeps untouched (fetch_contents get_email_content ids).
Proof. untouched_by fetch_contents_keeps. Qed.

Lemma except_block_untouched rc attempt e :
  keeps untouched (except_block rc attempt e).
Proof. untouched_by except_block_keeps. Qed.

(** The state file holds a checkpoint read from the clock between the
    times of [w] and [w']. *)
Definition checkpointed (w w' : client E) : Prop :=
  exists t updated_at,
    state_file_content w'
      = Some (StateJson (Some (naive t)) updated_at)
    /\ (time_of (env w) <= t <= time_of (env w'))%Z.

Lemma save_now_checkpointed w :
  exists w', save_last_check_time None w = (Ok tt, w') /\ checkpointed w w'.
Proof.
  unfold save_last_check_time, try_except, bind, datetime_now, write_state.
  pose proof (time_clock_read time_of time_ok (env w)) as H1.
  destruct (clock_read (env w)) as [t e1]. simpl.
  pose proof (time_clock_read time_of time_ok e1) as H2.
  destruct (clock_read e1) as [t2 e2]. simpl.
  pose proof (time_open_w time_of time_ok (state_file w) e2) as H3.
  destruct (disk_ok (state_file w) e2) as [e3 He3]. rewrite He3 in *.
  eexists. split; [reflexivity|].
  exists t, (naive t2). split; [reflexivity|]. simpl in *. lia.
Qed.

Lemma checkpointed_after a b c :
  untouched a b -> checkpointed b c -> checkpointed a c.
Proof.
  intros [_ Hab] [t [x [Hc Ht]]]. exists t, x. split; [assumption|lia].
Qed.

(** The [try] block with [update_state=True]: either it ends in
    [continue] with the state file as it was, or it returns with the
    checkpoint set to the time it was then. *)
Lemma try_block_checkpoint sender w :
  exists r w',
    try_block _ensure_connection search_new_emails_from_sender
      get_email_content (save_last_check_time None) sender true w
    = (Ok r, w')
    /\ match r with
       | Some _ => checkpointed w w'
       | None => untouched w w'
       end.
Proof.
  unfold try_block, bind.
  destruct (_ensure_connection_total w) as [connected [w1 H1]].
  pose proof (_ensure_connection_untouched _ _ _ H1) as U1. rewrite H1.
  destruct connected; simpl; [|exists None, w1; split; [reflexivity|exact U1]].
  destruct (search_new_emails_from_sender_total sender w1) as [ids [w2 H2]].
  pose proof (search_untouched _ _ _ _ H2) as U2. rewrite H2.
  pose proof (untouched_trans _ _ _ U1 U2) as U12.
  destruct ids as [|i ids].
  - destruct (save_now_checkpointed w2) as [w3 [H3 C3]]. rewrite H3.
    exists (Some []), w3. split; [reflexivity|].
    eapply checkpointed_after; eassumption.
  - destruct (fetch_contents_total (i :: ids) w2) as [emails [w3 H3]].
    pose proof (fetch_contents_untouched _ _ _ _ H3) as U3. rewrite H3.
    destruct (save_now_checkpointed w3) as [w4 [H4 C4]]. rewrite H4.
    exists (Some emails), w4. split; [reflexivity|].
    eapply checkpointed_after; [|eassumption].
    eapply untouched_trans; eassumption.
Qed.

Lemma attempts_checkpoint sender rc remaining : forall attempt w,
  exists r w',
    attempts _ensure_connection search_new_emails_from_sender
      get_email_content (save_last_check_time None)
      sender true rc remaining attempt w = (Ok r, w')
    /\ match r with
       | FromTry _ => checkpointed w w'
       | AfterLoop => untouched w w'
       end.
Proof.
  induction remaining as [|n IH]; intros attempt w; simpl.
  - exists AfterLoop, w. split; [reflexivity|apply untouched_refl].
  - unfold bind at 1, attempt_once, try_except, bind at 1.
    destruct (try_block_checkpoint sender w) as [r [w1 [H1 P1]]]. rewrite H1.
    destruct r as [emails|]; unfold ret.
    + exists (FromTry emails), w1. split; [reflexivity|assumption].
    + destruct (IH (attempt + 1)%Z w1) as [r2 [w2 [H2 P2]]].
      exists r2, w2. split; [assumption|].
      destruct r2.
      * eapply checkpointed_after; eassumption.
      * eapply untouched_trans; eassumption.
Qed.
End Checkpoint.

(** The checkpoint by the [return] taken. With [update_state=True],
    when [get_new_emails_from_sender] returns from inside its [try]
    block, the state file holds as [last_check_time] a reading of the
    clock taken during the call: the time it is now, not the date of a
    message. With a clock that does not run backwards and a stored
    checkpoint that was not in the future, the new checkpoint is not
    earlier than the old one. When the call falls out of the loop (no
    connection on any attempt), the state file is as it was. The call
    raises nothing. A return from inside the [try] block does not mean
    that mail was fetched: a search that failed returns there too. *)
Lemma checkpoint_set_to_now (time_of : E -> Z) (sender : str) (rc : Z)
    (w : client E) :
  monotone_time time_of -> disk_writable ->
  exists r w',
    get_new_emails sender true rc w = (Ok r, w')
    /\ get_new_emails_from_sender sender true rc w = (Ok (returned r), w')
    /\ match r with
       | FromTry _ =>
           exists t updated_at,
             state_file_content w'
               = Some (StateJson (Some (naive t)) updated_at)
             /\ (time_of (env w) <= t <= time_of (env w'))%Z
             /\ forall old updated_before,
                  state_file_content w
                    = Some (StateJson (Some old) updated_before) ->
                  (wall old <= time_of (env w))%Z ->
                  (wall old <= t)%Z
       | AfterLoop => state_file_content w' = state_file_content w
       end.
Proof.
  intros Htime Hdisk.
  destruct (attempts_checkpoint time_of Htime Hdisk sender rc (Z.to_nat rc) 0%Z w)
    as [r [w' [H P]]].
  exists r, w'. split; [exact H|]. split.
  - unfold get_new_emails_from_sender, bind, get_new_emails, retry_loop.
    rewrite H. reflexivity.
  - destruct r as [emails|].
    + destruct P as [t [x [Hc Ht]]]. exists t, x.
      split; [assumption|]. split; [assumption|]. intros. lia.
    + apply P.
Qed.

(** ** A server that refuses every connection *)

Definition always_refused : Prop :=
  forall server port e, exists x e', imap_open server port e = (Raise x, e').

Lemma _ensure_connection_refused w :
  always_refused -> connection w = None ->
  exists e', _ensure_connection w = (Ok false, log_call EvOpen (set_env e' w)).
Proof.
  intros Href Hc.
  unfold _ensure_connection, try_except, bind, gets. rewrite Hc.
  unfold connect_and_select, bind, connect, try_except, bind, gets, call.
  destruct (Href (server w) (port w) (env w)) as [x [e' He]]. rewrite He.
  exists e'. reflexivity.
Qed.

Lemma attempts_refused sender upd rc remaining : forall attempt w,
  always_refused -> connection w = None ->
  exists w',
    attempts _ensure_connection search_new_emails_from_sender
      get_email_content (save_last_check_time None)
      sender upd rc remaining attempt w = (Ok AfterLoop, w')
    /\ calls w' = repeat EvOpen remaining ++ calls w
    /\ connection w' = None
    /\ state_file_content w' = state_file_content w.
Proof.
  induction remaining as [|n IH]; intros attempt w Href Hc; simpl.
  - exists w. repeat split; try reflexivity; assumption.
  - unfold bind at 1, attempt_once, try_except, bind at 1, try_block, bind at 1.
    destruct (_ensure_connection_refused w Href Hc) as [e' ->]. simpl.
    unfold ret.
    destruct (IH (attempt + 1)%Z (log_call EvOpen (set_env e' w)) Href Hc)
      as [w' [H [Hcalls [Hconn Hfile]]]].
    exists w'. split; [exact H|]. split; [|split; assumption].
    rewrite Hcalls. simpl calls.
    change (EvOpen :: calls w) with ([EvOpen] ++ calls w).
    rewrite app_assoc, <- repeat_cons. reflexivity.
Qed.

(** Nothing answers: opening a connection raises, and so do [NOOP] and
    [CLOSE] on a connection opened before. *)
Definition unreachable_server : Prop :=
  always_refused
  /\ (forall c e, exists x e', imap_noop c e = (Raise x, e'))
  /\ (forall c e, exists x e', imap_close c e = (Raise x, e')).

Definition is_open (ev : event) : bool :=
  match ev with EvOpen => true | _ => false end.

Definition is_sleep (ev : event) : bool :=
  match ev with EvSleep _ => true | _ => false end.

(** With a connection from before: the liveness check fails, the
    connection is dropped, and the attempt to connect again fails. *)
Lemma _ensure_connection_dead w c :
  unreachable_server -> connection w = Some c ->
  exists w',
    _ensure_connection w = (Ok false, w')
    /\ calls w' = [EvOpen; EvClose c; EvNoop c] ++ calls w
    /\ connection w' = None
    /\ state_file_content w' = state_file_content w.
Proof.
  intros [Hopen [Hnoop Hclose]] Hc.
  unfold _ensure_connection, try_except at 1, bind at 1, gets. rewrite Hc.
  unfold bind at 1, try_except at 1, bind at 1, call at 1.
  destruct (Hnoop c (env w)) as [x1 [e1 ->]]. unfold ret at 1.
  cbv iota beta.
  unfold bind at 1, _disconnect_internal, bind at 1, gets.
  cbn [connection log_call set_env]. rewrite Hc.
  unfold try_finally, try_except at 1, bind at 1, call at 1.
  cbn [env log_call set_env].
  destruct (Hclose c e1) as [x2 [e2 ->]]. unfold ret at 1, modify.
  cbv iota beta.
  unfold connect_and_select, bind at 1, connect, try_except at 1, bind at 1, gets.
  unfold bind at 1, call at 1. cbn [env server port set_connection log_call set_env].
  destruct (Hopen (server w) (port w) e2) as [x3 [e3 ->]].
  eexists. split; [reflexivity|]. repeat split.
Qed.

(** C3 on the code. When the server cannot be reached,
    [get_new_emails_from_sender] tries to connect [retry_count] times
    and returns the empty list, raising nothing; among the calls it
    makes there is no [time.sleep]: the attempts follow one another
    without a pause. The state file is as it was. *)
Theorem refused_connection_retried_without_delay (sender : str)
    (upd : bool) (rc : Z) (w : client E) :
  unreachable_server ->
  exists w' made,
    get_new_emails_from_sender sender upd rc w = (Ok [], w')
    /\ calls w' = made ++ calls w
    /\ length (filter is_open made) = Z.to_nat rc
    /\ filter is_sleep made = []
    /\ state_file_content w' = state_file_content w.
Proof.
  intros Hdown. pose proof Hdown as [Href _].
  unfold get_new_emails_from_sender, bind, get_new_emails, retry_loop.
  destruct (connection w) as [c|] eqn:Hc.
  - destruct (Z.to_nat rc) as [|n] eqn:Hn.
    + exists w, []. repeat split.
    + cbn [attempts].
      unfold bind at 1, attempt_once, try_except, bind at 1, try_block, bind at 1.
      destruct (_ensure_connection_dead w c Hdown Hc)
        as [w1 [-> [Hcalls1 [Hconn1 Hfile1]]]].
      cbn [negb]. unfold ret at 1 2.
      destruct (attempts_refused sender upd rc n (0 + 1)%Z w1 Href Hconn1)
        as [w' [-> [Hcalls [_ Hfile]]]].
      exists w', (repeat EvOpen n ++ [EvOpen; EvClose c; EvNoop c]).
      split; [reflexivity|]. split; [|split; [|split]].
      * rewrite Hcalls, Hcalls1, app_assoc. reflexivity.
      * rewrite filter_app, length_app. cbn [filter is_open length].
        clear. induction n as [|n IH]; simpl in *; lia.
      * rewrite filter_app. cbn [filter is_sleep]. rewrite app_nil_r.
        clear. induction n as [|n IH]; simpl; auto.
      * congruence.
  - destruct (attempts_refused sender upd rc (Z.to_nat rc) 0%Z w Href Hc)
      as [w' [-> [Hcalls [_ Hfile]]]].
    exists w', (repeat EvOpen (Z.to_nat rc)).
    split; [reflexivity|]. split; [exact Hcalls|]. split; [|split].
    + clear. induction (Z.to_nat rc) as [|n IH]; simpl; auto.
    + clear. induction (Z.to_nat rc) as [|n IH]; simpl; auto.
    + exact Hfile.
Qed.

(** ** The [except] block *)

Section Handler.
Variable ensure_connection : M (client E) bool.
Variable search_new : str -> M (client E) (list N).
Variable get_content : N -> M (client E) (option email_data).
Variable save_state : M (client E) unit.

(** [self.connection] after [_disconnect_internal]. *)
Lemma _disconnect_internal_closes w :
  exists w', _disconnect_internal w = (Ok tt, w') /\ connection w' = None.
Proof.
  unfold _disconnect_internal. unfold bind at 1. unfold gets.
  destruct (connection w) as [c|] eqn:Hc; [|exists w; split; [reflexivity|exact Hc]].
  unfold try_finally.
  destruct (total_try_except
              (call (EvClose c) (imap_close c);; call (EvLogout c) (imap_logout c))
              tt w) as [[] [w1 ->]].
  unfold modify. eexists. split; reflexivity.
Qed.

(** The [except] block, for methods that would let a failure out of
    the [try] block (those of the class never do: [try_block_total]).
    When the [try] block raises [e] on a pass of the loop: if the
    lower-cased description of [e] contains one of [broken pipe],
    [connection], [socket], [timeout], the connection is closed, the
    client sleeps 5 seconds unless this was the last pass
    ([attempt = retry_count - 1]), and the loop goes on with the next
    pass; otherwise the loop is left at once and the call returns the
    empty list, with nothing more done. *)
Lemma failure_classification (sender : str) (upd : bool) (rc : Z)
    (remaining : nat) (attempt : Z) (w w1 : client E) (e : exn) :
  try_block ensure_connection search_new get_content save_state
    sender upd w = (Raise e, w1) ->
  if contains_any (str_lower (description e))
       [u "broken pipe"; u "connection"; u "socket"; u "timeout"]
  then
    exists w2,
      _disconnect_internal w1 = (Ok tt, w2)
      /\ connection w2 = None
      /\ attempts ensure_connection search_new get_content save_state
           sender upd rc (S remaining) attempt w
         = attempts ensure_connection search_new get_content save_state
             sender upd rc remaining (attempt + 1)
             (if (attempt <? rc - 1)%Z
              then log_call (EvSleep 5) (set_env (time_sleep 5 (env w2)) w2)
              else w2)
  else
    attempts ensure_connection search_new get_content save_state
      sender upd rc (S remaining) attempt w = (Ok AfterLoop, w1).
Proof.
  intros Hraise.
  change (contains_any (str_lower (description e))
            [u "broken pipe"; u "connection"; u "socket"; u "timeout"])
    with (is_connection_error e).
  assert (Hstep : attempt_once ensure_connection search_new get_content
                    save_state sender upd rc attempt w
                  = except_block rc attempt e w1).
  { unfold attempt_once, try_except, bind. rewrite Hraise. reflexivity. }
  unfold except_block in Hstep.
  destruct (is_connection_error e).
  - destruct (_disconnect_internal_closes w1) as [w2 [Hd Hc]].
    exists w2. split; [exact Hd|]. split; [exact Hc|].
    cbn [attempts]. unfold bind at 1. rewrite Hstep.
    unfold bind at 1. rewrite Hd.
    destruct (attempt <? rc - 1)%Z; reflexivity.
  - cbn [attempts]. unfold bind at 1. rewrite Hstep. reflexivity.
Qed.
End Handler.

(** ** The search *)

(** The header dates of the candidates, fetched in order. *)
Fixpoint email_dates (ids : list N) : M (client E) (list (option datetime)) :=
  match ids with
  | [] => ret []
  | i :: rest =>
      d <- _get_email_date i ;;
      ds <- email_dates rest ;;
      ret (d :: ds)
  end.

(** Is a header date there, and later than the checkpoint. *)
Definition newer (last_check : datetime) (d : option datetime) : bool :=
  match d with
  | Some d => (wall last_check <? wall d)%Z
  | None => false
  end.

(** The candidates whose date is newer, in the order of the search. *)
Definition kept (last_check : datetime) (ids : list N)
    (dates : list (option datetime)) : list N :=
  map fst (filter (fun p => newer last_check (snd p)) (combine ids dates)).

Lemma date_of_header_lines_naive lines d :
  date_of_header_lines lines = Some d -> tzinfo d = None.
Proof.
  induction lines as [|line rest IH]; simpl; [discriminate|].
  destruct (startswith _ _); [|exact IH].
  destruct (parsedate_to_datetime _); [|discriminate].
  intros H. injection H as <-. reflexivity.
Qed.

Lemma _get_email_date_naive i w d w' :
  _get_email_date i w = (Ok (Some d), w') -> tzinfo d = None.
Proof.
  unfold _get_email_date, try_except, bind, on_connection, bind, gets.
  destruct (connection w) as [c|]; [|unfold raise, ret; congruence].
  destruct (call _ _ w) as [[[result [data|]]|x] w1]; unfold ret;
    try congruence.
  destruct (negb _); [congruence|].
  destruct (decode_utf8 Ignore data); [|congruence].
  intros H. injection H as H _. eapply date_of_header_lines_naive. eassumption.
Qed.

(** No date comes from a fetch that raises, and none from a date line
    that cannot be parsed. *)
Lemma _get_email_date_unfetched i w c x e1 :
  connection w = Some c ->
  imap_fetch_date c i (env w) = (Raise x, e1) ->
  _get_email_date i w = (Ok None, log_call (EvFetchDate c i) (set_env e1 w)).
Proof.
  intros Hc Hf.
  unfold _get_email_date, try_except, bind, on_connection, bind, gets.
  rewrite Hc. unfold call. rewrite Hf. reflexivity.
Qed.

Lemma date_of_header_lines_unparsed line rest x :
  startswith (str_lower line) (u "date:") = true ->
  parsedate_to_datetime (strip (slice_from 5 line)) = Raise x ->
  date_of_header_lines (line :: rest) = None.
Proof. intros Hl Hp. cbn [date_of_header_lines]. rewrite Hl, Hp. reflexivity. Qed.

Lemma keep_newer_kept t ids : forall w,
  tzinfo t = None ->
  exists dates w',
    email_dates ids w = (Ok dates, w')
    /\ length dates = length ids
    /\ keep_newer t ids w = (Ok (kept t ids dates), w').
Proof.
  induction ids as [|i ids IH]; intros w Ht; simpl.
  - exists [], w. repeat split; reflexivity.
  - destruct (_get_email_date_total i w) as [d [w1 H1]].
    destruct (IH w1 Ht) as [dates [w2 [H2 [Hlen H3]]]].
    exists (d :: dates), w2. split; [|split].
    + unfold bind at 1. rewrite H1. unfold bind at 1. rewrite H2. reflexivity.
    + simpl. congruence.
    + assert (Hk : (match d with
                    | Some d0 => lift (datetime_gt d0 t)
                    | None => ret false
                    end) w1 = (Ok (newer t d), w1)).
      { destruct d as [d|]; [|reflexivity].
        apply _get_email_date_naive in H1.
        unfold lift, datetime_gt. rewrite H1, Ht. reflexivity. }
      unfold bind at 1. rewrite H1. unfold bind at 1. rewrite Hk.
      unfold bind at 1. rewrite H3. unfold ret, kept. simpl.
      destruct (newer t d); reflexivity.
Qed.

(** C1. With a checkpoint in the state file (a naive datetime, as
    [save_last_check_time] writes it) and a search that answers [OK] with
    the candidates [ids], [search_new_emails_from_sender] returns, in the
    order of the search, exactly the candidates whose header date, read
    with its timezone dropped, is strictly later than the checkpoint. A
    candidate for which [_get_email_date] gives no date (the header
    could not be fetched or parsed) is left out. *)
Theorem exact_boundary_filter (sender : str) (w : client E) (c : N)
    (last_check updated_at : datetime) (ids : list N) (e1 : E) :
  connection w = Some c ->
  state_file_content w = Some (StateJson (Some last_check) updated_at) ->
  tzinfo last_check = None ->
  let criteria := {| crit_from := sender; crit_since := day_of last_check |} in
  imap_search c criteria (env w) = (Ok (OK, ids), e1) ->
  exists dates w',
    email_dates ids (log_call (EvSearch c criteria) (set_env e1 w))
      = (Ok dates, w')
    /\ length dates = length ids
    /\ search_new_emails_from_sender sender w
         = (Ok (kept last_check ids dates), w')
    /\ forall i, In i (kept last_check ids dates) <->
         exists d, In (i, Some d) (combine ids dates)
                   /\ (wall last_check < wall d)%Z.
Proof.
  intros Hc Hfile Hnaive criteria Hsearch.
  destruct (keep_newer_kept last_check ids
              (log_call (EvSearch c criteria) (set_env e1 w)) Hnaive)
    as [dates [w' [Hd [Hlen Hk]]]].
  exists dates, w'. split; [exact Hd|]. split; [exact Hlen|]. split.
  - unfold search_new_emails_from_sender, try_except, bind at 1.
    unfold load_last_check_time, try_except, bind, gets. rewrite Hfile.
    unfold ret, on_connection, bind, gets. rewrite Hc.
    unfold call. fold criteria. rewrite Hsearch.
    change (negb (str_eqb OK OK)) with false. cbv iota beta.
    destruct ids as [|i ids].
    + simpl in Hd, Hk. unfold ret in *. injection Hd as <- <-. reflexivity.
    + rewrite Hk. reflexivity.
  - intros i. unfold kept. rewrite in_map_iff. split.
    + intros [[i' d] [Hi Hin]]. simpl in Hi. subst i'.
      apply filter_In in Hin. destruct Hin as [Hin Hnew]. simpl in Hnew.
      destruct d as [d|]; [|discriminate].
      exists d. split; [exact Hin|]. apply Z.ltb_lt. exact Hnew.
    + intros [d [Hin Hlt]]. exists (i, Some d). split; [reflexivity|].
      apply filter_In. split; [exact Hin|]. simpl. apply Z.ltb_lt. exact Hlt.
Qed.

(** C6. With no checkpoint to load, [search_new_emails_from_sender]
    asks the server for the messages from the sender since the day it
    was 24 hours ago, and returns every id of the answer: the search is
    the only call it makes, no header date is fetched. *)
Theorem first_run_accepts_all (sender : str) (w : client E) (c : N)
    (t : Z) (ids : list N) (e1 e2 : E) :
  connection w = Some c ->
  load_last_check_time w = (Ok None, w) ->
  clock_read (env w) = (t, e1) ->
  let criteria :=
    {| crit_from := sender;
       crit_since := day_of (minus_hours (naive t) 24) |} in
  imap_search c criteria e1 = (Ok (OK, ids), e2) ->
  search_new_emails_from_sender sender w
    = (Ok ids, log_call (EvSearch c criteria) (set_env e2 w)).
Proof.
  intros Hc Hload Hclock criteria Hsearch.
  unfold search_new_emails_from_sender, try_except, bind at 1.
  rewrite Hload. unfold bind at 1, bind at 1, datetime_now. rewrite Hclock.
  unfold ret, bind, on_connection, bind, gets. simpl. rewrite Hc.
  unfold call. simpl. fold criteria. rewrite Hsearch.
  change (negb (str_eqb OK OK)) with false. cbv iota beta.
  destruct ids; reflexivity.
Qed.

End Facts.

(** ** Worked examples on the simulated outside *)

Import Sim.

#[local] Existing Instance Tables.latin_cyrillic.
#[local] Existing Instance sim_os.

Lemma sim_time_monotone sky :
  monotone_time (os := sim_os) (imap := sim_imap sky) o_clock.
Proof.
  split; intros; simpl; unfold answer; simpl; lia.
Qed.

Lemma sim_disk_writable : disk_writable (os := sim_os).
Proof. intros path e. eexists. reflexivity. Qed.

(** 19 June 2025, 12:00. *)
Definition noon : Z := civil 2025 6 19 12 0 0.

Definition sim_letter (i : N) (date : string) (day : Z) : letter :=
  {| l_id := i; l_from := u "Devino <no-reply@devinotele.com>"; l_day := day;
     l_date_header := u "Date: " ++ u date ++ [13; 10; 13; 10]%N;
     l_raw := [] |}.

(** Three letters of 19 June 2025: 11:00, 12:00 and 13:00; and one whose
    date cannot be read. *)
Definition three_letters : list letter :=
  [ sim_letter 1 "Thu, 19 Jun 2025 11:00:00 +0300" (day_of (naive noon));
    sim_letter 2 "Thu, 19 Jun 2025 12:00:00 +0300" (day_of (naive noon));
    sim_letter 3 "Thu, 19 Jun 2025 13:00:00 +0300" (day_of (naive noon));
    sim_letter 4 "soon" (day_of (naive noon)) ].

Definition after_noon : client outside :=
  sim_client {| o_clock := noon + 7200000000; o_mail := three_letters |}
    (Some 1%N) (Some (StateJson (Some (naive noon)) (naive noon))).

Lemma exact_boundary_filter_witness :
  exists w',
    search_new_emails_from_sender (imap := sim_imap Up)
      (lib := sim_email Tables.latin_cyrillic)
      (u "no-reply@devinotele.com") after_noon = (Ok [3%N], w').
Proof.
  destruct (@exact_boundary_filter outside sim_os (sim_imap Up)
              Tables.latin_cyrillic (sim_email Tables.latin_cyrillic)
              (u "no-reply@devinotele.com") after_noon 1%N
              (naive noon) (naive noon) [1; 2; 3; 4]%N
              (tick (env after_noon)))
    as [dates [w' [Hd [_ [Hs _]]]]].
  - reflexivity.
  - reflexivity.
  - reflexivity.
  - vm_compute. reflexivity.
  - exists w'. rewrite Hs. f_equal. f_equal.
    vm_compute in Hd. injection Hd as <- _. vm_compute. reflexivity.
Defined.

(** A first run on 20 June 2025, 09:00: letters of 19 June 03:00 (thirty
    hours old), of 18 June 23:00, of 20 June 08:00, and one of another
    sender. *)
Definition morning : Z := civil 2025 6 20 9 0 0.

Definition first_run_mail : list letter :=
  [ sim_letter 1 "Thu, 19 Jun 2025 03:00:00 +0300" (day_of (naive (civil 2025 6 19 3 0 0)));
    sim_letter 2 "Wed, 18 Jun 2025 23:00:00 +0300" (day_of (naive (civil 2025 6 18 23 0 0)));
    sim_letter 3 "Fri, 20 Jun 2025 08:00:00 +0300" (day_of (naive morning));
    {| l_id := 4; l_from := u "someone@example.org"; l_day := day_of (naive morning);
       l_date_header := []; l_raw := [] |} ].

Definition first_run : client outside :=
  sim_client {| o_clock := morning; o_mail := first_run_mail |} (Some 1%N) None.

Lemma first_run_accepts_all_witness :
  exists w',
    search_new_emails_from_sender (imap := sim_imap Up)
      (lib := sim_email Tables.latin_cyrillic)
      (u "no-reply@devinotele.com") first_run = (Ok [1%N; 3%N], w')
    /\ length (calls w') = 1.
Proof.
  eexists. split.
  - apply (@first_run_accepts_all outside sim_os (sim_imap Up)
             Tables.latin_cyrillic (sim_email Tables.latin_cyrillic)
             (u "no-reply@devinotele.com") first_run 1%N morning [1; 3]%N
             (tick (env first_run)) (tick (tick (env first_run)))).
    + reflexivity.
    + reflexivity.
    + reflexivity.
    + vm_compute. reflexivity.
  - reflexivity.
Defined.

(** A cycle with nothing new in the mailbox. *)
Definition quiet_day : client outside :=
  sim_client {| o_clock := noon + 7200000000; o_mail := [] |}
    None (Some (StateJson (Some (naive noon)) (naive noon))).

Lemma checkpoint_set_to_now_witness :
  exists w' updated_at,
    get_new_emails_from_sender (imap := sim_imap Up)
      (lib := sim_email Tables.latin_cyrillic)
      (u "no-reply@devinotele.com") true 3 quiet_day = (Ok [], w')
    /\ state_file_content w'
       = Some (StateJson (Some (naive (noon + 7200000004))) updated_at).
Proof.
  destruct (@checkpoint_set_to_now outside sim_os (sim_imap Up)
              Tables.latin_cyrillic (sim_email Tables.latin_cyrillic)
              o_clock (u "no-reply@devinotele.com") 3 quiet_day
              (sim_time_monotone Up) sim_disk_writable)
    as [r [w' [Hr [Hs Hfile]]]].
  vm_compute in Hr. injection Hr as <- <-.
  eexists. eexists. split; [exact Hs|]. vm_compute. reflexivity.
Defined.

(** A server that is down. *)
Definition server_down : client outside :=
  sim_client {| o_clock := noon; o_mail := three_letters |}
    None (Some (StateJson (Some (naive noon)) (naive noon))).

Lemma refused_connection_retried_without_delay_witness :
  exists w',
    get_new_emails_from_sender (imap := sim_imap Down)
      (lib := sim_email Tables.latin_cyrillic)
      (u "no-reply@devinotele.com") true 3 server_down = (Ok [], w')
    /\ calls w' = [EvOpen; EvOpen; EvOpen]
    /\ o_clock (env w') = (noon + 3)%Z
    /\ state_file_content w' = state_file_content server_down.
Proof.
  destruct (@refused_connection_retried_without_delay outside sim_os
              (sim_imap Down) Tables.latin_cyrillic
              (sim_email Tables.latin_cyrillic)
              (u "no-reply@devinotele.com") true 3 server_down)
    as [w' [made [Hs [_ [_ [_ Hf]]]]]].
  - repeat split; intros; do 2 eexists; reflexivity.
  - exists w'. split; [exact Hs|]. split; [|split; [|exact Hf]];
      vm_compute in Hs; injection Hs as <-; reflexivity.
Defined.

(** The signatures of a transient failure as the specification words
    them. *)
Definition worded_signatures : list str :=
  [u "network"; u "socket"; u "timeout"; u "broken pipe"].

Definition unreachable : exn :=
  Exception (u "[Errno 101] Network is unreachable").

Definition reset_by_peer : exn :=
  Exception (u "[Errno 104] Connection reset by peer").

(** The loop of [get_new_emails_from_sender] around a [try] block whose
    first call raises [e]. *)
Definition loop_raising (e : exn) (rc : Z) (remaining : nat) (attempt : Z)
    : M (client outside) fetched :=
  attempts (imap := sim_imap Up) (raise e)
    (fun _ => ret []) (fun _ => ret None) (ret tt)
    (u "no-reply@devinotele.com") true rc remaining attempt.

Lemma failure_classification_witness :
  exists w2,
    _disconnect_internal (imap := sim_imap Up) after_noon = (Ok tt, w2)
    /\ connection w2 = None
    /\ loop_raising reset_by_peer 3 3 0 after_noon
       = loop_raising reset_by_peer 3 2 1
           (log_call (EvSleep 5) (set_env (time_sleep 5 (env w2)) w2)).
Proof.
  exact (@failure_classification outside sim_os (sim_imap Up)
           Tables.latin_cyrillic
           (raise reset_by_peer) (fun _ => ret []) (fun _ => ret None) (ret tt)
           (u "no-reply@devinotele.com") true 3 2 0 after_noon after_noon
           reset_by_peer eq_refl).
Defined.

(** The list of the [except] block has no [network]: a failure
    described as [Network is unreachable] would be taken for terminal
    there, and the loop left after the first of three passes; and a
    transient failure on the last pass would be followed by no pause and
    no further pass. *)
Lemma network_failure_not_retried :
  contains_any (str_lower (description unreachable)) worded_signatures = true
  /\ is_connection_error unreachable = false
  /\ loop_raising unreachable 3 3 0 after_noon = (Ok AfterLoop, after_noon)
  /\ is_connection_error reset_by_peer = true
  /\ exists w', loop_raising reset_by_peer 3 1 2 after_noon = (Ok AfterLoop, w')
                /\ calls w' = [EvLogout 1%N; EvClose 1%N].
Proof.
  repeat split; try (vm_compute; reflexivity).
  eexists. split; vm_compute; reflexivity.
Qed.

(** A connection that drops on [SEARCH]. The failure is caught inside
    [search_new_emails_from_sender]: the call returns as if nothing were
    new, after one pass, and the checkpoint moves on. *)
Lemma search_failure_taken_for_no_mail :
  exists w' t updated_at,
    get_new_emails_from_sender (imap := sim_imap SearchBroken)
      (lib := sim_email Tables.latin_cyrillic)
      (u "no-reply@devinotele.com") true 3 after_noon = (Ok [], w')
    /\ calls w'
       = [EvWriteState;
          EvSearch 1 {| crit_from := u "no-reply@devinotele.com";
                        crit_since := day_of (naive noon) |};
          EvNoop 1]
    /\ state_file_content w' = Some (StateJson (Some (naive t)) updated_at)
    /\ (noon < t)%Z.
Proof.
  do 3 eexists. split; [vm_compute; reflexivity|].
  split; [vm_compute; reflexivity|].
  split; [vm_compute; reflexivity|]. vm_compute. reflexivity.
Qed.

End EmailClientFacts.

Module BodyFacts.
Import EmailClient.




Section Body.










Definition part (content_type disposition payload : string) : message :=
  Leaf {| h_subject := None; h_from := None; h_date := None;
          h_content_disposition := Some (u disposition) |}
    (u content_type)
    (match encode_utf8 (u payload) with Some b => b | None => [] end).

Definition mixed (parts : list message) : message :=
  Multipart {| h_subject := None; h_from := None; h_date := None;
               h_content_disposition := None |}
    (u "multipart/mixed") parts.

(** The test of the code reads the header letter by letter. A plain-text
    file attached under [Content-Disposition: Attachment; ...], with a
    capital, passes for the body, before the HTML text of the message; and
    a plain-text body shown inline is passed over for the HTML part when
    its file name has the word in it. *)
Lemma attachment_taken_as_body :
  _extract_body
    (mixed [ part "text/plain" "Attachment; filename=notes.txt" "notes";
             part "text/html" "inline" "<p>the message</p>" ])
  = u "notes"
  /\ _extract_body
       (mixed [ part "text/plain" "inline; filename=attachment-list.txt"
                  "the message";
                part "text/html" "inline" "<p>the message</p>" ])
     = u "<p>the message</p>".
Proof. split; vm_compute; reflexivity. Qed.
End Body.

End BodyFacts.

Module ReFacts.
Import Re.

Section Engine.
Context {uni : Unicode}.
Variable fl : flags.

Lemma consume_pos ok st st' :
  In st' (consume ok st) ->
  exists c, rest st = c :: rest st' /\ ok c = true /\ pos st' = S (pos st).
Proof.
  unfold consume. destruct (rest st) as [|c s] eqn:Hr; [contradiction|].
  destruct (ok c) eqn:Hok; [|contradiction].
  intros [<-|[]]. exists c. simpl. auto.
Qed.

Lemma repeat_forward (step : state -> list state) :
  (forall s s', In s' (step s) -> pos s <= pos s') ->
  forall fuel min max greedy st st',
    In st' (repeat step fuel min max greedy st) -> pos st <= pos st'.
Proof.
  intros Hstep fuel.
  induction fuel as [|fuel IH]; intros min max greedy st st' Hin; cbn [repeat] in Hin.
  - destruct (min =? 0); [|contradiction]. destruct Hin as [<-|[]]. lia.
  - assert (Hstop : In st' (if min =? 0 then [st] else []) -> pos st <= pos st').
    { destruct (min =? 0); [|contradiction]. intros [<-|[]]. lia. }
    assert (Hmore : In st'
              (flat_map (fun s => if pos s =? pos st then []
                                  else repeat step fuel (Nat.pred min)
                                         (option_map Nat.pred max) greedy s)
                        (step st)) -> pos st <= pos st').
    { intros H. apply in_flat_map in H. destruct H as [s [Hs H]].
      destruct (pos s =? pos st); [contradiction|].
      apply IH in H. apply Hstep in Hs. lia. }
    destruct greedy; apply in_app_or in Hin; destruct Hin as [H|H]; auto;
      destruct max as [[|k]|]; auto; contradiction.
Qed.

(** A match never moves backwards. *)
Lemma matches_forward r : forall st st',
  In st' (matches fl r st) -> pos st <= pos st'.
Proof.
  induction r; intros st st' Hin; cbn [matches] in Hin.
  - destruct Hin as [<-|[]]. lia.
  - apply consume_pos in Hin. destruct Hin as [? [_ [_ ->]]]. lia.
  - apply consume_pos in Hin. destruct Hin as [? [_ [_ ->]]]. lia.
  - apply consume_pos in Hin. destruct Hin as [? [_ [_ ->]]]. lia.
  - apply in_flat_map in Hin. destruct Hin as [mid [H1 H2]].
    apply IHr1 in H1. apply IHr2 in H2. lia.
  - apply in_app_or in Hin. destruct Hin; auto.
  - eapply repeat_forward; [|eassumption]. exact IHr.
  - apply in_map_iff in Hin. destruct Hin as [s [<- Hs]]. simpl. auto.
  - destruct (pos st =? 0); [|contradiction]. destruct Hin as [<-|[]]. lia.
  - destruct (rest st) as [|c s]; [destruct Hin as [<-|[]]; lia|].
    destruct (_ && _); [|contradiction]. destruct Hin as [<-|[]]. lia.
  - contradiction.
Qed.

(** One or more digits: the text starts with a decimal digit, and the
    match takes it. *)
Lemma digits_first m max greedy st st' :
  In st' (matches fl (Repeat (Class false [IDigit]) (S m) max greedy) st) ->
  exists c tl, rest st = c :: tl /\ isdecimal c = true /\ pos st < pos st'.
Proof.
  cbn [matches repeat]. intros Hin.
  assert (Hmore : In st'
            (match max with
             | Some 0 => []
             | _ => flat_map (fun s => if pos s =? pos st then []
                                 else repeat (matches fl (Class false [IDigit]))
                                        (length (rest st)) (Nat.pred (S m))
                                        (option_map Nat.pred max) greedy s)
                       (matches fl (Class false [IDigit]) st)
             end)).
  { destruct greedy; apply in_app_or in Hin; destruct Hin as [H|H];
      try contradiction; exact H. }
  assert (Hflat : exists s, In s (matches fl (Class false [IDigit]) st)
                    /\ In st' (repeat (matches fl (Class false [IDigit]))
                                 (length (rest st)) (Nat.pred (S m))
                                 (option_map Nat.pred max) greedy s)).
  { destruct max as [[|k]|]; try contradiction;
      apply in_flat_map in Hmore; destruct Hmore as [s [Hs H]];
      destruct (pos s =? pos st); try contradiction; eauto. }
  destruct Hflat as [s [Hs Hrep]].
  cbn [matches] in Hs. apply consume_pos in Hs.
  destruct Hs as [c [Hrest [Hok Hpos]]].
  exists c, (rest s). split; [exact Hrest|]. split.
  - unfold in_items in Hok. simpl in Hok.
    rewrite andb_false_r, !orb_false_r in Hok. exact Hok.
  - apply repeat_forward in Hrep; [lia|]. apply matches_forward.
Qed.

Lemma matches_seq r1 r2 st :
  matches fl (Seq r1 r2) st = flat_map (matches fl r2) (matches fl r1 st).
Proof. reflexivity. Qed.

Lemma matches_group n r st :
  matches fl (Group n r) st
  = map (fun st' =>
           {| pos := pos st'; rest := rest st';
              groups := (n, firstn (pos st' - pos st) (rest st)) :: groups st' |})
        (matches fl r st).
Proof. reflexivity. Qed.

(** The pattern ends in group 1, and group 1 starts with digits. *)
Fixpoint ends_in_digit_group (r : regex) : bool :=
  match r with
  | Seq _ r2 => ends_in_digit_group r2
  | Group 1 (Seq (Repeat (Class false [IDigit]) (S _) _ _) _) => true
  | _ => false
  end.

Lemma digit_group_captured r : forall st st',
  ends_in_digit_group r = true ->
  In st' (matches fl r st) ->
  exists c g others, groups st' = (1, c :: g) :: others /\ isdecimal c = true.
Proof.
  induction r; intros st st' Hshape Hin; try discriminate.
  - rewrite matches_seq in Hin. apply in_flat_map in Hin.
    destruct Hin as [mid [_ H2]]. eapply IHr2; eassumption.
  - simpl in Hshape.
    destruct n as [|[|n]]; try discriminate.
    destruct r; try discriminate.
    destruct r1; try discriminate.
    destruct r1; try discriminate.
    destruct negated; try discriminate.
    destruct items as [|[] [|]]; try discriminate.
    destruct min as [|m]; try discriminate.
    rewrite matches_group in Hin. apply in_map_iff in Hin.
    destruct Hin as [s [<- Hs]]. simpl.
    pose proof (matches_forward _ _ _ Hs) as Hfw.
    rewrite matches_seq in Hs.
    apply in_flat_map in Hs. destruct Hs as [mid [H1 H2]].
    apply digits_first in H1. destruct H1 as [c [tl [Hrest [Hdig Hlt]]]].
    apply matches_forward in H2.
    rewrite Hrest.
    destruct (pos s - pos st) as [|k] eqn:Hk; [lia|].
    simpl. eauto.
Qed.

Lemma search_from_found r fuel : forall st m,
  search_from fl r fuel st = Some m ->
  exists st0, In (snd m) (matches fl r st0).
Proof.
  induction fuel as [|fuel IH]; intros st m H; simpl in H.
  - destruct (matches fl r st) as [|found l] eqn:Hm; [discriminate|].
    injection H as <-. exists st. rewrite Hm. left. reflexivity.
  - destruct (matches fl r st) as [|found l] eqn:Hm.
    + destruct (rest st); [discriminate|]. eapply IH. eassumption.
    + injection H as <-. exists st. rewrite Hm. left. reflexivity.
Qed.

Lemma search_digit_group r text m :
  ends_in_digit_group r = true ->
  search fl r text = Some m ->
  exists c g, group 1 m = Some (c :: g) /\ isdecimal c = true.
Proof.
  intros Hshape Hsearch. unfold search in Hsearch.
  apply search_from_found in Hsearch. destruct Hsearch as [st0 Hin].
  destruct (digit_group_captured _ _ _ Hshape Hin) as [c [g [others [Hg Hd]]]].
  exists c, g. split; [|exact Hd]. unfold group. rewrite Hg. reflexivity.
Qed.
End Engine.

(** Stripping a text that starts with a character that is no space leaves
    something. *)
Lemma lstrip_all_space s : lstrip s = [] -> forall c, In c s -> isspace c = true.
Proof.
  induction s as [|a s IH]; simpl; [contradiction|].
  destruct (isspace a) eqn:Ha; [|discriminate].
  intros H c [<-|Hin]; auto.
Qed.

Lemma strip_nonempty c g : isspace c = false -> strip (c :: g) <> [].
Proof.
  intros Hc. unfold strip. simpl. rewrite Hc. unfold rstrip. intros H.
  apply (f_equal (@rev char)) in H. rewrite rev_involutive in H. simpl in H.
  pose proof (lstrip_all_space _ H c) as Hall.
  rewrite Hall in Hc; [discriminate|]. apply in_or_app. right. left. reflexivity.
Qed.

End ReFacts.

Module ReplyMark.
Import Re Parser ReFacts.

(** [Re:], in either case. *)
Definition is_reply_mark (a b c : char) : bool :=
  ((a =? 82) || (a =? 114))%N && ((b =? 69) || (b =? 101))%N && (c =? 58)%N.

(** A text without the [Re:] it starts with, and without the spaces after
    it. *)
Definition drop_reply_mark (t : str) : str :=
  match t with
  | a :: b :: c :: rest => if is_reply_mark a b c then lstrip rest else t
  | _ => t
  end.

Lemma lstrip_length s : length (lstrip s) <= length s.
Proof.
  induction s as [|c s IH]; simpl; [lia|].
  destruct (isspace c); simpl; lia.
Qed.

(** A stripped text is empty or starts with a character that is no
    space. *)
Lemma lstrip_head s c t : lstrip s = c :: t -> isspace c = false.
Proof.
  induction s as [|a s IH]; simpl; [discriminate|].
  destruct (isspace a) eqn:Ha; [exact IH|].
  intros H. injection H as <- _. exact Ha.
Qed.

Lemma strip_head s c t : strip s = c :: t -> isspace c = false.
Proof.
  unfold strip, rstrip. intros H.
  destruct (lstrip s) as [|a l] eqn:Hl; [discriminate|].
  pose proof (lstrip_head _ _ _ Hl) as Ha.
  (* the last character of [rev (a :: l)] after its own spaces are gone *)
  assert (Hsuffix : forall x, exists pre, x = pre ++ lstrip x).
  { induction x as [|y x IHx]; simpl; [exists []; reflexivity|].
    destruct (isspace y); [|exists []; reflexivity].
    destruct IHx as [pre Hpre]. exists (y :: pre). simpl. congruence. }
  destruct (Hsuffix (rev (a :: l))) as [pre Hpre].
  apply (f_equal (@rev char)) in Hpre. rewrite rev_involutive, rev_app_distr in Hpre.
  rewrite H in Hpre. injection Hpre as <- _. exact Ha.
Qed.

Section Engine.
Context {uni : Unicode}.

Definition spaces : regex := Repeat (Class false [ISpace]) 0 None true.

Lemma space_step st :
matches no_flags (Class false [ISpace]) st
= match rest st with
  | c :: s' => if isspace c
               then [{| pos := S (pos st); rest := s'; groups := groups st |}]
               else []
  | [] => []
  end.
Proof.
cbn [matches]. unfold consume, in_items. simpl.
destruct (rest st) as [|c s']; [reflexivity|].
rewrite !orb_false_r. reflexivity.
Qed.

(** The greedy [\s*] first takes every space there is. *)
Lemma spaces_head s : forall fuel p g,
length s < fuel ->
exists tl,
  repeat (matches no_flags (Class false [ISpace])) fuel 0 None true
    {| pos := p; rest := s; groups := g |}
  = {| pos := p + (length s - length (lstrip s)); rest := lstrip s; groups := g |}
    :: tl.
Proof.
induction s as [|c s IH]; intros fuel p g Hfuel;
  (destruct fuel as [|fuel]; [simpl in Hfuel; lia|]); cbn [repeat].
- rewrite space_step. simpl. exists []. f_equal. f_equal. clear Hfuel. lia.
- rewrite space_step. cbn [rest pos groups lstrip].
  destruct (isspace c) eqn:Hc.
  + cbn [flat_map]. cbn [pos].
    destruct (Nat.eqb_spec (S p) p) as [Heq|_]; [lia|].
    destruct (IH fuel (S p) g) as [tl Htl]; [simpl in Hfuel; lia|].
    change (Nat.pred 0) with 0. change (option_map Nat.pred None) with (@None nat).
    rewrite Htl. eexists. cbn [app]. f_equal. f_equal.
    pose proof (lstrip_length s). cbn [length]. lia.
  + cbn [flat_map app Nat.eqb]. exists []. f_equal. f_equal. lia.
Qed.

Definition reply_prefix : regex :=
Seq Bol
  (Seq spaces
     (Seq (Class false [IChar 82; IChar 114])
        (Seq (Class false [IChar 69; IChar 101])
           (Seq (Char 58) spaces))))%N.

Lemma reply_prefix_compiled : compile "^\s*[Rr][Ee]:\s*" = reply_prefix.
Proof. vm_compute. reflexivity. Qed.

Lemma letter_step x y st :
matches no_flags (Class false [IChar x; IChar y]) st
= match rest st with
  | c :: s' => if ((c =? x) || (c =? y))%N
               then [{| pos := S (pos st); rest := s'; groups := groups st |}]
               else []
  | [] => []
  end.
Proof.
cbn [matches]. unfold consume, in_items. simpl.
destruct (rest st) as [|c s']; [reflexivity|].
rewrite !orb_false_r, (N.eqb_sym x c), (N.eqb_sym y c). reflexivity.
Qed.

Lemma colon_step x st :
matches no_flags (Char x) st
= match rest st with
  | c :: s' => if (c =? x)%N
               then [{| pos := S (pos st); rest := s'; groups := groups st |}]
               else []
  | [] => []
  end.
Proof.
cbn [matches]. unfold consume, char_matches. simpl.
destruct (rest st) as [|c s']; [reflexivity|].
rewrite orb_false_r, (N.eqb_sym x c). reflexivity.
Qed.

(** After the start of the text the pattern matches nowhere: what is left
  is copied. *)
Lemma sub_after_start repl fuel : forall p s g,
p <> 0 ->
sub_from no_flags reply_prefix repl fuel {| pos := p; rest := s; groups := g |} = s.
Proof.
induction fuel as [|fuel IH]; intros p s g Hp; [reflexivity|].
cbn [sub_from].
assert (Hnone : matches no_flags reply_prefix
                  {| pos := p; rest := s; groups := g |} = []).
{ unfold reply_prefix. cbn [matches pos].
  destruct (Nat.eqb_spec p 0) as [Heq|_]; [contradiction|]. reflexivity. }
rewrite Hnone. cbn [rest pos].
destruct s as [|c s]; [reflexivity|]. f_equal. apply IH. discriminate.
Qed.

Lemma matches_spaces st :
matches no_flags spaces st
= repeat (matches no_flags (Class false [ISpace])) (S (length (rest st)))
    0 None true st.
Proof. reflexivity. Qed.

(** Before a character that is no space, [\s*] takes nothing. *)
Lemma spaces_none fuel st :
(forall c s, rest st = c :: s -> isspace c = false) ->
repeat (matches no_flags (Class false [ISpace])) (S fuel) 0 None true st = [st].
Proof.
intros Hhead. cbn [repeat]. rewrite space_step.
destruct (rest st) as [|c s] eqn:Hr; [reflexivity|].
rewrite (Hhead c s eq_refl). reflexivity.
Qed.

(** What the pattern finds at the start of a text that begins with no
  space. *)
Lemma reply_prefix_at_start t :
(forall c s, t = c :: s -> isspace c = false) ->
exists tl,
  matches no_flags reply_prefix (start_of t)
  = match t with
    | a :: b :: c :: s =>
        if is_reply_mark a b c
        then {| pos := 3 + (length s - length (lstrip s)); rest := lstrip s;
                groups := [] |} :: tl
        else []
    | _ => []
    end.
Proof.
intros Hhead. unfold reply_prefix.
rewrite (matches_seq no_flags).
change (matches no_flags Bol (start_of t)) with [start_of t].
cbn [flat_map]. rewrite app_nil_r, (matches_seq no_flags), matches_spaces.
rewrite spaces_none by exact Hhead.
cbn [flat_map]. rewrite app_nil_r, (matches_seq no_flags), letter_step.
unfold start_of. cbn [rest pos groups].
destruct t as [|a [|b [|c s]]]; try (exists []; reflexivity).
- exists []. destruct (_ || _); reflexivity.
- exists []. destruct ((a =? 82) || (a =? 114))%N; [|reflexivity].
  cbn [flat_map]. rewrite app_nil_r, (matches_seq no_flags), letter_step. cbn [rest].
  destruct (_ || _); reflexivity.
- unfold is_reply_mark.
  destruct ((a =? 82) || (a =? 114))%N; [|exists []; reflexivity].
  cbn [flat_map]. rewrite app_nil_r, (matches_seq no_flags), letter_step.
  cbn [rest pos groups].
  destruct ((b =? 69) || (b =? 101))%N; [|exists []; reflexivity].
  cbn [flat_map]. rewrite app_nil_r, (matches_seq no_flags), colon_step.
  cbn [rest pos groups].
  destruct (c =? 58)%N; [|exists []; reflexivity].
  cbn [flat_map andb]. rewrite app_nil_r, matches_spaces. cbn [rest].
  destruct (spaces_head s (S (length s)) 3 []) as [tl Htl]; [lia|].
  exists tl. exact Htl.
Qed.

(** [re.sub(r'^\s*[Rr][Ee]:\s*', '', t)] on a stripped text. *)
Lemma sub_reply_prefix t :
(forall c s, t = c :: s -> isspace c = false) ->
sub no_flags reply_prefix [] t = drop_reply_mark t.
Proof.
intros Hhead. unfold sub. cbn [sub_from].
destruct (reply_prefix_at_start t Hhead) as [tl Hm]. rewrite Hm.
unfold drop_reply_mark, start_of. cbn [rest pos].
destruct t as [|a [|b [|c s]]].
- reflexivity.
- f_equal; try (apply sub_after_start; discriminate).
- f_equal; try (apply sub_after_start; discriminate).
- destruct (is_reply_mark a b c).
  + cbn [pos rest Nat.eqb app]. apply sub_after_start. discriminate.
  + f_equal; try (apply sub_after_start; discriminate).
Qed.

(** The cleaned subject is the stripped subject without its [Re:]. *)
Lemma clean_subject_drops_reply_mark subject :
clean_subject subject = strip (drop_reply_mark (strip subject)).
Proof.
unfold clean_subject. rewrite reply_prefix_compiled. f_equal.
apply sub_reply_prefix. intros c s H. eapply strip_head. eassumption.
Qed.
End Engine.
End ReplyMark.


Module ParserFacts.
Import EmailClient Re Parser ReFacts ReplyMark.

Section Facts.
Context {uni : Unicode}.

Lemma operator_by_pattern_nonempty patterns text s :
  operator_by_pattern patterns text = Found s -> s <> [].
Proof.
  induction patterns as [|p rest IH]; simpl; [discriminate|].
  destruct (search IGNORECASE p text) as [m|]; [|exact IH].
  destruct (group 1 m) as [g|]; [|discriminate].
  destruct (strip (sub no_flags (compile "[^\w\s]") [] (strip g)))
    as [|c o]; [exact IH|].
  destruct (contains _ _); intros H; injection H as <-; discriminate.
Qed.

(** An operator that is extracted is not the empty string. *)
Lemma _extract_operator_nonempty text s :
  _extract_operator text = Some s -> s <> [].
Proof.
  unfold _extract_operator.
  destruct (operator_by_pattern operator_patterns text) as [o| |] eqn:Ho.
  - intros H. injection H as <-.
    eapply operator_by_pattern_nonempty. eassumption.
  - intros H. apply find_some in H. destruct H as [Hin _].
    vm_compute in Hin.
    repeat (destruct Hin as [<-|Hin]; [discriminate|]). contradiction.
  - discriminate.
Qed.

Variable digits_not_space : forall c, isdecimal c = true -> isspace c = false.

Lemma first_group_nonempty patterns text s :
  forallb ends_in_digit_group patterns = true ->
  first_group patterns text = Found s -> s <> [].
Proof.
  induction patterns as [|p rest IH]; simpl; [discriminate|].
  intros Hshape. apply andb_prop in Hshape. destruct Hshape as [Hp Hrest].
  destruct (search IGNORECASE p text) as [m|] eqn:Hs; [|apply IH; exact Hrest].
  destruct (search_digit_group _ _ _ _ Hp Hs) as [c [g [-> Hd]]].
  intros H. injection H as <-.
  apply strip_nonempty. apply digits_not_space. exact Hd.
Qed.

(** A start or end time that is extracted is not the empty string. *)
Lemma _extract_start_time_nonempty text s :
  _extract_start_time text = Some s -> s <> [].
Proof.
  unfold _extract_start_time, found.
  destruct (first_group start_time_patterns text) eqn:Hf; try discriminate.
  intros H. injection H as <-.
  eapply first_group_nonempty; [|eassumption]. vm_compute. reflexivity.
Qed.

Lemma _extract_end_time_nonempty text s :
  _extract_end_time text = Some s -> s <> [].
Proof.
  unfold _extract_end_time, found.
  destruct (first_group end_time_patterns text) eqn:Hf; try discriminate.
  intros H. injection H as <-.
  eapply first_group_nonempty; [|eassumption]. vm_compute. reflexivity.
Qed.

Lemma truthy_extracted (o : option str) :
  (forall s, o = Some s -> s <> []) -> truthy o = true <-> o <> None.
Proof.
  intros H. destruct o as [[|c s]|]; simpl.
  - exfalso. apply (H [] eq_refl). reflexivity.
  - split; [discriminate|reflexivity].
  - split; [discriminate|congruence].
Qed.
End Facts.

(** C4. [parse_email] returns a record exactly when at least one of the
    operator, the start time and the end time was extracted from the
    subject and the body; the record then carries what each extraction
    gave, absent fields included, and nothing is returned when none of
    the three was found, whatever the description. (The decimal digits of
    the character database are no whitespace.) *)
Theorem acceptance_gate {uni : Unicode} (now : datetime) (e : email_data) :
  (forall c, isdecimal c = true -> isspace c = false) ->
  let subject := get_or_empty (ed_subject e) in
  let body := get_or_empty (ed_body e) in
  let full_text := subject ++ [10%N] ++ body in
  (parse_email now e <> None <->
     _extract_operator full_text <> None
     \/ _extract_start_time full_text <> None
     \/ _extract_end_time full_text <> None)
  /\ forall r, parse_email now e = Some r ->
       operator r = _extract_operator full_text
       /\ start_time r = _extract_start_time full_text
       /\ end_time r = _extract_end_time full_text
       /\ work_type r = _extract_work_type (Some subject) full_text
       /\ description r = _extract_description body.
Proof.
  intros Hdigits subject body full_text.
  pose proof (truthy_extracted (_extract_operator full_text)
                (_extract_operator_nonempty full_text)) as Hop.
  pose proof (truthy_extracted (_extract_start_time full_text)
                (_extract_start_time_nonempty Hdigits full_text)) as Hst.
  pose proof (truthy_extracted (_extract_end_time full_text)
                (_extract_end_time_nonempty Hdigits full_text)) as Hen.
  unfold parse_email. fold subject body full_text. cbn [operator start_time end_time].
  destruct (truthy (_extract_operator full_text)
            || truthy (_extract_start_time full_text)
            || truthy (_extract_end_time full_text)) eqn:Hgate.
  - split.
    + split; [|discriminate]. intros _.
      apply orb_prop in Hgate. destruct Hgate as [Hgate|Hgate].
      * apply orb_prop in Hgate. destruct Hgate as [H|H];
          [left; apply Hop|right; left; apply Hst]; exact H.
      * right. right. apply Hen. exact Hgate.
    + intros r H. injection H as <-. repeat split; reflexivity.
  - split.
    + split; [congruence|]. intros H. exfalso.
      apply orb_false_elim in Hgate. destruct Hgate as [Hgate H3].
      apply orb_false_elim in Hgate. destruct Hgate as [H1 H2].
      destruct H as [H|[H|H]];
        [apply Hop in H|apply Hst in H|apply Hen in H]; congruence.
    + discriminate.
Qed.

(** C7. When the subject, stripped and without a leading [Re:], contains
    one of the work indicators, the work type is that cleaned subject,
    whatever the text holds; so it is in every record [parse_email]
    returns. *)
Theorem subject_is_work_type {uni : Unicode} (now : datetime)
    (e : email_data) (subject : str) :
  ed_subject e = Some subject ->
  subject <> [] ->
  let cleaned := strip (drop_reply_mark (strip subject)) in
  contains_any (str_lower cleaned) work_indicators = true ->
  (forall text, _extract_work_type (Some subject) text = Some cleaned)
  /\ forall r, parse_email now e = Some r -> work_type r = Some cleaned.
Proof.
  intros Hsubject Hne cleaned Hind. subst cleaned.
  rewrite <- clean_subject_drops_reply_mark in *.
  assert (Hwt : forall text, _extract_work_type (Some subject) text
                             = Some (clean_subject subject)).
  { intros text. unfold _extract_work_type.
    destruct subject as [|c s]; [congruence|]. rewrite Hind. reflexivity. }
  split; [exact Hwt|].
  intros r. unfold parse_email. rewrite Hsubject. cbn [get_or_empty].
  destruct (_ || _); [|discriminate].
  intros H. injection H as <-. cbn [work_type]. apply Hwt.
Qed.

#[local] Existing Instance Tables.latin_cyrillic.

Lemma latin_cyrillic_digits c : isdecimal c = true -> isspace c = false.
Proof.
  simpl. unfold isspace. intros H.
  apply andb_prop in H. destruct H as [H1 H2].
  apply N.leb_le in H1. apply N.leb_le in H2.
  replace (c <=? 13)%N with false by (symmetry; apply N.leb_gt; lia).
  replace (28 <=? c)%N with true by (symmetry; apply N.leb_le; lia).
  replace (c <=? 32)%N with false by (symmetry; apply N.leb_gt; lia).
  replace (8192 <=? c)%N with false by (symmetry; apply N.leb_gt; lia).
  repeat match goal with
         | |- context [(c =? ?k)%N] =>
             replace (c =? k)%N with false by (symmetry; apply N.eqb_neq; lia)
         end.
  rewrite !andb_false_r. reflexivity.
Qed.

Definition email (subject body : string) : email_data :=
  {| ed_id := Some 1%N; ed_subject := Some (u subject);
     ed_from := Some (u "no-reply@devinotele.com");
     ed_date := Some (u "2025-06-19 18:30:00"); ed_body := Some (u body) |}.

(** A letter that names an operator and nothing else, and one with a
    description alone. *)
Definition operator_only : email_data := email "" "Билайн".
Definition description_only : email_data :=
  email "Привет" "<p>Просто   письмо</p>".

Lemma acceptance_gate_witness :
  (exists r, parse_email (naive 0) operator_only = Some r
             /\ operator r = Some (u "Билайн")
             /\ start_time r = None /\ end_time r = None /\ work_type r = None)
  /\ parse_email (naive 0) description_only = None
  /\ _extract_description (u "<p>Просто   письмо</p>") = u "Просто письмо".
Proof.
  destruct (@acceptance_gate Tables.latin_cyrillic (naive 0) operator_only
              latin_cyrillic_digits) as [Hiff Hfields].
  destruct (@acceptance_gate Tables.latin_cyrillic (naive 0) description_only
              latin_cyrillic_digits) as [Hiff' _].
  split; [|split].
  - destruct (parse_email (naive 0) operator_only) as [r|] eqn:Hr.
    + exists r. split; [reflexivity|].
      destruct (Hfields r eq_refl) as [H1 [H2 [H3 [H4 _]]]].
      rewrite H1, H2, H3, H4. vm_compute. repeat split; reflexivity.
    + exfalso. apply (proj2 Hiff); [|reflexivity].
      left. vm_compute. discriminate.
  - destruct (parse_email (naive 0) description_only) as [r|] eqn:Hr;
      [|reflexivity].
    exfalso. assert (Hsome : Some r <> None) by discriminate.
    apply (proj1 Hiff') in Hsome. vm_compute in Hsome.
    destruct Hsome as [H|[H|H]]; apply H; reflexivity.
  - vm_compute. reflexivity.
Defined.

Definition reply : email_data :=
  email "Re: Внеплановые работы на платформе X" "Текст без типа.".

Lemma subject_is_work_type_witness :
  strip (drop_reply_mark (strip (u "Re: Внеплановые работы на платформе X")))
    = u "Внеплановые работы на платформе X"
  /\ exists r, parse_email (naive 0) reply = Some r
               /\ work_type r = Some (u "Внеплановые работы на платформе X").
Proof.
  destruct (@subject_is_work_type Tables.latin_cyrillic (naive 0) reply
              (u "Re: Внеплановые работы на платформе X"))
    as [_ Hrecord].
  - reflexivity.
  - vm_compute. discriminate.
  - vm_compute. reflexivity.
  - split; [vm_compute; reflexivity|].
    destruct (parse_email (naive 0) reply) as [r|] eqn:Hr.
    + exists r. split; [reflexivity|]. rewrite (Hrecord r eq_refl).
      vm_compute. reflexivity.
    + vm_compute in Hr. discriminate.
Defined.

End ParserFacts.

Module LedgerFacts.
Import Telegram TelegramFacts.

(** The hash appended last survives the cut to 100 entries. *)
Lemma capped_last (l : list str) (h : str) : In h (capped (l ++ [h])).
Proof.
  unfold capped, slice_last. rewrite length_app. cbn [length].
  destruct (Nat.ltb_spec 100 (length l + 1)) as [Hlong|_].
  - rewrite skipn_app. apply in_or_app. right.
    replace (length l + 1 - 100 - length l) with 0 by lia.
    left. reflexivity.
  - apply in_or_app. right. left. reflexivity.
Qed.

(** Where a hash that occurs once stands decides whether it survives
    [skipn]. *)
Lemma In_skipn_once (l hs : list str) (h : str) (k : nat) :
  ~ In h l -> ~ In h hs ->
  (In h (skipn k (l ++ h :: hs)) <-> k <= length l).
Proof.
  intros Hl Hhs. split.
  - intros Hin. destruct (Nat.le_gt_cases k (length l)) as [|Hgt]; [assumption|].
    exfalso. rewrite skipn_app, skipn_all2 in Hin by lia. cbn [app] in Hin.
    destruct (k - length l) as [|j] eqn:Hj; [lia|]. cbn [skipn] in Hin.
    apply Hhs. rewrite <- (firstn_skipn j hs). apply in_or_app. now right.
  - intros Hle. rewrite skipn_app. apply in_or_app. right.
    replace (k - length l) with 0 by lia. left. reflexivity.
Qed.

Lemma In_capped_once (l hs : list str) (h : str) :
  ~ In h l -> ~ In h hs ->
  (In h (capped (l ++ h :: hs)) <-> length hs < 100).
Proof.
  intros Hl Hhs. unfold capped, slice_last. rewrite length_app. cbn [length].
  destruct (Nat.ltb_spec 100 (length l + S (length hs))) as [Hlong|Hshort].
  - rewrite (In_skipn_once l hs h _ Hl Hhs). lia.
  - split; [lia|]. intros _. apply in_or_app. right. left. reflexivity.
Qed.

Section Facts.
Context {E : Type} {os : OS E} {api : Api E}.

Lemma hashes_of_map (ms hs : list str) :
  map _create_message_hash ms = map Ok hs ->
  Forall2 (fun m h => _create_message_hash m = Ok h) ms hs.
Proof.
  revert hs. induction ms as [|m ms IH]; intros [|h hs] Hmap; try discriminate.
  - constructor.
  - injection Hmap as Hm Hrest. constructor; auto.
Qed.

(** A message whose hash is in the ledger: nothing happens. *)
Lemma send_known (w : notifier E) (message parse_mode : str) (silent : bool)
    (h : str) :
  _create_message_hash message = Ok h ->
  In h (sent_messages w) ->
  send_message message parse_mode silent w = (Ok true, w).
Proof.
  intros Hh Hin.
  unfold send_message, try_except, bind, lift, gets. rewrite Hh.
  apply existsb_str_eqb in Hin. rewrite Hin. reflexivity.
Qed.

(** The ways [send_message] ends. *)
Inductive outcome (message : str) (silent : bool) (w : notifier E)
    : bool -> notifier E -> Prop :=
| Unhashable x :
    _create_message_hash message = Raise x ->
    outcome message silent w false w
| Known h :
    _create_message_hash message = Ok h ->
    In h (sent_messages w) ->
    outcome message silent w true w
| Refused h x e1 parse_mode :
    _create_message_hash message = Ok h ->
    ~ In h (sent_messages w) ->
    bot_send_message message parse_mode silent (env w) = (Raise x, e1) ->
    outcome message silent w false
      (log_call (EvSendMessage message silent) (set_env e1 w))
| Sent h w' :
    _create_message_hash message = Ok h ->
    ~ In h (sent_messages w) ->
    sent_messages w' = capped (sent_messages w ++ [h]) ->
    calls w' = EvSendMessage message silent :: calls w ->
    (sent_messages_file w' = sent_messages_file w
     \/ exists t, sent_messages_file w'
                  = Some (LedgerJson (Some (sent_messages w')) t)) ->
    outcome message silent w true w'.

Lemma send_message_cases (w : notifier E) (message parse_mode : str)
    (silent : bool) :
  exists b w', send_message message parse_mode silent w = (Ok b, w')
               /\ outcome message silent w b w'.
Proof.
  unfold send_message, try_except, bind at 1, lift.
  destruct (_create_message_hash message) as [h|x] eqn:Hh.
  - unfold bind at 1, gets.
    destruct (existsb (str_eqb h) (sent_messages w)) eqn:Hex.
    + exists true, w. split; [reflexivity|].
      apply (Known _ _ _ h); [assumption|]. now apply existsb_str_eqb.
    + assert (Hnew : ~ In h (sent_messages w)).
      { intros Hin. apply existsb_str_eqb in Hin. congruence. }
      unfold bind at 1, send_api.
      destruct (bot_send_message message parse_mode silent (env w))
        as [[id|x] e1] eqn:Hapi.
      * unfold bind, modify.
        match goal with |- context [_save_sent_messages ?w1] =>
          destruct (save_never_raises w1) as [w' [Hs [Hl [Hc Hf]]]] end.
        rewrite Hs. unfold ret. exists true, w'. split; [reflexivity|].
        apply (Sent _ _ _ h); try assumption.
      * unfold ret. exists false. eexists. split; [reflexivity|].
        eapply Refused; eassumption.
  - unfold ret. exists false, w. split; [reflexivity|].
    eapply Unhashable; eassumption.
Qed.


(** X2. Once [send_message] has returned [True] for a text, sending the
    same text again right away does nothing and returns [True] again,
    whatever the parse mode and the sound setting: no second call to the
    Bot API, no write. *)
Theorem resend_is_suppressed (w w1 : notifier E) (message : str)
    (parse_mode parse_mode' : str) (silent silent' : bool) :
  send_message message parse_mode silent w = (Ok true, w1) ->
  send_message message parse_mode' silent' w1 = (Ok true, w1).
Proof.
  intros Hfirst.
  destruct (send_message_cases w message parse_mode silent)
    as [b [w' [Hs Hout]]].
  rewrite Hfirst in Hs. injection Hs as <- <-.
  inversion Hout as [|h Hh Hin|
                     |h w'' Hh Hnew Hl Hc Hf]; subst.
  - apply (send_known _ _ _ _ h); assumption.
  - apply (send_known _ _ _ _ h); [assumption|].
    rewrite Hl. apply capped_last.
Qed.


(** X4. The ledger remembers the last 100 hashes only. A message, then
    [ms] other messages, all with hashes that differ from one another and
    from those in the ledger, all accepted and saved; then the first
    message once more: it is suppressed when [ms] has fewer than 100
    messages, and goes to the Bot API a second time when [ms] has 100 or
    more. *)
Theorem evicted_message_sent_again (w : notifier E) (m0 h0 : str)
    (ms hs : list str) (parse_mode : str) (silent : bool) :
  api_accepts -> disk_writable ->
  _create_message_hash m0 = Ok h0 ->
  Forall2 (fun m h => _create_message_hash m = Ok h) ms hs ->
  NoDup (h0 :: hs) ->
  (forall h, In h (h0 :: hs) -> ~ In h (sent_messages w)) ->
  exists w1 w2,
    send_all (m0 :: ms) w = (Ok (map (fun _ => true) (m0 :: ms)), w1)
    /\ send_message m0 parse_mode silent w1 = (Ok true, w2)
    /\ calls w2 = if length ms <? 100 then calls w1
                  else EvSendMessage m0 silent :: calls w1.
Proof.
  intros Hapi Hdisk Hh0 Hall Hnd Hfresh.
  destruct (send_all_new (m0 :: ms) (h0 :: hs) w Hapi Hdisk
              (Forall2_cons _ _ Hh0 Hall) Hnd Hfresh)
    as [w1 [Hs [Hl [Hc _]]]].
  rewrite appended_capped in Hl by discriminate.
  inversion Hnd as [|? ? Hnotin _]; subst.
  pose proof (In_capped_once (sent_messages w) hs h0
                (Hfresh h0 (or_introl eq_refl)) Hnotin) as Hiff.
  rewrite <- Hl in Hiff.
  assert (Hlen : length ms = length hs) by (eapply Forall2_length; eassumption).
  exists w1. destruct (Nat.ltb_spec (length ms) 100) as [Hshort|Hlong].
  - exists w1. split; [exact Hs|]. split; [|reflexivity].
    apply (send_known _ _ _ _ h0); [assumption|]. apply Hiff. lia.
  - assert (Hgone : ~ In h0 (sent_messages w1)) by (rewrite Hiff; lia).
    destruct (send_new w1 m0 parse_mode silent h0 Hapi Hdisk Hh0 Hgone)
      as [w2 [t [Hs2 [_ [Hc2 _]]]]].
    exists w2. split; [exact Hs|]. split; [exact Hs2|exact Hc2].
Qed.

End Facts.

(** The first of 101 messages, after the other 100: sent again. *)
Lemma evicted_message_sent_again_witness :
  exists w1 w2,
    send_all (os := sim_os) (api := sim_api) sim_messages (sim_start [])
      = (Ok (map (fun _ => true) sim_messages), w1)
    /\ send_message (os := sim_os) (api := sim_api) [0%N] (u "Markdown") false w1
       = (Ok true, w2)
    /\ calls w2 = EvSendMessage [0%N] false :: calls w1.
Proof.
  destruct (@evicted_message_sent_again Z sim_os sim_api (sim_start [])
              [0%N] [0%N] (skipn 1 sim_messages) (skipn 1 sim_messages)
              (u "Markdown") false)
    as [w1 [w2 [Hs [Hs2 Hc]]]].
  - intros text pm s e. do 2 eexists. reflexivity.
  - intros path e. eexists. reflexivity.
  - reflexivity.
  - apply hashes_of_map. vm_compute. reflexivity.
  - change ([0%N] :: skipn 1 sim_messages) with sim_messages.
    assert (H : nodup (list_eq_dec N.eq_dec) sim_messages = sim_messages)
      by (vm_compute; reflexivity).
    rewrite <- H. apply NoDup_nodup.
  - intros h _ [].
  - exists w1, w2. split; [exact Hs|]. split; [exact Hs2|exact Hc].
Defined.

Definition hello : str := u "hello".

(** A message sent, and sent again in another mode. *)
Lemma resend_is_suppressed_witness :
  exists w1,
    send_message (os := sim_os) (api := sim_api) hello (u "Markdown") false
      (sim_start []) = (Ok true, w1)
    /\ send_message (os := sim_os) (api := sim_api) hello (u "HTML") true w1
       = (Ok true, w1)
    /\ calls w1 = [EvSendMessage hello false].
Proof.
  eexists. split; [vm_compute; reflexivity|]. split; [|reflexivity].
  apply (@resend_is_suppressed Z sim_os sim_api (sim_start []) _ hello
           (u "Markdown") (u "HTML") false true).
  vm_compute. reflexivity.
Defined.


End LedgerFacts.

Module MailboxFacts.
Import EmailClient EmailClientFacts Mailbox.



Section Facts.
Context {E : Type} {os : OS E} {imap : Imap E} {uni : Unicode} {lib : Email}.

(** ** The checkpoint, written and read back *)


(** ** What [_ensure_connection] promises *)

Lemma select_mailbox_connection mailbox (w : client E) r w' :
  select_mailbox mailbox w = (r, w') -> connection w' = connection w.
Proof.
  unfold select_mailbox, try_except, bind, on_connection, bind, gets, call, raise, ret.
  destruct (connection w) as [c|] eqn:Hc.
  - destruct (imap_select c mailbox (env w)) as [[res|x] e1].
    + destruct (str_eqb res OK); intros H; injection H as _ <-; exact Hc.
    + intros H; injection H as _ <-; exact Hc.
  - intros H; injection H as _ <-; exact Hc.
Qed.

Lemma _disconnect_internal_file (w : client E) r w' :
  _disconnect_internal w = (r, w') ->
  state_file_content w' = state_file_content w.
Proof.
  apply (_disconnect_internal_keeps
           (fun a b => state_file_content b = state_file_content a));
    try (intros; congruence);
    try (intros ev0 c0 a r0 a' H0; unfold call in H0;
         match type of H0 with
         | (let (_, _) := ?op in _) = _ => destruct op
         end; injection H0 as _ <-; reflexivity).
  intros c0 a r0 a' H0. unfold modify in H0. injection H0 as _ <-. reflexivity.
Qed.

(** X6. When [_ensure_connection] returns [True] there is a connection
    object, and it was just heard from: either the connection from before
    answered [NOOP] with [OK] and nothing else was asked, or a connection
    was opened, logged in and [INBOX] selected, the last two answered with
    [OK]. The state file is not touched. *)
Theorem ensured_connection_is_set (w w' : client E) :
  _ensure_connection w = (Ok true, w') ->
  exists c,
    connection w' = Some c
    /\ state_file_content w' = state_file_content w
    /\ ((connection w = Some c /\ calls w' = EvNoop c :: calls w)
        \/ exists before,
             calls w' = EvSelect c (u "INBOX") :: EvLogin c :: EvOpen :: before).
Proof.
  assert (Hfresh : forall w0 w1 : client E,
            connect_and_select w0 = (Ok true, w1) ->
            exists c, connection w1 = Some c
                      /\ state_file_content w1 = state_file_content w0
                      /\ calls w1 = EvSelect c (u "INBOX") :: EvLogin c
                                      :: EvOpen :: calls w0).
  { intros w0 w1. unfold connect_and_select, bind at 1, connect, try_except at 1.
    unfold bind at 1, gets. unfold bind at 1, call at 1.
    destruct (imap_open (server w0) (port w0) (env w0)) as [[c|x] e1];
      [|unfold ret; discriminate].
    unfold bind at 1, modify. unfold bind at 1, call at 1.
    cbn [env set_connection log_call set_env login password].
    destruct (imap_login c (login w0) (password w0) e1) as [[res|x] e2];
      [|unfold ret; discriminate].
    destruct (str_eqb res OK); unfold ret at 1; [|unfold ret; discriminate].
    unfold select_mailbox, try_except, bind at 1, on_connection, bind at 1, gets.
    cbn [connection log_call set_env set_connection].
    unfold call. cbn [env log_call set_env set_connection].
    destruct (imap_select c (u "INBOX") e2) as [[res2|x] e3];
      [|unfold ret; discriminate].
    destruct (str_eqb res2 OK); unfold ret; [|discriminate].
    intros H. injection H as <-. exists c. repeat split. }
  unfold _ensure_connection, try_except at 1, bind at 1, gets.
  destruct (connection w) as [c|] eqn:Hc.
  - unfold bind at 1, try_except at 1, bind at 1, call at 1.
    destruct (imap_noop c (env w)) as [[res|x] e1].
    + unfold ret at 1. destruct (str_eqb res OK).
      * unfold ret. intros H. injection H as <-. exists c.
        split; [exact Hc|]. split; [reflexivity|]. left. split; reflexivity.
      * unfold bind at 1.
        destruct (_disconnect_internal (log_call (EvNoop c) (set_env e1 w)))
          as [[[]|x] w1] eqn:Hd.
        -- destruct (connect_and_select w1) as [[[|]|x] w2] eqn:Hcs;
             try discriminate.
           intros H. injection H as <-.
           destruct (Hfresh _ _ Hcs) as [c' [H1 [H2 H3]]].
           exists c'. split; [exact H1|]. split.
           ++ rewrite H2. exact (_disconnect_internal_file _ _ _ Hd).
           ++ right. eexists. exact H3.
        -- discriminate.
    + unfold ret at 1. unfold bind at 1.
      destruct (_disconnect_internal (log_call (EvNoop c) (set_env e1 w)))
        as [[[]|x0] w1] eqn:Hd.
      * destruct (connect_and_select w1) as [[[|]|x0] w2] eqn:Hcs;
          try discriminate.
        intros H. injection H as <-.
        destruct (Hfresh _ _ Hcs) as [c' [H1 [H2 H3]]].
        exists c'. split; [exact H1|]. split.
        -- rewrite H2. exact (_disconnect_internal_file _ _ _ Hd).
        -- right. eexists. exact H3.
      * discriminate.
  - destruct (connect_and_select w) as [[[|]|x] w1] eqn:Hcs; try discriminate.
    intros H. injection H as <-.
    destruct (Hfresh _ _ Hcs) as [c' [H1 [H2 H3]]].
    exists c'. split; [exact H1|]. split; [exact H2|]. right. eexists. exact H3.
Qed.

(** ** A search that fails on a live connection *)

Lemma load_last_check_time_same (w : client E) :
  exists v, load_last_check_time w = (Ok v, w).
Proof.
  unfold load_last_check_time, try_except, bind, gets, ret, raise.
  destruct (state_file_content w) as [[[t|] x|]|]; eauto.
Qed.

(** When [SEARCH] raises, [search_new_emails_from_sender] returns the
    empty list. *)
Lemma search_raising (sender : str) (w : client E) (c : N) :
  connection w = Some c ->
  (forall q e, exists x e', imap_search c q e = (Raise x, e')) ->
  exists w' q,
    search_new_emails_from_sender sender w = (Ok [], w')
    /\ calls w' = EvSearch c q :: calls w
    /\ connection w' = Some c
    /\ state_file w' = state_file w
    /\ state_file_content w' = state_file_content w
    /\ (env w' = snd (imap_search c q (env w))
        \/ env w' = snd (imap_search c q (snd (clock_read (env w))))).
Proof.
  intros Hc Hraise.
  unfold search_new_emails_from_sender, try_except, bind at 1.
  destruct (load_last_check_time_same w) as [last ->].
  destruct last as [t|].
  - unfold bind at 1, ret at 1. unfold bind at 1, on_connection, bind at 1, gets.
    rewrite Hc. unfold call.
    destruct (Hraise {| crit_from := sender; crit_since := day_of t |} (env w))
      as [x [e' He]]. rewrite He. unfold ret.
    do 2 eexists. split; [reflexivity|]. repeat split; try assumption.
    left. cbn [env log_call set_env]. rewrite He. reflexivity.
  - unfold bind at 1. unfold bind at 1, datetime_now.
    destruct (clock_read (env w)) as [now e1] eqn:Hnow. unfold ret at 1.
    unfold bind at 1, on_connection, bind at 1, gets.
    cbn [connection set_env]. rewrite Hc. unfold call. cbn [env set_env].
    destruct (Hraise {| crit_from := sender;
                        crit_since := day_of (minus_hours (naive now) 24) |} e1)
      as [x [e' He]]. rewrite He. unfold ret.
    do 2 eexists. split; [reflexivity|]. repeat split; try assumption.
    right. cbn [env log_call set_env snd]. rewrite He. reflexivity.
Qed.

(** C2 on the code. A fetch that fails moves the checkpoint. With a
    connection that answers [NOOP] and a [SEARCH] that raises, whatever it
    raises, [get_new_emails_from_sender] with [update_state=True] makes
    one pass and returns the empty list: the failure is caught inside
    [search_new_emails_from_sender], which returns as if nothing were new,
    and the checkpoint is set to the time it is then. A state file whose
    checkpoint was in the past is not as it was. *)
Theorem failed_search_moves_checkpoint (time_of : E -> Z) (sender : str)
    (rc : Z) (w : client E) (c : N) (e1 : E) :
  monotone_time time_of -> disk_writable ->
  (0 < rc)%Z ->
  connection w = Some c ->
  imap_noop c (env w) = (Ok OK, e1) ->
  (forall q e, exists x e', imap_search c q e = (Raise x, e')) ->
  exists w' q t updated_at,
    get_new_emails_from_sender sender true rc w = (Ok [], w')
    /\ calls w' = [EvWriteState; EvSearch c q; EvNoop c] ++ calls w
    /\ state_file_content w'
       = Some (StateJson (Some (naive t)) updated_at)
    /\ (time_of (env w) <= t)%Z
    /\ forall old updated_before,
         state_file_content w = Some (StateJson (Some old) updated_before) ->
         (wall old < time_of (env w))%Z ->
         state_file_content w' <> state_file_content w.
Proof.
  intros Htime Hdisk Hrc Hc Hnoop Hraise.
  unfold get_new_emails_from_sender, bind at 1, get_new_emails, retry_loop.
  destruct (Z.to_nat rc) as [|n] eqn:Hn; [lia|]. cbn [attempts].
  unfold bind at 1, attempt_once, try_except at 1, bind at 1, try_block, bind at 1.
  assert (Hens : _ensure_connection w
                 = (Ok true, log_call (EvNoop c) (set_env e1 w))).
  { unfold _ensure_connection, try_except, bind, gets, call, ret.
    rewrite Hc, Hnoop. reflexivity. }
  rewrite Hens. cbn [negb]. unfold bind at 1.
  destruct (search_raising sender (log_call (EvNoop c) (set_env e1 w)) c Hc Hraise)
    as [w2 [q [Hs [Hcalls [Hc2 [Hpath [Hfile Henv]]]]]]].
  rewrite Hs. unfold bind at 1.
  unfold save_last_check_time, try_except at 1, bind at 1, datetime_now.
  pose proof (time_clock_read time_of Htime (env w2)) as Ht1.
  destruct (clock_read (env w2)) as [t e3]. unfold bind at 1.
  cbn [env set_env]. destruct (clock_read e3) as [t2 e4].
  unfold write_state. cbn [env set_env state_file].
  destruct (Hdisk (state_file w2) e4) as [e5 ->]. unfold ret.
  cbn [fst snd] in Ht1.
  assert (H1 : (time_of (env w) <= time_of e1)%Z).
  { pose proof (time_imap_noop time_of Htime c (env w)) as H.
    rewrite Hnoop in H. exact H. }
  assert (H2 : (time_of e1 <= time_of (env w2))%Z).
  { cbn [env log_call set_env] in Henv. destruct Henv as [-> | ->].
    - apply (time_imap_search time_of Htime).
    - pose proof (time_clock_read time_of Htime e1).
      pose proof (time_imap_search time_of Htime c q (snd (clock_read e1))).
      lia. }
  eexists. exists q, t, (naive t2). split; [reflexivity|].
  split; [cbn [calls log_call set_state_file_content set_env]; rewrite Hcalls;
          reflexivity|].
  split; [reflexivity|]. split; [lia|].
  intros old ub Hold Hpast.
  cbn [state_file_content log_call set_state_file_content set_env].
  rewrite Hold. intros Heq. injection Heq as Heq _. subst old.
  cbn [wall naive] in Hpast. lia.
Qed.

(** ** The messages that come back *)





(** ** A checkpoint with a UTC offset *)

Lemma keep_newer_aware (t : datetime) (off : Z) (ids : list N) :
  tzinfo t = Some off ->
  forall (w : client E) r w',
    keep_newer t ids w = (r, w') -> r = Ok [] \/ exists x, r = Raise x.
Proof.
  intros Ht. induction ids as [|i ids IH]; intros w r w'; cbn [keep_newer].
  - unfold ret. intros H. injection H as <- _. now left.
  - unfold bind at 1.
    destruct (_get_email_date i w) as [[[d|]|x] w1] eqn:Hd.
    + pose proof (_get_email_date_naive _ _ _ _ Hd) as Hnaive.
      unfold bind at 1, lift, datetime_gt. rewrite Hnaive, Ht.
      intros H. injection H as <- _. right. eauto.
    + unfold bind at 1, ret at 1. unfold bind.
      destruct (keep_newer t ids w1) as [[l|x] w2] eqn:Hk.
      * destruct (IH _ _ _ Hk) as [Hl|[x Hx]]; [|discriminate].
        injection Hl as ->. unfold ret. intros H. injection H as <- _. now left.
      * intros H. injection H as <- _. right. eauto.
    + intros H. injection H as <- _. right. eauto.
Qed.

(** X8. With a checkpoint that carries a UTC offset in the state file,
    [search_new_emails_from_sender] finds nothing, whatever the mailbox
    holds: the dates of the messages are made naive, and comparing one
    with the checkpoint raises, which the method takes for an empty
    result. *)
Theorem aware_checkpoint_finds_nothing (sender : str) (w : client E)
    (t updated_at : datetime) (off : Z) :
  state_file_content w = Some (StateJson (Some t) updated_at) ->
  tzinfo t = Some off ->
  exists w', search_new_emails_from_sender sender w = (Ok [], w').
Proof.
  intros Hfile Ht.
  unfold search_new_emails_from_sender, try_except, bind at 1.
  unfold load_last_check_time at 1, try_except at 1, bind at 1, gets.
  rewrite Hfile. unfold ret at 1. unfold bind at 1, ret at 1.
  unfold bind at 1.
  destruct (on_connection _ w) as [[[res ids]|x] w1]; [|unfold ret; eauto].
  destruct (negb (str_eqb res OK)); [unfold ret; eauto|].
  destruct ids as [|i ids]; [unfold ret; eauto|].
  destruct (keep_newer t (i :: ids) w1) as [r w2] eqn:Hk.
  destruct (keep_newer_aware t off _ Ht _ _ _ Hk) as [-> | [x ->]];
    unfold ret; eauto.
Qed.

(** ** The method kept for compatibility *)

(** X9. On a first run [search_new_emails_from_sender] is
    [search_emails_from_sender] with [days_back=1]: with no checkpoint to
    load, and a clock at least a day past [datetime.min], the two do the
    same and give the same. And asked to go back more days than a
    [timedelta] holds, [search_emails_from_sender] returns the empty list
    without a word to the server. *)
Theorem first_run_is_one_day_search (sender : str) (w : client E) :
  load_last_check_time w = (Ok None, w) ->
  (86400000000 <= fst (clock_read (env w)) <= max_wall)%Z ->
  search_new_emails_from_sender sender w = search_emails_from_sender sender 1 w
  /\ forall days_back,
       (999999999 < Z.abs days_back)%Z ->
       exists w', search_emails_from_sender sender days_back w = (Ok [], w')
                  /\ calls w' = calls w.
Proof.
  intros Hload Hclock. split.
  - destruct (clock_read (env w)) as [now e1] eqn:Hnow. cbn [fst] in Hclock.
    assert (Hday : datetime_minus (naive now) (1 * 86400000000)
                   = Ok (minus_hours (naive now) 24)).
    { unfold datetime_minus, minus_hours. cbn [wall naive tzinfo].
      replace (now - 1 * 86400000000)%Z with (now - 24 * 3600000000)%Z by lia.
      destruct (Z.leb_spec 0 (now - 24 * 3600000000)) as [_|Hneg]; [|lia].
      destruct (Z.leb_spec (now - 24 * 3600000000) max_wall) as [_|Hbig]; [|lia].
      reflexivity. }
    cbv [search_new_emails_from_sender search_emails_from_sender try_except
         bind ret lift datetime_now].
    rewrite Hload, Hnow.
    change (timedelta_days 1) with (Ok (1 * 86400000000)%Z).
    cbv iota beta. rewrite Hday.
    destruct (on_connection _ _) as [[[res ids]|x] w1]; [|reflexivity].
    destruct (str_eqb res OK); cbn [negb]; [|reflexivity].
    destruct ids; reflexivity.
  - intros days_back Hbig.
    unfold search_emails_from_sender, try_except, bind at 1, datetime_now.
    destruct (clock_read (env w)) as [now e1].
    unfold bind at 1, lift, timedelta_days.
    destruct (Z.leb_spec (Z.abs days_back) 999999999) as [Hle|_]; [lia|].
    unfold ret. eexists. split; reflexivity.
Qed.

(** ** A failure that is not one of the connection *)

(** C5 on the code. No failure is classified: the methods called in the
    [try] block of [get_new_emails_from_sender] catch what they raise, so
    the block raises nothing and the [except] block, which tells a
    failure of the connection from another, closes, waits and goes on or
    leaves, is never entered. A failure whose description has none of the
    signatures, which that block would answer by leaving the loop at
    once, is met by one attempt after another: when opening a connection
    raises it each time, the call opens [retry_count] times. *)
Theorem terminal_failure_is_retried (sender : str) (upd : bool) (rc : Z)
    (w : client E) (e : exn) :
  is_connection_error e = false ->
  connection w = None ->
  (forall server port env0,
     exists env1, imap_open server port env0 = (Raise e, env1)) ->
  (forall sender0 upd0 (w0 : client E),
     exists r w1,
       try_block _ensure_connection search_new_emails_from_sender
         get_email_content (save_last_check_time None) sender0 upd0 w0
       = (Ok r, w1))
  /\ (forall attempt (w0 : client E),
        except_block rc attempt e w0 = (Ok Break, w0))
  /\ exists w',
       get_new_emails_from_sender sender upd rc w = (Ok [], w')
       /\ calls w' = List.repeat EvOpen (Z.to_nat rc) ++ calls w
       /\ state_file_content w' = state_file_content w.
Proof.
  intros Hterminal Hc Hopen. split; [|split].
  - intros sender0 upd0 w0. apply try_block_total.
  - intros attempt w0. unfold except_block. rewrite Hterminal. reflexivity.
  - assert (Href : always_refused).
    { intros server port env0. destruct (Hopen server port env0) as [env1 H].
      eauto. }
    unfold get_new_emails_from_sender, bind, get_new_emails, retry_loop.
    destruct (attempts_refused sender upd rc (Z.to_nat rc) 0%Z w Href Hc)
      as [w' [-> [Hcalls [_ Hfile]]]].
    unfold ret. exists w'. split; [reflexivity|]. split; assumption.
Qed.

(** ** [disconnect] *)

(** X10. [disconnect] raises nothing and leaves [self.connection] and the
    state file as they are. With a connection it sends [CLOSE] and, only
    when that went through, [LOGOUT]; without one it does nothing. *)
Theorem disconnect_keeps_connection (w : client E) :
  exists w',
    disconnect w = (Ok tt, w')
    /\ connection w' = connection w
    /\ state_file_content w' = state_file_content w
    /\ match connection w with
       | None => w' = w
       | Some c =>
           match imap_close c (env w) with
           | (Ok _, _) => calls w' = EvLogout c :: EvClose c :: calls w
           | (Raise _, _) => calls w' = EvClose c :: calls w
           end
       end.
Proof.
  unfold disconnect, bind at 1, gets.
  destruct (connection w) as [c|] eqn:Hc.
  - unfold try_except, bind, call, ret.
    destruct (imap_close c (env w)) as [[[]|x] e1].
    + cbn [env log_call set_env].
      destruct (imap_logout c e1) as [[[]|x] e2];
        eexists; (split; [reflexivity|]); repeat split; assumption.
    + eexists. split; [reflexivity|]. repeat split; assumption.
  - unfold ret. exists w. repeat split; assumption.
Qed.

(** ** A connection that never logged in *)

(** X11. A login that fails leaves its connection in [self.connection],
    and the next [_ensure_connection] takes it for a live one: the
    connection answers [NOOP], so the method returns [True] without
    logging in and without selecting a mailbox. *)
Theorem unauthenticated_connection_passes (w : client E) (c : N)
    (e1 e2 e3 : E) (x : exn) :
  imap_open (server w) (port w) (env w) = (Ok c, e1) ->
  imap_login c (login w) (password w) e1 = (Raise x, e2) ->
  imap_noop c e2 = (Ok OK, e3) ->
  exists w1 w2,
    connect w = (Ok false, w1)
    /\ connection w1 = Some c
    /\ _ensure_connection w1 = (Ok true, w2)
    /\ calls w2 = [EvNoop c; EvLogin c; EvOpen] ++ calls w.
Proof.
  intros Hopen Hlogin Hnoop.
  unfold connect, try_except, bind at 1, gets. unfold bind at 1, call at 1.
  rewrite Hopen. unfold bind at 1, modify. unfold bind at 1, call at 1.
  cbn [env set_connection log_call set_env login password].
  rewrite Hlogin. unfold ret at 1.
  eexists. eexists. split; [reflexivity|]. split; [reflexivity|].
  unfold _ensure_connection, try_except, bind, gets, call, ret.
  cbn [connection env set_connection log_call set_env].
  rewrite Hnoop. split; reflexivity.
Qed.

End Facts.
Import Sim.
#[local] Existing Instance Tables.latin_cyrillic.
#[local] Existing Instance sim_os.

Definition devino : str := u "no-reply@devinotele.com".

(** No connection yet, and a server that answers. *)
Lemma ensured_connection_is_set_witness :
  exists c,
    connection (snd (_ensure_connection (imap := sim_imap Up) quiet_day))
    = Some c
    /\ fst (_ensure_connection (imap := sim_imap Up) quiet_day) = Ok true.
Proof.
  destruct (ensured_connection_is_set (imap := sim_imap Up) quiet_day
              (snd (_ensure_connection (imap := sim_imap Up) quiet_day)))
    as [c [Hc _]].
  - vm_compute. reflexivity.
  - exists c. split; [exact Hc|]. vm_compute. reflexivity.
Defined.

(** The connection drops on [SEARCH], two hours after the checkpoint. *)
Lemma failed_search_moves_checkpoint_witness :
  exists w' q t updated_at,
    get_new_emails_from_sender (imap := sim_imap SearchBroken)
      (lib := sim_email Tables.latin_cyrillic) devino true 3 after_noon
    = (Ok [], w')
    /\ calls w' = [EvWriteState; EvSearch 1 q; EvNoop 1]
    /\ state_file_content w' = Some (StateJson (Some (naive t)) updated_at)
    /\ (noon + 7200000000 <= t)%Z.
Proof.
  destruct (failed_search_moves_checkpoint (imap := sim_imap SearchBroken)
              (lib := sim_email Tables.latin_cyrillic) o_clock devino 3
              after_noon 1%N (tick (env after_noon))
              (sim_time_monotone SearchBroken) sim_disk_writable)
    as [w' [q [t [x [Hs [Hc [Hf [Ht _]]]]]]]].
  - lia.
  - reflexivity.
  - reflexivity.
  - intros q e. do 2 eexists. reflexivity.
  - exists w', q, t, x. repeat split; assumption.
Defined.

(** A checkpoint written with an offset: 12:00 +03:00. *)
Definition with_offset : client outside :=
  sim_client {| o_clock := noon + 7200000000; o_mail := three_letters |}
    (Some 1%N)
    (Some (StateJson (Some {| wall := noon; tzinfo := Some 10800000000%Z |})
             (naive noon))).

Lemma aware_checkpoint_finds_nothing_witness :
  exists w',
    search_new_emails_from_sender (imap := sim_imap Up)
      (lib := sim_email Tables.latin_cyrillic) devino with_offset = (Ok [], w').
Proof.
  apply (aware_checkpoint_finds_nothing (imap := sim_imap Up)
           (lib := sim_email Tables.latin_cyrillic) devino with_offset
           {| wall := noon; tzinfo := Some 10800000000%Z |} (naive noon)
           10800000000%Z); reflexivity.
Defined.

Lemma first_run_is_one_day_search_witness :
  search_new_emails_from_sender (imap := sim_imap Up)
    (lib := sim_email Tables.latin_cyrillic) devino first_run
  = search_emails_from_sender (imap := sim_imap Up) devino 1 first_run
  /\ fst (search_emails_from_sender (imap := sim_imap Up) devino 1 first_run)
     = Ok [1%N; 3%N].
Proof.
  destruct (first_run_is_one_day_search (imap := sim_imap Up)
              (lib := sim_email Tables.latin_cyrillic) devino first_run)
    as [Heq _].
  - reflexivity.
  - vm_compute. split; discriminate.
  - split; [exact Heq|]. vm_compute. reflexivity.
Defined.

(** A server that lets nobody in: [LOGIN] is rejected; [NOOP] is
    answered in every state; [SELECT] and [SEARCH], which [imaplib]
    refuses to send before a login, raise. *)
Definition illegal (command : string) : exn :=
  Exception (u "command " ++ u command ++ u " illegal in state NONAUTH").

Definition sim_imap_locked : Imap outside :=
  {| imap_open := imap_open (Imap := sim_imap Up);
     imap_login := fun _ _ _ =>
       answer false (Exception (u "LOGIN failed")) (fun _ => OK);
     imap_select := fun _ _ => answer false (illegal "SELECT") (fun _ => OK);
     imap_noop := imap_noop (Imap := sim_imap Up);
     imap_search := fun _ _ =>
       answer false (illegal "SEARCH") (fun _ => (OK, []));
     imap_fetch_date := imap_fetch_date (Imap := sim_imap Up);
     imap_fetch_rfc822 := imap_fetch_rfc822 (Imap := sim_imap Up);
     imap_close := imap_close (Imap := sim_imap Up);
     imap_logout := imap_logout (Imap := sim_imap Up) |}.

(** Two hours after the checkpoint, a letter of 13:00 waiting, and no
    connection yet. *)
Definition locked_out : client outside :=
  sim_client {| o_clock := noon + 7200000000; o_mail := three_letters |}
    None (Some (StateJson (Some (naive noon)) (naive noon))).

(** The login is rejected on the first pass. On the second the connection
    that never logged in answers [NOOP], the search raises and is taken
    for an empty mailbox, and the checkpoint moves past the letter of
    13:00, which was never fetched. *)
Lemma locked_login_moves_checkpoint :
  exists w' q updated_at,
    get_new_emails_from_sender (imap := sim_imap_locked)
      (lib := sim_email Tables.latin_cyrillic) devino true 3 locked_out
    = (Ok [], w')
    /\ calls w' = [EvWriteState; EvSearch 1 q; EvNoop 1; EvLogin 1; EvOpen]
    /\ state_file_content w'
       = Some (StateJson (Some (naive (noon + 7200000004))) updated_at).
Proof.
  do 3 eexists. split; [vm_compute; reflexivity|].
  split; vm_compute; reflexivity.
Qed.

(** A server with a certificate the client does not trust: the handshake
    fails each time a connection is opened. *)
Definition untrusted : exn :=
  Exception (u "[SSL: CERTIFICATE_VERIFY_FAILED] certificate verify failed").

Definition sim_imap_untrusted : Imap outside :=
  {| imap_open := fun _ _ => answer false untrusted (fun _ => 1%N);
     imap_login := imap_login (Imap := sim_imap Up);
     imap_select := imap_select (Imap := sim_imap Up);
     imap_noop := imap_noop (Imap := sim_imap Up);
     imap_search := imap_search (Imap := sim_imap Up);
     imap_fetch_date := imap_fetch_date (Imap := sim_imap Up);
     imap_fetch_rfc822 := imap_fetch_rfc822 (Imap := sim_imap Up);
     imap_close := imap_close (Imap := sim_imap Up);
     imap_logout := imap_logout (Imap := sim_imap Up) |}.

Lemma terminal_failure_is_retried_witness :
  is_connection_error untrusted = false
  /\ exists w',
       get_new_emails_from_sender (imap := sim_imap_untrusted)
         (lib := sim_email Tables.latin_cyrillic) devino true 3 locked_out
       = (Ok [], w')
       /\ calls w' = [EvOpen; EvOpen; EvOpen]
       /\ state_file_content w' = state_file_content locked_out.
Proof.
  split; [reflexivity|].
  destruct (terminal_failure_is_retried (imap := sim_imap_untrusted)
              (lib := sim_email Tables.latin_cyrillic) devino true 3
              locked_out untrusted)
    as [_ [_ [w' [Hs [Hc Hf]]]]].
  - reflexivity.
  - reflexivity.
  - intros server port env0. eexists. reflexivity.
  - exists w'. split; [exact Hs|]. split; [exact Hc|exact Hf].
Defined.

Lemma unauthenticated_connection_passes_witness :
  exists w1 w2,
    connect (imap := sim_imap_locked) quiet_day = (Ok false, w1)
    /\ _ensure_connection (imap := sim_imap_locked) w1 = (Ok true, w2)
    /\ calls w2 = [EvNoop 1; EvLogin 1; EvOpen].
Proof.
  destruct (unauthenticated_connection_passes (imap := sim_imap_locked)
              quiet_day 1%N (tick (env quiet_day))
              (tick (tick (env quiet_day)))
              (tick (tick (tick (env quiet_day))))
              (Exception (u "LOGIN failed")))
    as [w1 [w2 [H1 [_ [H2 H3]]]]]; try reflexivity.
  exists w1, w2. repeat split; assumption.
Defined.

End MailboxFacts.

Module EngineFacts.
Import Re ReFacts.

Lemma firstn_plus {A} (n m : nat) (l : list A) :
  firstn (n + m) l = firstn n l ++ firstn m (skipn n l).
Proof.
  revert l. induction n as [|n IH]; intros [|a l]; cbn; try reflexivity.
  - now rewrite firstn_nil.
  - f_equal. apply IH.
Qed.

Lemma firstn_incl {A} (n : nat) (l : list A) (x : A) :
  In x (firstn n l) -> In x l.
Proof.
  intros H. rewrite <- (firstn_skipn n l). apply in_or_app. now left.
Qed.

(** ** Stripping *)

Lemma lstrip_incl (s : str) (c : char) : In c (lstrip s) -> In c s.
Proof.
  induction s as [|a s IH]; simpl; [easy|].
  destruct (isspace a); [|easy]. intros H. right. auto.
Qed.

Lemma strip_incl (s : str) (c : char) : In c (strip s) -> In c s.
Proof.
  unfold strip, rstrip. intros H. apply in_rev in H. apply lstrip_incl in H.
  apply in_rev in H. apply lstrip_incl in H. exact H.
Qed.

(** A text that begins and ends with characters that are no spaces is
    left as it is. *)
Lemma lstrip_id (c : char) (s : str) : isspace c = false -> lstrip (c :: s) = c :: s.
Proof. intros H. simpl. rewrite H. reflexivity. Qed.

Lemma strip_id (s : str) (a z : char) (mid : str) :
  s = a :: mid ++ [z] \/ (s = [a] /\ z = a) ->
  isspace a = false -> isspace z = false -> strip s = s.
Proof.
  intros Hs Ha Hz. unfold strip, rstrip.
  destruct Hs as [-> | [-> ->]].
  - rewrite (lstrip_id _ _ Ha).
    change (a :: mid ++ [z]) with ((a :: mid) ++ [z]).
    rewrite rev_app_distr. cbn [rev app]. rewrite (lstrip_id _ _ Hz).
    change (z :: rev mid ++ [a]) with ([z] ++ (rev mid ++ [a])).
    rewrite rev_app_distr, rev_app_distr, rev_involutive. reflexivity.
  - rewrite (lstrip_id _ _ Ha). cbn [rev app]. rewrite (lstrip_id _ _ Ha).
    reflexivity.
Qed.

Section Engine.
Context {uni : Unicode}.
Variable fl : flags.

(** ** A match takes a piece off the front of the text *)

(** [st'] is [st] further on in the same text. *)
Definition advance (st st' : state) : Prop :=
  pos st <= pos st'
  /\ pos st' - pos st <= length (rest st)
  /\ rest st' = skipn (pos st' - pos st) (rest st).

(** The text between two states. *)
Definition taken (st st' : state) : str :=
  firstn (pos st' - pos st) (rest st).

Lemma advance_refl st : advance st st.
Proof.
  unfold advance. rewrite Nat.sub_diag. repeat split; lia.
Qed.

Lemma advance_trans a b c : advance a b -> advance b c -> advance a c.
Proof.
  intros [H1 [H2 H3]] [H4 [H5 H6]]. unfold advance.
  rewrite H3 in H5. rewrite length_skipn in H5.
  split; [lia|]. split; [lia|].
  rewrite H6, H3, skipn_skipn. f_equal. lia.
Qed.

Lemma taken_rest a b : advance a b -> rest a = taken a b ++ rest b.
Proof.
  intros [_ [_ H]]. unfold taken. rewrite H. symmetry. apply firstn_skipn.
Qed.

Lemma taken_length a b : advance a b -> length (taken a b) = pos b - pos a.
Proof.
  intros [_ [H _]]. unfold taken. rewrite length_firstn. lia.
Qed.

Lemma taken_trans a b c :
  advance a b -> advance b c -> taken a c = taken a b ++ taken b c.
Proof.
  intros Hab Hbc. pose proof Hab as [H1 [H2 H3]]. pose proof Hbc as [H4 [H5 H6]].
  unfold taken. rewrite H3.
  replace (pos c - pos a) with ((pos b - pos a) + (pos c - pos b)) by lia.
  rewrite firstn_plus. reflexivity.
Qed.

Lemma taken_refl a : taken a a = [].
Proof. unfold taken. rewrite Nat.sub_diag. reflexivity. Qed.

Lemma advance_incl a b c : advance a b -> In c (rest b) -> In c (rest a).
Proof.
  intros [_ [_ H]] Hin. rewrite H in Hin.
  rewrite <- (firstn_skipn (pos b - pos a) (rest a)). apply in_or_app. now right.
Qed.

Lemma consume_advance ok st st' :
  In st' (consume ok st) ->
  advance st st' /\ groups st' = groups st
  /\ exists c, taken st st' = [c] /\ ok c = true.
Proof.
  unfold consume. destruct (rest st) as [|c s] eqn:Hr; [contradiction|].
  destruct (ok c) eqn:Hok; [|contradiction].
  intros [<-|[]]. unfold advance, taken. cbn [pos rest groups]. rewrite Hr.
  replace (S (pos st) - pos st) with 1 by lia.
  repeat split; try (cbn; lia). exists c. split; [reflexivity|assumption].
Qed.

Lemma repeat_advance (step : state -> list state) :
  (forall s s', In s' (step s) -> advance s s') ->
  forall fuel min max greedy st st',
    In st' (repeat step fuel min max greedy st) -> advance st st'.
Proof.
  intros Hstep fuel.
  induction fuel as [|fuel IH]; intros min max greedy st st' Hin; cbn [repeat] in Hin.
  - destruct (min =? 0); [|contradiction]. destruct Hin as [<-|[]].
    apply advance_refl.
  - assert (Hstop : In st' (if min =? 0 then [st] else []) -> advance st st').
    { destruct (min =? 0); [|contradiction]. intros [<-|[]]. apply advance_refl. }
    assert (Hmore : In st'
              (flat_map (fun s => if pos s =? pos st then []
                                  else repeat step fuel (Nat.pred min)
                                         (option_map Nat.pred max) greedy s)
                        (step st)) -> advance st st').
    { intros H. apply in_flat_map in H. destruct H as [s [Hs H]].
      destruct (pos s =? pos st); [contradiction|].
      apply IH in H. apply Hstep in Hs. eapply advance_trans; eassumption. }
    destruct greedy; apply in_app_or in Hin; destruct Hin as [H|H]; auto;
      destruct max as [[|k]|]; auto; contradiction.
Qed.

Lemma matches_advance r : forall st st',
  In st' (matches fl r st) -> advance st st'.
Proof.
  induction r; intros st st' Hin; cbn [matches] in Hin.
  - destruct Hin as [<-|[]]. apply advance_refl.
  - apply consume_advance in Hin. apply Hin.
  - apply consume_advance in Hin. apply Hin.
  - apply consume_advance in Hin. apply Hin.
  - apply in_flat_map in Hin. destruct Hin as [mid [H1 H2]].
    eapply advance_trans; eauto.
  - apply in_app_or in Hin. destruct Hin; auto.
  - eapply repeat_advance; [|eassumption]. exact IHr.
  - apply in_map_iff in Hin. destruct Hin as [s [<- Hs]].
    apply IHr in Hs. exact Hs.
  - destruct (pos st =? 0); [|contradiction]. destruct Hin as [<-|[]].
    apply advance_refl.
  - destruct (rest st) as [|c s]; [destruct Hin as [<-|[]]; apply advance_refl|].
    destruct (_ && _); [|contradiction]. destruct Hin as [<-|[]].
    apply advance_refl.
  - contradiction.
Qed.

(** ** What a group holds comes from the text *)

(** The groups of [st'] are those of [st] and pieces of the text of
    [st]. *)
Definition captures (st st' : state) : Prop :=
  forall n g, In (n, g) (groups st') ->
    In (n, g) (groups st) \/ incl g (rest st).

Lemma captures_refl st : captures st st.
Proof. intros n g H. now left. Qed.

Lemma captures_trans a b c :
  advance a b -> captures a b -> captures b c -> captures a c.
Proof.
  intros Hab H1 H2 n g Hin. destruct (H2 n g Hin) as [H|H]; [auto|].
  right. intros x Hx. eapply advance_incl; eauto.
Qed.

Lemma repeat_captures (step : state -> list state) :
  (forall s s', In s' (step s) -> advance s s' /\ captures s s') ->
  forall fuel min max greedy st st',
    In st' (repeat step fuel min max greedy st) -> captures st st'.
Proof.
  intros Hstep fuel.
  induction fuel as [|fuel IH]; intros min max greedy st st' Hin; cbn [repeat] in Hin.
  - destruct (min =? 0); [|contradiction]. destruct Hin as [<-|[]].
    apply captures_refl.
  - assert (Hstop : In st' (if min =? 0 then [st] else []) -> captures st st').
    { destruct (min =? 0); [|contradiction]. intros [<-|[]]. apply captures_refl. }
    assert (Hmore : In st'
              (flat_map (fun s => if pos s =? pos st then []
                                  else repeat step fuel (Nat.pred min)
                                         (option_map Nat.pred max) greedy s)
                        (step st)) -> captures st st').
    { intros H. apply in_flat_map in H. destruct H as [s [Hs H]].
      destruct (pos s =? pos st); [contradiction|].
      apply IH in H. apply Hstep in Hs. destruct Hs as [Ha Hc].
      eapply captures_trans; eassumption. }
    destruct greedy; apply in_app_or in Hin; destruct Hin as [H|H]; auto;
      destruct max as [[|k]|]; auto; contradiction.
Qed.

Lemma matches_captures r : forall st st',
  In st' (matches fl r st) -> captures st st'.
Proof.
  induction r; intros st st' Hin; pose proof (matches_advance _ _ _ Hin) as Hadv;
    cbn [matches] in Hin.
  - destruct Hin as [<-|[]]. apply captures_refl.
  - apply consume_advance in Hin. destruct Hin as [_ [Hg _]].
    intros n g H. rewrite Hg in H. now left.
  - apply consume_advance in Hin. destruct Hin as [_ [Hg _]].
    intros n g H. rewrite Hg in H. now left.
  - apply consume_advance in Hin. destruct Hin as [_ [Hg _]].
    intros n g H. rewrite Hg in H. now left.
  - apply in_flat_map in Hin. destruct Hin as [mid [H1 H2]].
    eapply captures_trans; [eapply matches_advance; eassumption|eauto|eauto].
  - apply in_app_or in Hin. destruct Hin; auto.
  - eapply repeat_captures; [|eassumption].
    intros s s' H. split; [eapply matches_advance; eassumption|auto].
  - apply in_map_iff in Hin. destruct Hin as [s [<- Hs]].
    intros k g [H|H].
    + injection H as _ <-. right. intros x Hx.
      eapply firstn_incl. eassumption.
    + apply (IHr _ _ Hs). exact H.
  - destruct (pos st =? 0); [|contradiction]. destruct Hin as [<-|[]].
    apply captures_refl.
  - destruct (rest st) as [|c s]; [destruct Hin as [<-|[]]; apply captures_refl|].
    destruct (_ && _); [|contradiction]. destruct Hin as [<-|[]].
    apply captures_refl.
  - contradiction.
Qed.

Lemma search_from_captures r fuel : forall st m,
  search_from fl r fuel st = Some m ->
  groups st = [] ->
  forall n g, In (n, g) (groups (snd m)) -> incl g (rest st).
Proof.
  induction fuel as [|fuel IH]; intros st m H Hg n g Hin; cbn [search_from] in H.
  - destruct (matches fl r st) as [|found l] eqn:Hm; [discriminate|].
    injection H as <-. cbn [snd] in Hin.
    assert (Hf : In found (matches fl r st)) by (rewrite Hm; now left).
    destruct (matches_captures _ _ _ Hf n g Hin) as [H|H]; [|exact H].
    rewrite Hg in H. contradiction.
  - destruct (matches fl r st) as [|found l] eqn:Hm.
    + destruct (rest st) as [|c s] eqn:Hr; [discriminate|].
      intros x Hx. right.
      exact (IH _ _ H eq_refl n g Hin x Hx).
    + injection H as <-. cbn [snd] in Hin.
      assert (Hf : In found (matches fl r st)) by (rewrite Hm; now left).
      destruct (matches_captures _ _ _ Hf n g Hin) as [H|H]; [|exact H].
      rewrite Hg in H. contradiction.
Qed.

(** What [match.group(n)] gives is made of characters of the text. *)
Lemma group_incl r text m n g :
  search fl r text = Some m -> group n m = Some g -> incl g text.
Proof.
  intros Hs Hg. unfold group in Hg.
  destruct (find (fun p => fst p =? n) (groups (snd m))) as [[k g']|] eqn:Hf;
    [|discriminate].
  injection Hg as <-. apply find_some in Hf. destruct Hf as [Hin _].
  exact (search_from_captures _ _ _ _ Hs eq_refl k g' Hin).
Qed.

(** ** Replacing *)

(** [re.sub] makes its result of characters of the text and of the
    replacement. *)
Lemma sub_from_incl r repl fuel : forall st c,
  In c (sub_from fl r repl fuel st) -> In c repl \/ In c (rest st).
Proof.
  induction fuel as [|fuel IH]; intros st c Hin; cbn [sub_from] in Hin.
  - now right.
  - destruct (matches fl r st) as [|found l] eqn:Hm;
      destruct (rest st) as [|a s] eqn:Hr; try contradiction.
    + destruct Hin as [<-|Hin]; [right; now left|].
      apply IH in Hin. cbn [rest] in Hin. destruct Hin; [now left|right; now right].
    + assert (Hf : In found (matches fl r st)) by (rewrite Hm; now left).
      apply matches_advance in Hf.
      destruct (pos found =? pos st).
      * destruct Hin as [<-|Hin]; [right; now left|].
        apply IH in Hin. cbn [rest] in Hin.
        destruct Hin; [now left|right; now right].
      * apply in_app_or in Hin. destruct Hin as [Hin|Hin]; [now left|].
        apply IH in Hin. cbn [rest] in Hin. destruct Hin as [Hin|Hin]; [now left|].
        right. rewrite <- Hr. eapply advance_incl; eassumption.
Qed.

Lemma sub_incl r repl text c :
  In c (sub fl r repl text) -> In c repl \/ In c text.
Proof. apply sub_from_incl. Qed.

(** A pattern that matches wherever the text has a character of a kind,
    taking at least that character, and nowhere else: after [re.sub] no
    character of that kind is left, but for those of the replacement. *)
Section Kind.
Variable r : regex.
Variable hit : char -> bool.
Hypothesis r_hit : forall st c s,
  rest st = c :: s -> hit c = true ->
  exists found l, matches fl r st = found :: l /\ pos st < pos found.
Hypothesis r_miss : forall st c s,
  rest st = c :: s -> hit c = false -> matches fl r st = [].

Lemma sub_from_kind repl fuel : forall st,
  length (rest st) < fuel ->
  Forall (fun c => hit c = false \/ In c repl) (sub_from fl r repl fuel st).
Proof.
  induction fuel as [|fuel IH]; intros st Hlen; [lia|]. cbn [sub_from].
  destruct (rest st) as [|a s] eqn:Hr.
  - destruct (matches fl r st); constructor.
  - cbn [length] in Hlen. destruct (hit a) eqn:Ha.
    + destruct (r_hit st a s Hr Ha) as [found [l [Hm Hpos]]]. rewrite Hm.
      destruct (Nat.eqb_spec (pos found) (pos st)) as [Heq|_]; [lia|].
      apply Forall_app. split.
      * apply Forall_forall. intros x Hx. now right.
      * apply IH. cbn [rest].
        assert (Hf : In found (matches fl r st)) by (rewrite Hm; now left).
        apply matches_advance in Hf. destruct Hf as [_ [_ Hrest]].
        rewrite Hrest, length_skipn, Hr. cbn [length]. lia.
    + rewrite (r_miss st a s Hr Ha). constructor; [now left|].
      apply IH. cbn [rest]. lia.
Qed.

Lemma sub_kind repl text :
  Forall (fun c => hit c = false \/ In c repl) (sub fl r repl text).
Proof. apply sub_from_kind. cbn [rest start_of]. lia. Qed.
End Kind.

(** ** Repeating a set of characters *)

(** [n] is within the bounds of a repetition. *)
Definition within (min : nat) (max : option nat) (n : nat) : Prop :=
  min <= n /\ match max with Some m => n <= m | None => True end.

Lemma repeat_class (ok : char -> bool) : forall fuel min max greedy st st',
  In st' (repeat (consume ok) fuel min max greedy st) ->
  advance st st' /\ groups st' = groups st
  /\ Forall (fun c => ok c = true) (taken st st')
  /\ within min max (length (taken st st')).
Proof.
  induction fuel as [|fuel IH]; intros min max greedy st st' Hin; cbn [repeat] in Hin.
  - destruct (Nat.eqb_spec min 0) as [->|]; [|contradiction].
    destruct Hin as [<-|[]]. rewrite taken_refl.
    split; [apply advance_refl|]. split; [reflexivity|]. split; [constructor|].
    split; [cbn; lia|destruct max; cbn; [lia|exact I]].
  - assert (Hstop : In st' (if min =? 0 then [st] else []) ->
              advance st st' /\ groups st' = groups st
              /\ Forall (fun c => ok c = true) (taken st st')
              /\ within min max (length (taken st st'))).
    { destruct (Nat.eqb_spec min 0) as [->|]; [|contradiction].
      intros [<-|[]]. rewrite taken_refl.
      split; [apply advance_refl|]. split; [reflexivity|]. split; [constructor|].
      split; [cbn; lia|destruct max; cbn; [lia|exact I]]. }
    assert (Hmore : max <> Some 0 ->
              In st'
                (flat_map (fun s => if pos s =? pos st then []
                                    else repeat (consume ok) fuel (Nat.pred min)
                                           (option_map Nat.pred max) greedy s)
                          (consume ok st)) ->
              advance st st' /\ groups st' = groups st
              /\ Forall (fun c => ok c = true) (taken st st')
              /\ within min max (length (taken st st'))).
    { intros Hmax H. apply in_flat_map in H. destruct H as [s [Hs H]].
      destruct (pos s =? pos st); [contradiction|].
      apply IH in H. destruct H as [Ha2 [Hg2 [Hall2 Hw2]]].
      apply consume_advance in Hs. destruct Hs as [Ha1 [Hg1 [c [Hc Hok]]]].
      split; [eapply advance_trans; eassumption|].
      split; [congruence|].
      rewrite (taken_trans _ _ _ Ha1 Ha2), Hc. cbn [app length].
      split; [constructor; assumption|].
      destruct Hw2 as [Hlo Hhi]. split; [lia|].
      destruct max as [[|m]|]; cbn in *; [congruence|lia|exact I]. }
    destruct greedy; apply in_app_or in Hin; destruct Hin as [H|H]; auto;
      destruct max as [[|k]|]; try contradiction; apply Hmore; auto; discriminate.
Qed.

End Engine.
End EngineFacts.

Module ExtractionFacts.
Import Re ReFacts EngineFacts EmailClient Parser.

(** A whitespace character that is the plain space, or no whitespace at
    all. *)
Definition plain (c : char) : Prop := isspace c = true -> c = 32%N.

(** A character [\w] or [\s] matches. *)
Definition wordy {uni : Unicode} (c : char) : bool :=
  isalnum c || (c =? 95)%N || isspace c.

(** The shape [D.M.YYYY H:MM]: one or two digits, a dot, one or two
    digits, a dot, four digits, whitespace, one or two digits, a colon,
    two digits. The dots and the colon are what [.] and [:] match under
    [IGNORECASE]. *)
Definition digits {uni : Unicode} (min max : nat) (s : str) : Prop :=
  Forall (fun c => isdecimal c = true) s /\ min <= length s <= max.

Inductive time_shaped {uni : Unicode} (s : str) : Prop :=
| TimeShaped (day month year gap hour minute : str) (dot1 dot2 colon : char) :
    s = day ++ [dot1] ++ month ++ [dot2] ++ year ++ gap
        ++ hour ++ [colon] ++ minute ->
    digits 1 2 day ->
    char_matches IGNORECASE 46%N dot1 = true ->
    digits 1 2 month ->
    char_matches IGNORECASE 46%N dot2 = true ->
    digits 4 4 year ->
    Forall (fun c => isspace c = true) gap -> 1 <= length gap ->
    digits 1 2 hour ->
    char_matches IGNORECASE 58%N colon = true ->
    digits 2 2 minute ->
    time_shaped s.

(** The group of the six time patterns. *)
Definition time_body : regex :=
  Seq (Repeat (Class false [IDigit]) 1 (Some 2) true)
    (Seq (Char 46%N)
       (Seq (Repeat (Class false [IDigit]) 1 (Some 2) true)
          (Seq (Char 46%N)
             (Seq (Repeat (Class false [IDigit]) 4 (Some 4) true)
                (Seq (Repeat (Class false [ISpace]) 1 None true)
                   (Seq (Repeat (Class false [IDigit]) 1 (Some 2) true)
                      (Seq (Char 58%N)
                         (Repeat (Class false [IDigit]) 2 (Some 2) true)))))))).

(** The group a pattern ends in, when that is group 1. *)
Fixpoint last_group (r : regex) : option regex :=
  match r with
  | Seq _ r2 => last_group r2
  | Group 1 body => Some body
  | _ => None
  end.

Lemma time_patterns_end_alike :
  Forall (fun p => last_group p = Some time_body)
    (start_time_patterns ++ end_time_patterns).
Proof. repeat constructor. Qed.

Lemma shorten_length (s : str) : length (shorten s) <= 303.
Proof.
  unfold shorten, slice_to.
  destruct (Nat.ltb_spec 300 (length s)) as [Hlong|Hshort]; [|lia].
  rewrite length_app, length_firstn.
  change (length (u "...")) with 3. lia.
Qed.

Lemma shorten_plain (s : str) : Forall plain s -> Forall plain (shorten s).
Proof.
  intros Hs. unfold shorten, slice_to. destruct (300 <? length s); [|exact Hs].
  apply Forall_app. split.
  - apply Forall_forall. intros c Hc. apply firstn_incl in Hc.
    rewrite Forall_forall in Hs. exact (Hs c Hc).
  - repeat constructor; intros H; vm_compute in H; discriminate.
Qed.

(** The length of a literal. *)
Ltac short_literal :=
  match goal with
  | |- length ?s <= _ =>
      let n := eval vm_compute in (length s) in
      change (length s) with n; lia
  end.

Section Facts.
Context {uni : Unicode}.

(** ** Whole runs of whitespace, and stray punctuation *)

Lemma repeat_from_zero (step : state -> list state) fuel max st :
  exists found l, repeat step fuel 0 max true st = found :: l.
Proof.
  destruct (repeat step fuel 0 max true st) as [|found l] eqn:H; [|eauto].
  exfalso. destruct fuel; cbn [repeat] in H.
  - discriminate.
  - apply app_eq_nil in H. destruct H as [_ H]. discriminate.
Qed.

Lemma space_taken (st : state) (c : char) (s : str) :
  rest st = c :: s ->
  consume (fun c0 => xorb false (in_items no_flags [ISpace] c0)) st
  = if isspace c
    then [{| pos := S (pos st); rest := s; groups := groups st |}]
    else [].
Proof.
  intros Hr. unfold consume. rewrite Hr. unfold in_items.
  cbn [existsb item_has ignorecase no_flags andb orb xorb].
  rewrite !orb_false_r. reflexivity.
Qed.

Lemma spaces_hit (st : state) (c : char) (s : str) :
  rest st = c :: s -> isspace c = true ->
  exists found l,
    matches no_flags (compile "\s+") st = found :: l /\ pos st < pos found.
Proof.
  intros Hr Hc. change (compile "\s+") with (Repeat (Class false [ISpace]) 1 None true).
  cbn [matches repeat]. rewrite (space_taken st c s Hr), Hc.
  cbn [flat_map pos]. rewrite !app_nil_r.
  destruct (Nat.eqb_spec (S (pos st)) (pos st)) as [Heq|_]; [lia|].
  cbn [Nat.pred option_map].
  match goal with |- context [repeat ?step ?fuel 0 None true ?next] =>
    destruct (repeat_from_zero step fuel None next) as [found [l Hrep]];
    assert (Hfw : pos next <= pos found)
  end.
  { eapply (repeat_forward); [|rewrite Hrep; now left].
    intros a b Hab. apply consume_pos in Hab. destruct Hab as [? [_ [_ ->]]]. lia. }
  rewrite Hrep. exists found, l. split; [reflexivity|]. cbn [pos] in Hfw. lia.
Qed.

Lemma spaces_miss (st : state) (c : char) (s : str) :
  rest st = c :: s -> isspace c = false ->
  matches no_flags (compile "\s+") st = [].
Proof.
  intros Hr Hc. change (compile "\s+") with (Repeat (Class false [ISpace]) 1 None true).
  cbn [matches repeat]. rewrite (space_taken st c s Hr), Hc. reflexivity.
Qed.

(** After [re.sub(r'\s+', ' ', text)] the only whitespace is the plain
    space. *)
Lemma collapsed_plain (text : str) :
  Forall plain (sub no_flags (compile "\s+") (u " ") text).
Proof.
  pose proof (sub_kind no_flags (compile "\s+") isspace spaces_hit spaces_miss
                (u " ") text) as H.
  eapply Forall_impl; [|exact H].
  intros c [Hc|[<-|[]]] Hs; [congruence|reflexivity].
Qed.

Lemma stripped_collapsed_plain (text : str) :
  Forall plain (strip (sub no_flags (compile "\s+") (u " ") text)).
Proof.
  apply Forall_forall. intros c Hc. apply strip_incl in Hc.
  pose proof (collapsed_plain text) as H. rewrite Forall_forall in H.
  exact (H c Hc).
Qed.

Lemma in_word_space (c : char) :
  in_items no_flags [IWord; ISpace] c = wordy c.
Proof.
  unfold in_items, wordy.
  cbn [existsb item_has ignorecase no_flags andb].
  rewrite !orb_false_r. reflexivity.
Qed.

Lemma punctuation_hit (st : state) (c : char) (s : str) :
  rest st = c :: s -> negb (wordy c) = true ->
  exists found l,
    matches no_flags (compile "[^\w\s]") st = found :: l /\ pos st < pos found.
Proof.
  intros Hr Hc. change (compile "[^\w\s]") with (Class true [IWord; ISpace]).
  cbn [matches]. unfold consume. rewrite Hr, in_word_space.
  destruct (wordy c); [discriminate|]. cbn [xorb].
  do 2 eexists. split; [reflexivity|]. cbn [pos]. lia.
Qed.

Lemma punctuation_miss (st : state) (c : char) (s : str) :
  rest st = c :: s -> negb (wordy c) = false ->
  matches no_flags (compile "[^\w\s]") st = [].
Proof.
  intros Hr Hc. change (compile "[^\w\s]") with (Class true [IWord; ISpace]).
  cbn [matches]. unfold consume. rewrite Hr, in_word_space.
  destruct (wordy c); [reflexivity|discriminate].
Qed.

Lemma cleaned_wordy (text : str) :
  Forall (fun c => wordy c = true) (sub no_flags (compile "[^\w\s]") [] text).
Proof.
  pose proof (sub_kind no_flags (compile "[^\w\s]") (fun c => negb (wordy c))
                punctuation_hit punctuation_miss [] text) as H.
  eapply Forall_impl; [|exact H].
  intros c [Hc|[]]. now apply negb_false_iff.
Qed.

(** ** The description *)

(** X12. The description is short and on one line: whatever the body,
    [_extract_description] gives at most 303 characters (300 and the
    dots), and every whitespace character in it is the plain space: no
    line break, no tab. *)
Theorem description_short_and_plain (body : str) :
  length (_extract_description body) <= 303
  /\ Forall plain (_extract_description body).
Proof.
  unfold _extract_description.
  match goal with
  | |- context [search IGNORECASE_DOTALL ?r ?text] =>
      set (clean_body := text); set (pattern := r)
  end.
  assert (Hclean : Forall plain clean_body)
    by (subst clean_body; apply stripped_collapsed_plain).
  destruct (search IGNORECASE_DOTALL pattern clean_body) as [m|] eqn:Hs.
  - destruct (group 1 m) as [g|] eqn:Hg.
    + split; [apply shorten_length|]. apply shorten_plain.
      apply Forall_forall. intros c Hc. apply strip_incl in Hc.
      apply (group_incl _ _ _ _ _ _ Hs Hg) in Hc.
      rewrite Forall_forall in Hclean. exact (Hclean c Hc).
    + split; [short_literal|].
      repeat constructor; intros H; vm_compute in H; first [discriminate|reflexivity].
  - pose proof (shorten_length clean_body) as Hlen.
    pose proof (shorten_plain _ Hclean) as Hplain.
    destruct (shorten clean_body) as [|c d].
    + split; [short_literal|].
      repeat constructor; intros H; vm_compute in H; first [discriminate|reflexivity].
    + split; assumption.
Qed.

(** ** The operator *)

Lemma operator_by_pattern_clean patterns text op :
  operator_by_pattern patterns text = Found op ->
  op = u "Devino Telecom"
  \/ (op <> [] /\ Forall (fun c => wordy c = true) op).
Proof.
  induction patterns as [|p rest IH]; cbn [operator_by_pattern]; [discriminate|].
  destruct (search IGNORECASE p text) as [m|]; [|exact IH].
  destruct (group 1 m) as [g|]; [|discriminate].
  destruct (strip (sub no_flags (compile "[^\w\s]") [] (strip g)))
    as [|c o] eqn:Hop; [exact IH|].
  destruct (contains _ _); intros H; injection H as <-; [now left|].
  right. split; [discriminate|].
  rewrite <- Hop. apply Forall_forall. intros x Hx. apply strip_incl in Hx.
  pose proof (cleaned_wordy (strip g)) as Hall. rewrite Forall_forall in Hall.
  exact (Hall x Hx).
Qed.

(** X13. The operator [_extract_operator] gives is one of the seven names
    it knows, or a text found by a pattern and cleaned: not empty, and
    made only of characters that [\w] or [\s] match, all punctuation
    removed. *)
Theorem operator_is_clean (text op : str) :
  _extract_operator text = Some op ->
  In op known_operators
  \/ (op <> [] /\ Forall (fun c => wordy c = true) op).
Proof.
  unfold _extract_operator.
  destruct (operator_by_pattern operator_patterns text) as [o| |] eqn:Ho.
  - intros H. injection H as <-.
    destruct (operator_by_pattern_clean _ _ _ Ho) as [-> | H]; [|now right].
    left. unfold known_operators. do 6 right. left. reflexivity.
  - intros H. apply find_some in H. left. apply H.
  - discriminate.
Qed.

(** ** The times *)

Lemma seq_taken fl r1 r2 st st' :
  In st' (matches fl (Seq r1 r2) st) ->
  exists mid,
    In mid (matches fl r1 st) /\ In st' (matches fl r2 mid)
    /\ taken st st' = taken st mid ++ taken mid st'.
Proof.
  intros Hin. cbn [matches] in Hin. apply in_flat_map in Hin.
  destruct Hin as [mid [H1 H2]]. exists mid. split; [exact H1|].
  split; [exact H2|].
  apply taken_trans; eapply matches_advance; eassumption.
Qed.

Lemma class_repeat_taken fl items min max greedy st st' :
  In st' (matches fl (Repeat (Class false items) min max greedy) st) ->
  Forall (fun c => in_items fl items c = true) (taken st st')
  /\ within min max (length (taken st st')).
Proof.
  intros Hin. cbn [matches] in Hin.
  apply (repeat_class (fun c => xorb false (in_items fl items c))) in Hin.
  destruct Hin as [_ [_ [Hall Hw]]]. split; [|exact Hw].
  eapply Forall_impl; [|exact Hall]. intros c. cbv beta.
  destruct (in_items fl items c); [intros _; reflexivity|intros H; discriminate H].
Qed.

Lemma char_taken fl x st st' :
  In st' (matches fl (Char x) st) ->
  exists c, taken st st' = [c] /\ char_matches fl x c = true.
Proof.
  intros Hin. cbn [matches] in Hin. apply consume_advance in Hin.
  destruct Hin as [_ [_ H]]. exact H.
Qed.

Lemma digit_item (c : char) :
  in_items IGNORECASE [IDigit] c = isdecimal c.
Proof.
  unfold in_items. cbn [existsb item_has ignorecase IGNORECASE andb].
  rewrite !orb_false_r. reflexivity.
Qed.

Lemma space_item (c : char) :
  in_items IGNORECASE [ISpace] c = isspace c.
Proof.
  unfold in_items. cbn [existsb item_has ignorecase IGNORECASE andb].
  rewrite !orb_false_r. reflexivity.
Qed.

Lemma digits_taken min max greedy st st' :
  In st' (matches IGNORECASE (Repeat (Class false [IDigit]) min (Some max) greedy) st) ->
  digits min max (taken st st').
Proof.
  intros Hin. apply class_repeat_taken in Hin. destruct Hin as [Hall [Hlo Hhi]].
  split; [|lia]. eapply Forall_impl; [|exact Hall].
  intros c Hc. cbv beta in Hc. rewrite digit_item in Hc. exact Hc.
Qed.

(** What the group of a time pattern takes has the shape of a time. *)
Lemma time_body_shape st st' :
  In st' (matches IGNORECASE time_body st) -> time_shaped (taken st st').
Proof.
  unfold time_body. intros H.
  apply seq_taken in H. destruct H as [m1 [Hday [H ->]]].
  apply seq_taken in H. destruct H as [m2 [Hdot1 [H ->]]].
  apply seq_taken in H. destruct H as [m3 [Hmonth [H ->]]].
  apply seq_taken in H. destruct H as [m4 [Hdot2 [H ->]]].
  apply seq_taken in H. destruct H as [m5 [Hyear [H ->]]].
  apply seq_taken in H. destruct H as [m6 [Hgap [H ->]]].
  apply seq_taken in H. destruct H as [m7 [Hhour [H ->]]].
  apply seq_taken in H. destruct H as [m8 [Hcolon Hminute]].
  destruct Hminute as [Hminute ->].
  apply char_taken in Hdot1. destruct Hdot1 as [d1 [-> Hd1]].
  apply char_taken in Hdot2. destruct Hdot2 as [d2 [-> Hd2]].
  apply char_taken in Hcolon. destruct Hcolon as [cl [-> Hcl]].
  apply class_repeat_taken in Hgap. destruct Hgap as [Hspaces [Hlen _]].
  eapply (TimeShaped _ (taken st m1) (taken m2 m3) (taken m4 m5) (taken m5 m6)
            (taken m6 m7) (taken m8 st') d1 d2 cl).
  - reflexivity.
  - apply (digits_taken _ _ _ _ _ Hday).
  - exact Hd1.
  - apply (digits_taken _ _ _ _ _ Hmonth).
  - exact Hd2.
  - apply (digits_taken _ _ _ _ _ Hyear).
  - eapply Forall_impl; [|exact Hspaces]. intros c Hc.
    cbv beta in Hc. rewrite space_item in Hc. exact Hc.
  - exact Hlen.
  - apply (digits_taken _ _ _ _ _ Hhour).
  - exact Hcl.
  - apply (digits_taken _ _ _ _ _ Hminute).
Qed.

Lemma last_group_captured fl r body :
  last_group r = Some body ->
  forall st st', In st' (matches fl r st) ->
    exists s0 s1 others,
      In s1 (matches fl body s0) /\ groups st' = (1, taken s0 s1) :: others.
Proof.
  induction r; intros Hlast st st' Hin; try discriminate.
  - cbn [last_group] in Hlast. cbn [matches] in Hin.
    apply in_flat_map in Hin. destruct Hin as [mid [_ H2]].
    eapply IHr2; eassumption.
  - cbn [last_group] in Hlast. destruct n as [|[|n]]; try discriminate.
    injection Hlast as <-. cbn [matches] in Hin.
    apply in_map_iff in Hin. destruct Hin as [s1 [<- Hs1]].
    exists st, s1, (groups s1). split; [exact Hs1|reflexivity].
Qed.

Lemma first_group_shape patterns text s :
  Forall (fun p => last_group p = Some time_body) patterns ->
  first_group patterns text = Found s ->
  exists g, s = strip g /\ time_shaped g.
Proof.
  induction 1 as [|p rest Hp Hrest IH]; cbn [first_group]; [discriminate|].
  destruct (search IGNORECASE p text) as [m|] eqn:Hs; [|exact IH].
  apply search_from_found in Hs. destruct Hs as [st0 Hin].
  destruct (last_group_captured _ _ _ Hp _ _ Hin) as [s0 [s1 [others [Hb Hg]]]].
  unfold group. rewrite Hg. cbn [find fst snd Nat.eqb].
  intros H. injection H as <-. exists (taken s0 s1). split; [reflexivity|].
  apply time_body_shape. exact Hb.
Qed.

Lemma last_of_app {A} (l l' : list A) (d : A) :
  l' <> [] -> last (l ++ l') d = last l' d.
Proof.
  intros Hne. induction l as [|a l IH]; [reflexivity|].
  cbn [app]. destruct (l ++ l') as [|b m] eqn:Happ.
  - apply app_eq_nil in Happ. destruct Happ. contradiction.
  - change (last (a :: b :: m) d) with (last (b :: m) d). exact IH.
Qed.

Lemma last_in {A} (l : list A) (d : A) : l <> [] -> In (last l d) l.
Proof.
  induction l as [|a l IH]; [contradiction|]. intros _.
  destruct l as [|b l]; [now left|]. right. apply IH. discriminate.
Qed.

(** A text that begins and ends with characters that are no spaces is
    what [strip] leaves of it. *)
Lemma strip_ends (s : str) (d : char) :
  s <> [] -> isspace (hd d s) = false -> isspace (last s d) = false ->
  strip s = s.
Proof.
  intros Hne Hhd Hlast. unfold strip, rstrip.
  destruct s as [|a t]; [contradiction|]. cbn [hd] in Hhd.
  rewrite (lstrip_id _ _ Hhd).
  rewrite (app_removelast_last d Hne) at 1.
  rewrite rev_app_distr. cbn [rev app]. rewrite (lstrip_id _ _ Hlast).
  change (last (a :: t) d :: rev (removelast (a :: t)))
    with (rev [last (a :: t) d] ++ rev (removelast (a :: t))).
  rewrite <- rev_app_distr, rev_involutive.
  symmetry. apply app_removelast_last. exact Hne.
Qed.

Section Digits.
Hypothesis digits_not_space : forall c, isdecimal c = true -> isspace c = false.

Lemma time_shaped_stripped (g : str) : time_shaped g -> strip g = g.
Proof.
  intros [day month year gap hour minute dot1 dot2 colon Heq
          [Hday Hdl] _ _ _ _ _ _ _ _ [Hmin Hml]].
  assert (Hmne : minute <> []) by (destruct minute; [cbn in Hml; lia|discriminate]).
  destruct day as [|a day']; [cbn in Hdl; lia|].
  apply (strip_ends g 0%N).
  - rewrite Heq. discriminate.
  - rewrite Heq. cbn [app hd]. apply digits_not_space.
    inversion Hday; assumption.
  - rewrite Heq.
    repeat (rewrite last_of_app;
            [|try discriminate;
              repeat (try exact Hmne; intros Habs; apply app_eq_nil in Habs;
                      destruct Habs as [_ Habs]; revert Habs)]).
    apply digits_not_space. rewrite Forall_forall in Hmin.
    apply Hmin. apply last_in. exact Hmne.
Qed.

(** X14. A time that is extracted has the shape [D.M.YYYY H:MM]: whatever
    the text, what [_extract_start_time] and [_extract_end_time] give is
    one or two digits, a dot, one or two digits, a dot, four digits,
    whitespace, one or two digits, a colon and two digits, and nothing
    before or after. *)
Theorem extracted_time_shape (text s : str) :
  _extract_start_time text = Some s \/ _extract_end_time text = Some s ->
  time_shaped s.
Proof.
  pose proof time_patterns_end_alike as Hall.
  apply Forall_app in Hall. destruct Hall as [Hstart Hend].
  unfold _extract_start_time, _extract_end_time, found.
  intros [H|H].
  - destruct (first_group start_time_patterns text) as [v| |] eqn:Hf;
      try discriminate.
    injection H as <-.
    destruct (first_group_shape _ _ _ Hstart Hf) as [g [-> Hg]].
    rewrite (time_shaped_stripped g Hg). exact Hg.
  - destruct (first_group end_time_patterns text) as [v| |] eqn:Hf;
      try discriminate.
    injection H as <-.
    destruct (first_group_shape _ _ _ Hend Hf) as [g [-> Hg]].
    rewrite (time_shaped_stripped g Hg). exact Hg.
Qed.
End Digits.

End Facts.

#[local] Existing Instance Tables.latin_cyrillic.

(** A name written in its own way is kept as it is written. *)
Lemma operator_is_clean_witness :
  _extract_operator (u "Работы на стороне оператора МегаФон завтра")
  = Some (u "МегаФон")
  /\ ~ In (u "МегаФон") known_operators
  /\ Forall (fun c => wordy c = true) (u "МегаФон").
Proof.
  assert (Hop : _extract_operator
                  (u "Работы на стороне оператора МегаФон завтра")
                = Some (u "МегаФон")) by (vm_compute; reflexivity).
  assert (Hnew : ~ In (u "МегаФон") known_operators).
  { vm_compute. intuition discriminate. }
  split; [exact Hop|]. split; [exact Hnew|].
  destruct (operator_is_clean _ _ Hop) as [Hin|[_ Hall]];
    [contradiction|exact Hall].
Defined.

Lemma extracted_time_shape_witness :
  _extract_start_time (u "Начало работ:** 19.06.2025 21:00 **(МСК)")
  = Some (u "19.06.2025 21:00")
  /\ time_shaped (u "19.06.2025 21:00").
Proof.
  assert (Hs : _extract_start_time
                 (u "Начало работ:** 19.06.2025 21:00 **(МСК)")
               = Some (u "19.06.2025 21:00")) by (vm_compute; reflexivity).
  split; [exact Hs|].
  apply (extracted_time_shape ParserFacts.latin_cyrillic_digits
           (u "Начало работ:** 19.06.2025 21:00 **(МСК)")).
  left. exact Hs.
Defined.

End ExtractionFacts.

Module NoticeFacts.
Import EmailClient Parser Notice Telegram TelegramFacts LedgerFacts Notify.

(** ** Substrings *)

Lemma startswith_app (s t k : str) :
  startswith s k = true -> startswith (s ++ t) k = true.
Proof.
  revert s. induction k as [|p k IH]; intros s;
    [intros _; destruct (s ++ t); reflexivity|].
  destruct s as [|c s]; cbn [startswith app]; [discriminate|].
  intros H. apply andb_prop in H. destruct H as [H1 H2].
  rewrite H1, (IH _ H2). reflexivity.
Qed.

Lemma contains_app_l (s t k : str) :
  contains s k = true -> contains (s ++ t) k = true.
Proof.
  induction s as [|c s IH]; cbn [contains app].
  - rewrite orb_false_r. intros H. destruct k; [|discriminate].
    destruct t; reflexivity.
  - intros H. apply orb_prop in H. destruct H as [H|H].
    + change (c :: s ++ t) with ((c :: s) ++ t).
      rewrite (startswith_app _ t _ H). reflexivity.
    + rewrite (IH H). apply orb_true_r.
Qed.

Lemma contains_app_r (s t k : str) :
  contains t k = true -> contains (s ++ t) k = true.
Proof.
  intros H. induction s as [|c s IH]; [exact H|].
  cbn [contains app]. rewrite IH. apply orb_true_r.
Qed.

(** ** Joining lines *)

Lemma join_app (sep : str) (a b : list str) :
  a <> [] -> b <> [] -> join sep (a ++ b) = join sep a ++ sep ++ join sep b.
Proof.
  intros Ha Hb. induction a as [|x a IH]; [contradiction|].
  destruct a as [|y a].
  - cbn [app join]. destruct b; [contradiction|reflexivity].
  - change ((x :: y :: a) ++ b) with (x :: ((y :: a) ++ b)).
    change (join sep (x :: (y :: a) ++ b))
      with (x ++ sep ++ join sep ((y :: a) ++ b)).
    rewrite IH by discriminate.
    change (join sep (x :: y :: a)) with (x ++ sep ++ join sep (y :: a)).
    rewrite <- !app_assoc. reflexivity.
Qed.

Section Facts.
Context {uni : Unicode} {cal : Strftime}.

(** X15. A keyword in the subject or in the body is enough: when the
    lower-cased subject or the lower-cased body contains one of the ten
    keywords, [is_maintenance_email] says yes, whatever the rest of the
    letter; a missing subject or body counts as empty. *)
Theorem keyword_is_enough (email_data : email_data) (keyword : str) :
  In keyword keywords ->
  contains (str_lower (get_or_empty (ed_subject email_data))) keyword = true
  \/ contains (str_lower (get_or_empty (ed_body email_data))) keyword = true ->
  is_maintenance_email email_data = true.
Proof.
  intros Hin Hhas. unfold is_maintenance_email, contains_any.
  apply existsb_exists. exists keyword. split; [exact Hin|].
  destruct Hhas as [H|H].
  - apply contains_app_l. exact H.
  - apply contains_app_r. apply contains_app_r. exact H.
Qed.

(** ** The message *)

Lemma message_parts_head (p : parsed_data) :
  exists first rest,
    message_parts p = first :: rest
    /\ first = match operator p with
               | Some o => dict_get emoji_map o (u "📡")
               | None => u "📡"
               end ++ u " *" ++ show (operator p) ++ u "*"
    /\ rest <> [].
Proof.
  unfold message_parts.
  destruct (start_time p) as [[|c s]|]; destruct (end_time p) as [[|c' s']|];
    destruct (informative (description p));
    do 2 eexists; (split; [reflexivity|]); split; try reflexivity; discriminate.
Qed.

(** The message is its lines, a blank line, and the line of the time. *)
Lemma format_for_telegram_parts (now : datetime) (p : parsed_data) :
  format_for_telegram now p
  = join [10%N] (message_parts p) ++ [10%N] ++ [10%N]
    ++ u "📬 _" ++ strftime now (u "%d.%m.%Y %H:%M") ++ u "_".
Proof.
  unfold format_for_telegram.
  destruct (message_parts_head p) as [first [rest [Hparts _]]].
  rewrite join_app; [|rewrite Hparts; discriminate|discriminate].
  reflexivity.
Qed.

(** X16. The time of the notification is part of the message, to the
    minute: for one record, [format_for_telegram] gives the same text at
    two times exactly when [strftime('%d.%m.%Y %H:%M')] prints them
    alike. So the hash that guards against duplicates is the hash of the
    record and of the minute. *)
Theorem message_differs_by_the_minute (t1 t2 : datetime) (p : parsed_data) :
  format_for_telegram t1 p = format_for_telegram t2 p
  <-> strftime t1 (u "%d.%m.%Y %H:%M") = strftime t2 (u "%d.%m.%Y %H:%M").
Proof.
  rewrite !format_for_telegram_parts. split.
  - intros H. apply app_inv_head in H. apply app_inv_head in H.
    apply app_inv_head in H. apply app_inv_head in H.
    apply app_inv_tail in H. exact H.
  - intros ->. reflexivity.
Qed.

(** X17. A record without an operator is reported under the name [None]:
    the dictionary has the key, so the default name of
    [format_for_telegram] is not used, and [None] is printed as it is,
    after the default sign. *)
Theorem missing_operator_printed_as_None (now : datetime) (p : parsed_data) :
  operator p = None ->
  exists rest,
    format_for_telegram now p = u "📡 *None*" ++ [10%N] ++ rest.
Proof.
  intros Hop. rewrite format_for_telegram_parts.
  destruct (message_parts_head p) as [first [rest [Hparts [Hfirst Hrest]]]].
  rewrite Hparts, Hop in *. cbn [show] in Hfirst.
  destruct rest as [|second rest]; [contradiction|].
  change (join [10%N] (first :: second :: rest))
    with (first ++ [10%N] ++ join [10%N] (second :: rest)).
  rewrite Hfirst.
  change (u "📡" ++ u " *" ++ u "None" ++ u "*") with (u "📡 *None*").
  rewrite <- !app_assoc. eexists. reflexivity.
Qed.

End Facts.
#[local] Existing Instance Tables.latin_cyrillic.

(** A clock that prints the minutes (the seconds, when the format asks for
    them) gone by since the reading 0. *)
Fixpoint decimal_digits (fuel : nat) (n : N) (acc : str) : str :=
  match fuel with
  | O => acc
  | S fuel' =>
      let acc' := (48 + n mod 10)%N :: acc in
      if (n <? 10)%N then acc' else decimal_digits fuel' (n / 10) acc'
  end.

Definition sim_strftime : Strftime :=
  {| strftime := fun d format =>
       decimal_digits 40
         (Z.to_N (wall d / (if contains format (u "%S")
                            then 1000000 else 60000000))) [] |}.

#[local] Existing Instance sim_strftime.

Definition planned : email_data :=
  {| ed_id := Some 7%N; ed_subject := Some (u "Плановые работы на платформе");
     ed_from := Some (u "no-reply@devinotele.com"); ed_date := Some [];
     ed_body := None |}.

Lemma keyword_is_enough_witness : is_maintenance_email planned = true.
Proof.
  apply (keyword_is_enough planned (u "плановые работы")).
  - unfold keywords. do 2 right. left. reflexivity.
  - left. vm_compute. reflexivity.
Defined.

(** A letter that gives the times and names no operator. *)
Definition unnamed : email_data :=
  {| ed_id := Some 8%N; ed_subject := Some [];
     ed_from := Some (u "no-reply@devinotele.com"); ed_date := Some [];
     ed_body := Some (u "С 19.06.2025 21:00 по 20.06.2025 02:00") |}.

Lemma missing_operator_printed_as_None_witness :
  exists p rest,
    parse_email (naive 0) unnamed = Some p
    /\ start_time p = Some (u "19.06.2025 21:00")
    /\ format_for_telegram (naive 0) p = u "📡 *None*" ++ [10%N] ++ rest.
Proof.
  destruct (parse_email (naive 0) unnamed) as [p|] eqn:Hp;
    [|vm_compute in Hp; discriminate].
  assert (Hop : operator p = None).
  { vm_compute in Hp. injection Hp as <-. reflexivity. }
  destruct (missing_operator_printed_as_None (naive 0) p Hop) as [rest Hrest].
  exists p, rest. split; [reflexivity|]. split; [|exact Hrest].
  vm_compute in Hp. injection Hp as <-. reflexivity.
Defined.

End NoticeFacts.


Module NotifyFacts.
Import EmailClient Parser Notice Telegram TelegramFacts LedgerFacts Notify
  NoticeFacts.

Section Facts.
Context {E : Type} {os : OS E} {api : Api E} {uni : Unicode} {cal : Strftime}.

(** A send that reported [True] left the hash of the text in the ledger. *)
Lemma sent_is_known (w w1 : notifier E) (message parse_mode : str)
    (silent : bool) :
  send_message message parse_mode silent w = (Ok true, w1) ->
  exists h, _create_message_hash message = Ok h /\ In h (sent_messages w1).
Proof.
  intros Hsend.
  destruct (send_message_cases w message parse_mode silent)
    as [b [w' [Hs Hout]]].
  rewrite Hsend in Hs. injection Hs as <- <-.
  inversion Hout as [|h Hh Hin| |h w'' Hh Hnew Hl Hc Hf]; subst.
  - exists h. split; assumption.
  - exists h. split; [assumption|]. rewrite Hl. apply capped_last.
Qed.

(** X18. A notice is sent once a minute at most. When
    [send_maintenance_notification] has returned [True] for a record,
    and is called again for the same record at a time that
    [strftime('%d.%m.%Y %H:%M')] prints like the first, it reads the
    clock, calls nothing and returns [True]: the text is the same, and
    its hash is in the ledger. *)
Theorem notice_repeated_in_the_minute (p : parsed_data) (w w1 : notifier E)
    (t0 t1 : Z) (e0 e1 : E) :
  clock_read (env w) = (t0, e0) ->
  send_maintenance_notification p w = (Ok true, w1) ->
  clock_read (env w1) = (t1, e1) ->
  strftime (naive t1) (u "%d.%m.%Y %H:%M")
  = strftime (naive t0) (u "%d.%m.%Y %H:%M") ->
  send_maintenance_notification p w1 = (Ok true, set_env e1 w1).
Proof.
  intros Hnow0 Hfirst Hnow1 Hstamp.
  unfold send_maintenance_notification, try_except, bind, datetime_now in *.
  rewrite Hnow0 in Hfirst. rewrite Hnow1.
  destruct (send_message (format_for_telegram (naive t0) p) MARKDOWN false
              (set_env e0 w)) as [[b|x] w'] eqn:Hsend.
  - injection Hfirst as -> ->.
    destruct (sent_is_known _ _ _ _ _ Hsend) as [h [Hh Hin]].
    rewrite (format_for_telegram_parts (naive t1)), Hstamp,
      <- (format_for_telegram_parts (naive t0)).
    rewrite (send_known (set_env e1 w1) _ MARKDOWN false h Hh Hin).
    reflexivity.
  - unfold ret in Hfirst. discriminate.
Qed.

(** What a notification leaves behind: it raises nothing, and calls the
    Bot API once at most, with the sound setting [silent]. *)
Definition one_call_at_most (silent : bool) (m : M (notifier E) bool)
    : Prop :=
  forall w, exists b w',
    m w = (Ok b, w')
    /\ (calls w' = calls w
        \/ exists text, calls w' = EvSendMessage text silent :: calls w).

Lemma send_message_one_call (parse_mode : str) (silent : bool)
    (now : M (notifier E) datetime) (text : datetime -> str) :
  (forall w, exists t e, now w = (Ok t, set_env e w)) ->
  one_call_at_most silent
    (bind now (fun t => send_message (text t) parse_mode silent)).
Proof.
  intros Hnow w. unfold bind. destruct (Hnow w) as [t [e ->]].
  destruct (send_message_cases (set_env e w) (text t) parse_mode silent)
    as [b [w' [Hs Hout]]].
  exists b, w'. split; [exact Hs|].
  destruct Hout as [x Hh|h Hh Hin|h x e1 pm Hh Hnew Hapi|h w' Hh Hnew Hl Hc Hf].
  - now left.
  - now left.
  - right. eexists. reflexivity.
  - right. exists (text t). exact Hc.
Qed.

Lemma datetime_now_reads (w : notifier E) :
  exists t e, datetime_now w = (Ok t, set_env e w).
Proof.
  unfold datetime_now. destruct (clock_read (env w)) as [t e]. eauto.
Qed.

(** X19. The three notifications raise nothing, whatever the clock, the
    Bot API and the disk do, and call the Bot API once at most:
    [send_maintenance_notification] and [send_test_message] with sound,
    [send_error_notification] without. *)
Theorem notifications_call_once_at_most (p : parsed_data)
    (error_message : str) :
  one_call_at_most false (send_maintenance_notification p)
  /\ one_call_at_most false send_test_message
  /\ one_call_at_most true (send_error_notification error_message).
Proof.
  split; [|split].
  - intros w.
    destruct (send_message_one_call MARKDOWN false datetime_now
                (fun now => format_for_telegram now p) datetime_now_reads w)
      as [b [w' [Hs Hc]]].
    exists b, w'. split; [|exact Hc].
    unfold send_maintenance_notification, try_except. rewrite Hs. reflexivity.
  - apply (send_message_one_call MARKDOWN false datetime_now test_message
             datetime_now_reads).
  - apply (send_message_one_call MARKDOWN true datetime_now
             (error_msg error_message) datetime_now_reads).
Qed.

End Facts.
#[local] Existing Instance Tables.latin_cyrillic.
#[local] Existing Instance sim_strftime.

(** Works of МТС, as [parse_email] would give them. *)
Definition works : parsed_data :=
  {| original_subject := u "Плановые работы"; original_body := [];
     email_date := []; email_from := u "no-reply@devinotele.com";
     operator := Some (u "МТС");
     start_time := Some (u "19.06.2025 21:00");
     end_time := Some (u "20.06.2025 02:00");
     work_type := Some (u "Плановые работы");
     description := u "Описание недоступно";
     parsed_at := naive 0 |}.

(** The notice sent, and sent again a few microseconds later. *)
Lemma notice_repeated_in_the_minute_witness :
  exists w1,
    send_maintenance_notification (os := sim_os) (api := sim_api) works
      (sim_start []) = (Ok true, w1)
    /\ length (calls w1) = 1%nat
    /\ send_maintenance_notification (os := sim_os) (api := sim_api) works w1
       = (Ok true, set_env (env w1 + 1)%Z w1).
Proof.
  destruct (send_maintenance_notification (os := sim_os) (api := sim_api)
              works (sim_start [])) as [r w1] eqn:Hfirst.
  assert (Hr : r = Ok true /\ length (calls w1) = 1%nat
               /\ env w1 = 4%Z).
  { vm_compute in Hfirst. injection Hfirst as <- <-. repeat split. }
  destruct Hr as [-> [Hcalls Henv]].
  exists w1. split; [reflexivity|]. split; [exact Hcalls|].
  apply (notice_repeated_in_the_minute (os := sim_os) (api := sim_api)
           works (sim_start []) w1 0%Z (env w1) 1%Z (env w1 + 1)%Z).
  - reflexivity.
  - exact Hfirst.
  - reflexivity.
  - rewrite Henv. vm_compute. reflexivity.
Defined.

End NotifyFacts.

Module BotFacts.
Import EmailClient Parser Notice Bot.
Local Open Scope Z_scope.

Ltac accounts :=
  constructor;
  cbv [count_sent count_error count_processed modify ret bind];
  cbn [stats_of set_stats emails_processed notifications_sent errors
       started_at email_sender world length fst snd];
  first [lia | reflexivity].

Section Facts.
Context {uni : Unicode}.
Variable W : Type.
Variable get_new_emails_from_sender : str -> bool -> Z -> M W (list email_data).
Variable send_maintenance_notification : parsed_data -> M W bool.
Variable datetime_now : M W datetime.

(** The counters between two states of the bot, [sent] notifications
    apart, with [k] letters gone through: notifications sent went up by
    [sent]; no counter went down; a letter counted as processed was
    notified or counted as an error; and the notifications and the errors
    are no more than the letters. *)
Record accounted (k : Z) (sent : Z) (b b' : bot W) : Prop := {
  sent_counted :
    notifications_sent (stats_of b') = notifications_sent (stats_of b) + sent;
  sent_positive : 0 <= sent;
  errors_grow : errors (stats_of b) <= errors (stats_of b');
  processed_at_least :
    emails_processed (stats_of b) + sent <= emails_processed (stats_of b');
  processed_at_most :
    emails_processed (stats_of b') - emails_processed (stats_of b)
    <= sent + (errors (stats_of b') - errors (stats_of b));
  no_more_than_letters :
    sent + (errors (stats_of b') - errors (stats_of b)) <= k;
  same_sender : email_sender b' = email_sender b;
  same_start : started_at (stats_of b') = started_at (stats_of b)
}.

Lemma accounted_then (k1 k2 s1 s2 : Z) (a b c : bot W) :
  accounted k1 s1 a b -> accounted k2 s2 b c -> accounted (k1 + k2) (s1 + s2) a c.
Proof.
  intros [] []. constructor; try lia; congruence.
Qed.

Lemma process_one_accounted (email_data : email_data) (count : Z) (b : bot W) :
  exists sent b',
    process_one send_maintenance_notification datetime_now email_data count b
    = (Ok (count + sent), b')
    /\ accounted 1 sent b b'.
Proof.
  unfold process_one, try_except, bind at 1.
  destruct (ed_subject email_data) as [subject|].
  - unfold ret at 1.
    destruct (is_maintenance_email email_data); cbn [negb].
    + unfold bind at 1, on_world at 1.
      destruct (datetime_now (world b)) as [[now|x] w1].
      * destruct (parse_email now email_data) as [parsed|].
        -- unfold bind at 1, on_world at 1. cbn [world].
           destruct (send_maintenance_notification parsed w1) as [[[|]|x] w2].
           ++ exists 1. eexists. split; [reflexivity|].
              accounts.
           ++ exists 0. eexists. rewrite Z.add_0_r. split; [reflexivity|].
              accounts.
           ++ exists 0. eexists. rewrite Z.add_0_r. split; [reflexivity|].
              accounts.
        -- exists 0. eexists. rewrite Z.add_0_r. split; [reflexivity|].
           accounts.
      * exists 0. eexists. rewrite Z.add_0_r. split; [reflexivity|].
        accounts.
    + exists 0. eexists. rewrite Z.add_0_r. split; [reflexivity|].
      accounts.
  - exists 0. eexists. rewrite Z.add_0_r. split; [reflexivity|].
    accounts.
Qed.

Lemma process_all_accounted (new_emails : list email_data) :
  forall (count : Z) (b : bot W),
  exists sent b',
    process_all send_maintenance_notification datetime_now new_emails count b
    = (Ok (count + sent), b')
    /\ accounted (Z.of_nat (length new_emails)) sent b b'.
Proof.
  induction new_emails as [|e rest IH]; intros count b; cbn [process_all].
  - exists 0, b. rewrite Z.add_0_r. split; [reflexivity|].
    accounts.
  - unfold bind.
    destruct (process_one_accounted e count b) as [s1 [b1 [-> H1]]].
    destruct (IH (count + s1) b1) as [s2 [b2 [-> H2]]].
    exists (s1 + s2), b2. split; [f_equal; f_equal; lia|].
    replace (Z.of_nat (length (e :: rest)))
      with (1 + Z.of_nat (length rest)) by (cbn [length]; lia).
    eapply accounted_then; eassumption.
Qed.

(** X20. The counters of [_process_new_emails] add up, whatever the mail
    client and the Telegram bot do. The call raises nothing; the number
    it returns is the number by which [notifications_sent] went up; no
    counter goes down; every letter counted in [emails_processed] was
    notified or counted in [errors]; and the notifications and the errors
    together are no more than the letters fetched (than one, when
    fetching raised). The sender watched and the start time are left as
    they are. *)
Theorem counters_add_up (b : bot W) :
  exists processed b',
    _process_new_emails get_new_emails_from_sender
      send_maintenance_notification datetime_now b = (Ok processed, b')
    /\ accounted
         match get_new_emails_from_sender (email_sender b) true 3 (world b) with
         | (Ok new_emails, _) => Z.of_nat (length new_emails)
         | (Raise _, _) => 1
         end processed b b'.
Proof.
  unfold _process_new_emails, try_except, bind at 1, gets.
  unfold bind at 1, on_world at 1.
  destruct (get_new_emails_from_sender (email_sender b) true 3 (world b))
    as [[new_emails|x] w1].
  - destruct new_emails as [|e rest].
    + exists 0. eexists. split; [reflexivity|].
      accounts.
    + match goal with |- context [process_all _ _ ?l 0 ?b0] =>
        destruct (process_all_accounted l 0 b0) as [sent [b' [Hs Hacc]]]
      end.
      rewrite Hs. exists sent, b'. split; [reflexivity|].
      destruct Hacc. constructor;
        cbn [stats_of set_stats emails_processed notifications_sent errors
             started_at email_sender world length] in *; first [lia|congruence].
  - destruct (contains_any _ _).
    + exists 0. eexists. split; [reflexivity|].
      accounts.
    + exists 0. eexists. split; [reflexivity|].
      accounts.
Qed.

End Facts.
End BotFacts.
